(** * Face-detection overlay: decode pipeline, image encoder, capture cycle

    A shallow embedding of the TypeScript sources
      - [frontend/services/detectionService.ts]  (class [DetectionService]),
      - [cropResizeToBlob]                        (the byte-budgeted encoder),
      - [App.tsx]                                 ([captureAndProcess]),
    and the properties of the specification proved or refuted on it;
    then, around them,
      - [App.tsx], [OverlayPanel.tsx]             (the switch, the mount effect),
      - [frontend/hooks/useDraggable.ts]          (the hook),
      - [frontend/components/EmotionDisplay.tsx]  (the bars),
      - [frontend/services/apiService.ts]         ([analyzeFaces]),
    with further properties read off the code.

    Numbers.  Where the code computes with a [number] and the outcome
    depends on the rounding, the number is a double: the quality of the
    encoder's search ([Encoder64]) and the pointer coordinates of the hook
    ([Draggable]) are binary64 floats, with the subtraction, comparison and
    [Math.max] of doubles.  Elsewhere a [number] is modelled as an exact
    rational ([Q]), and IEEE rounding, infinities and NaN are outside the
    model there: the decoder, the overlap measure and the ranking, and the
    encoder [Encoder] with exact qualities, which serves the properties
    that hold of any descent of the quality.  Array lengths and loop
    counters are [nat]; integer constants of the model (strides, shape,
    grid coordinates, channel counts) are [Z].  Reads past the end of an
    array, which give [undefined] and from there NaN, are kept visible: they
    make the decode return [None].  Division by zero is 0 in [Q]; the
    sources divide by the sides of the model input (640), by [1 + exp(-v)],
    by a union area already tested positive, and by the constants 2 and
    1024.

    [Math.exp] is a library function; the decoder is parametric in it, and
    the facts that need it assume only that it is never negative.

    The external calls (model inference, canvas encoding, DOM, upload) are
    given by records that say what each call answers. *)

From Stdlib Require Import ZArith QArith Qround Qminmax Bool Lia Lqa.
From Stdlib Require String.
From Stdlib Require Floats.
From Stdlib Require Import List Sorted Permutation.
Import ListNotations.

Set Implicit Arguments.
(* A decimal literal of a double stands for the nearest double, as in
   JavaScript. *)
Set Warnings "-inexact-float".
Local Open Scope Q_scope.

(** ** JavaScript primitives used by the sources *)

Module Js.

(** [a < b], [a > b] and [a <= b] on numbers. *)
Definition ltb (a b : Q) : bool := negb (Qle_bool b a).
Definition gtb (a b : Q) : bool := ltb b a.
Definition leb (a b : Q) : bool := Qle_bool a b.

Definition Math_max (a b : Q) : Q := Qmax a b.
Definition Math_min (a b : Q) : Q := Qmin a b.

(** [Math.floor (a / b)] on integers, for a positive divisor. *)
Definition floor_div (a b : Z) : Z := (a / b)%Z.

(** [for (let i = 0; i < n; i++) body(i)] over a threaded state. *)
Definition for_upto {S : Type} (n : nat) (body : nat -> S -> S) (s : S) : S :=
  fold_left (fun acc i => body i acc) (seq 0 n) s.

(** [arr.splice(i, 1)]: the array without its element at index [i]. *)
Definition splice1 {A : Type} (i : nat) (l : list A) : list A :=
  firstn i l ++ skipn (S i) l.

(** [Array.prototype.sort(cmp)].  The language fixes the result for a
    consistent comparator: the stable arrangement in which [a] precedes
    [b] whenever [cmp a b < 0].  Insertion from the right computes it. *)
Section Sort.
Context {A : Type} (cmp : A -> A -> Q).

Fixpoint sort_insert (a : A) (l : list A) : list A :=
  match l with
  | [] => [a]
  | b :: t => if gtb (cmp a b) 0 then b :: sort_insert a t else a :: b :: t
  end.

Definition Array_sort (l : list A) : list A := fold_right sort_insert [] l.
End Sort.

End Js.

(** ** detectionService.ts *)

Module Detection.

(** [BoundingBox] of [../types]. *)
Record BoundingBox : Type := mkBox {
  x : Q; y : Q; w : Q; h : Q; confidence : Q
}.

(** [MODEL_INPUT_SHAPE], an NCHW quadruple. *)
Record Shape : Type := mkShape { dimN : Z; dimC : Z; dim2 : Z; dim3 : Z }.

Definition MODEL_INPUT_SHAPE : Shape := mkShape 1 3 640 640.
Definition STRIDES : list Z := [8; 16; 32]%Z.
Definition CONFIDENCE_THRESHOLD : Q := 0.35.
Definition NMS_THRESHOLD : Q := 0.45.

(** The private fields of [class DetectionService].  [session] records only
    whether the ONNX session object has been created. *)
Record DetectionService : Type := mkService {
  session : bool;
  modelInputShape : Shape;
  numProposals : nat;
  gridX : list Z;
  gridY : list Z;
  stridePerProposal : list Z;
  channels : Z
}.

Definition new_DetectionService : DetectionService :=
  mkService false MODEL_INPUT_SHAPE 0 [] [] [] 0.

(** [this.modelInputShape.slice(2)], destructured as
    [[modelWidth, modelHeight]]. *)
Definition slice2 (s : Shape) : Z * Z := (dim2 s, dim3 s).

(** *** prepareGrids *)

Definition push_cell (stride : Z) (xc yc : nat) (svc : DetectionService)
  : DetectionService :=
  mkService (session svc) (modelInputShape svc) (numProposals svc)
            (gridX svc ++ [Z.of_nat xc])
            (gridY svc ++ [Z.of_nat yc])
            (stridePerProposal svc ++ [stride])
            (channels svc).

Definition grid_for_stride (modelWidth modelHeight : Z)
           (svc : DetectionService) (stride : Z) : DetectionService :=
  let nx := Js.floor_div modelWidth stride in
  let ny := Js.floor_div modelHeight stride in
  Js.for_upto (Z.to_nat ny) (fun yc =>
    Js.for_upto (Z.to_nat nx) (fun xc => push_cell stride xc yc)) svc.

Definition prepareGrids (strides : list Z) (svc : DetectionService)
  : DetectionService :=
  let '(modelWidth, modelHeight) := slice2 (modelInputShape svc) in
  let svc0 := mkService (session svc) (modelInputShape svc)
                        (numProposals svc) [] [] [] (channels svc) in
  let svc1 := fold_left (grid_for_stride modelWidth modelHeight) strides svc0 in
  mkService (session svc1) (modelInputShape svc1) (length (gridX svc1))
            (gridX svc1) (gridY svc1) (stridePerProposal svc1) (channels svc1).

(** *** initialize

    [fetch] and [InferenceSession.create] are external; [InitEnv] records
    whether each succeeds. *)

Record InitEnv : Type := mkInitEnv { fetch_ok : bool; create_ok : bool }.

Inductive DetectError : Type :=
| FetchFailed          (* Failed to fetch model from ... *)
| SessionCreateFailed  (* rejection of InferenceSession.create *)
| NotInitialized       (* Detection service not initialized. *)
| NoContext2D          (* Could not get 2D context *)
| DrawableFailed       (* rejection of createImageBitmap *)
| RunFailed.           (* rejection of session.run *)

Inductive outcome (A : Type) : Type :=
| Returned (a : A)
| Threw (e : DetectError).
Arguments Returned {A} a.
Arguments Threw {A} e.

Definition initialize (env : InitEnv) (svc : DetectionService)
  : outcome unit * DetectionService :=
  if session svc then (Returned tt, svc)
  else if negb (fetch_ok env) then (Threw FetchFailed, svc)
  else if negb (create_ok env) then (Threw SessionCreateFailed, svc)
  else
    let svc1 := mkService true (modelInputShape svc) (numProposals svc)
                          (gridX svc) (gridY svc) (stridePerProposal svc)
                          (channels svc) in
    (Returned tt, prepareGrids STRIDES svc1).

(** *** iou and nonMaxSuppression *)

Definition iou (a b : BoundingBox) : Q :=
  let x1 := Js.Math_max (x a) (x b) in
  let y1 := Js.Math_max (y a) (y b) in
  let x2 := Js.Math_min (x a + w a) (x b + w b) in
  let y2 := Js.Math_min (y a + h a) (y b + h b) in
  let intersection := Js.Math_max 0 (x2 - x1) * Js.Math_max 0 (y2 - y1) in
  if Js.leb intersection 0 then 0
  else
    let union := w a * h a + w b * h b - intersection in
    if Js.leb union 0 then 0 else intersection / union.

(** The inner [for (let i = sorted.length - 1; i >= 0; i--)] loop: [i]
    counts the indices still to visit, so the index visited is [i - 1]. *)
Fixpoint suppress_from (i : nat) (iouThreshold : Q) (current : BoundingBox)
         (sorted : list BoundingBox) : list BoundingBox :=
  match i with
  | O => sorted
  | S j =>
      suppress_from j iouThreshold current
        (match nth_error sorted j with
         | Some b => if Js.gtb (iou current b) iouThreshold
                     then Js.splice1 j sorted else sorted
         | None => sorted
         end)
  end.

(** The outer [while (sorted.length)] loop.  Each round removes at least
    the head, so [length sorted] rounds always reach the empty array (see
    [nms_while_fuel]); the [O] branch is never the one that answers. *)
Fixpoint nms_while (fuel : nat) (iouThreshold : Q)
         (sorted selected : list BoundingBox) : list BoundingBox :=
  match fuel, sorted with
  | _, [] => selected
  | O, _ => selected
  | S f, current :: rest =>
      nms_while f iouThreshold
                (suppress_from (length rest) iouThreshold current rest)
                (selected ++ [current])
  end.

Definition by_confidence_desc (a b : BoundingBox) : Q :=
  confidence b - confidence a.

Definition nonMaxSuppression (boxes : list BoundingBox) (iouThreshold : Q)
  : list BoundingBox :=
  if (length boxes <=? 1)%nat then boxes
  else
    let sorted := Js.Array_sort by_confidence_desc boxes in
    nms_while (length sorted) iouThreshold sorted [].

Section Decoder.

(** [Math.exp]. *)
Variable exp : Q -> Q.

Definition sigmoid (v : Q) : Q := 1 / (1 + exp (- v)).

Definition clamp (value min max : Q) : Q :=
  Js.Math_max min (Js.Math_min max value).

(** [output[k]] on a [Float32Array]: [None] stands for [undefined]. *)
Definition read (output : list Q) (k : nat) : option Q := nth_error output k.

Definition obind {A B : Type} (m : option A) (f : A -> option B) : option B :=
  match m with Some a => f a | None => None end.

Local Notation "v <- m ;; k" := (obind m (fun v => k))
  (at level 61, m at next level, right associativity).

(** The [for (let c = 5; c < numChannels; c++)] loop over the class
    channels of proposal [i]; the accumulator is [maxClassScore]. *)
Definition classScoreLoop (output : list Q) (nProp i : nat) (numChannels : Z)
  : option Q :=
  fold_left
    (fun acc c =>
       maxClassScore <- acc ;;
       raw <- read output (c * nProp + i) ;;
       let score := sigmoid raw in
       Some (if Js.gtb score maxClassScore then score else maxClassScore))
    (seq 5 (Z.to_nat numChannels - 5))
    (Some 0).

(** What one round of the proposal loop does: [continue], or push a box. *)
Inductive round : Type :=
| Continue
| Push (b : BoundingBox).

Definition decodeProposal (svc : DetectionService) (output : list Q)
           (imageWidth imageHeight : Q) (numChannels : Z)
           (scaleX scaleY : Q) (i : nat) : option round :=
  let nProp := numProposals svc in
  stride <- nth_error (stridePerProposal svc) i ;;
  gx <- nth_error (gridX svc) i ;;
  gy <- nth_error (gridY svc) i ;;
  xRaw <- read output (0 * nProp + i) ;;
  yRaw <- read output (1 * nProp + i) ;;
  wRaw <- read output (2 * nProp + i) ;;
  hRaw <- read output (3 * nProp + i) ;;
  objRaw <- read output (4 * nProp + i) ;;
  let objectness := sigmoid objRaw in
  classScore <- (if (5 <? numChannels)%Z
                 then classScoreLoop output nProp i numChannels
                 else Some 1) ;;
  let confidence := objectness * classScore in
  if Js.ltb confidence CONFIDENCE_THRESHOLD then Some Continue
  else
    let xCenter := (sigmoid xRaw * 2 - 0.5 + inject_Z gx) * inject_Z stride in
    let yCenter := (sigmoid yRaw * 2 - 0.5 + inject_Z gy) * inject_Z stride in
    let width := (sigmoid wRaw * 2) ^ 2 * inject_Z stride in
    let height := (sigmoid hRaw * 2) ^ 2 * inject_Z stride in
    let bx := clamp ((xCenter - width / 2) * scaleX) 0 imageWidth in
    let by_ := clamp ((yCenter - height / 2) * scaleY) 0 imageHeight in
    let bw := clamp (width * scaleX) 1 imageWidth in
    let bh := clamp (height * scaleY) 1 imageHeight in
    Some (Push (mkBox bx by_ bw bh confidence)).

(** The proposal loop; the accumulator is the array [boxes]. *)
Definition decodeLoop (svc : DetectionService) (output : list Q)
           (imageWidth imageHeight : Q) (numChannels : Z)
           (scaleX scaleY : Q) : option (list BoundingBox) :=
  Js.for_upto (numProposals svc)
    (fun i acc =>
       boxes <- acc ;;
       r <- decodeProposal svc output imageWidth imageHeight
                           numChannels scaleX scaleY i ;;
       match r with
       | Continue => Some boxes
       | Push b => Some (boxes ++ [b])
       end)
    (Some []).

Definition processOutput (svc : DetectionService) (output : list Q)
           (imageWidth imageHeight : Q) : option (list BoundingBox) :=
  if (numProposals svc =? 0)%nat then Some []
  else
    let numChannels :=
      if (channels svc =? 0)%Z
      then Z.of_nat (length output / numProposals svc)
      else channels svc in
    if (numChannels <? 5)%Z then Some []
    else
      let '(modelWidth, modelHeight) := slice2 (modelInputShape svc) in
      let scaleX := imageWidth / inject_Z modelWidth in
      let scaleY := imageHeight / inject_Z modelHeight in
      boxes <- decodeLoop svc output imageWidth imageHeight
                          numChannels scaleX scaleY ;;
      Some (nonMaxSuppression boxes NMS_THRESHOLD).

(** *** detectFaces

    The canvas, the forward pass and the image source are external;
    [DetectEnv] records what each gives back in one call. *)

Record Tensor : Type := mkTensor {
  dims : option (list Z);   (* [None]: [dims] is not an array *)
  data : list Q
}.

Record DetectEnv : Type := mkDetectEnv {
  drawable : option (Q * Q);   (* image width and height, or a rejection *)
  context2d : bool;            (* [canvas.getContext('2d')] is non-null *)
  run : option Tensor          (* result of [session.run], or a rejection *)
}.

(** The assignment to [this.channels] in [detectFaces]: taken from
    [dims[1]] the first time, when [dims] is an array of at least three
    entries, and left alone once it is non-zero. *)
Definition cacheChannels (outputTensor : Tensor) (svc : DetectionService)
  : DetectionService :=
  let ch :=
    if (channels svc =? 0)%Z then
      match dims outputTensor with
      | Some ds => if (3 <=? length ds)%nat then nth 1 ds 0%Z else 0%Z
      | None => 0%Z
      end
    else channels svc in
  mkService (session svc) (modelInputShape svc) (numProposals svc)
            (gridX svc) (gridY svc) (stridePerProposal svc) ch.

Definition detectFaces (env : DetectEnv) (svc : DetectionService)
  : option (outcome (list BoundingBox)) * DetectionService :=
  if negb (session svc) then (Some (Threw NotInitialized), svc)
  else
    match drawable env with
    | None => (Some (Threw DrawableFailed), svc)
    | Some (imageWidth, imageHeight) =>
        if negb (context2d env) then (Some (Threw NoContext2D), svc)
        else
          match run env with
          | None => (Some (Threw RunFailed), svc)
          | Some outputTensor =>
              let svc1 := cacheChannels outputTensor svc in
              (option_map Returned
                 (processOutput svc1 (data outputTensor)
                                imageWidth imageHeight),
               svc1)
          end
    end.

End Decoder.

End Detection.

(** ** cropResizeToBlob *)

Module Encoder.

Inductive MimeType : Type :=
| ImageJpeg   (* "image/jpeg" *)
| ImageWebp.  (* "image/webp" *)

Definition mime_eqb (a b : MimeType) : bool :=
  match a, b with
  | ImageJpeg, ImageJpeg | ImageWebp, ImageWebp => true
  | _, _ => false
  end.

(** A [Blob], of which the function reads only [size]; [tag] tells blobs of
    the same size apart. *)
Record Blob : Type := mkBlob { size : N; tag : nat }.

(** [Partial<{...}>]: every option may be absent. *)
Record Opts : Type := mkOpts {
  opt_targetSize : option Q;
  opt_maxBytes : option Q;
  opt_qualityStart : option Q;
  opt_qualityStep : option Q;
  opt_minQuality : option Q;
  opt_webpFallback : option bool
}.

Definition no_opts : Opts := mkOpts None None None None None None.

(** A destructuring default. *)
Definition default {A : Type} (d : A) (o : option A) : A :=
  match o with Some v => v | None => d end.

(** The browser side of one call: whether the 2D context is there, whether
    [createImageBitmap] resolves, and what encoding the drawn canvas at a
    given type and quality gives ([None]: the promise rejects). *)
Record Canvas : Type := mkCanvas {
  getContext : bool;
  createImageBitmap : bool;
  canvasToBlob : MimeType -> Q -> option Blob
}.

Inductive EncodeError : Type :=
| NoContext                 (* Could not get canvas context *)
| BitmapFailed              (* rejection of createImageBitmap *)
| ToBlobFailed              (* toBlob failed *)
| SizeExceeded (kb : Q).    (* Unable to compress under ... KB *)

(** How a computation ends; [Diverged] is a loop that outlives its fuel. *)
Inductive ending (A : Type) : Type :=
| Finished (a : A)
| Raised (e : EncodeError)
| Diverged.
Arguments Finished {A} a.
Arguments Raised {A} e.
Arguments Diverged {A}.

(** One encode attempt: the type and quality asked for. *)
Definition Attempt : Type := (MimeType * Q)%type.

(** Computations that log their encode attempts. *)
Definition Enc (A : Type) : Type := list Attempt -> ending A * list Attempt.

Definition enc_ret {A : Type} (a : A) : Enc A := fun log => (Finished a, log).

Definition throw {A : Type} (e : EncodeError) : Enc A :=
  fun log => (Raised e, log).

Definition enc_bind {A B : Type} (m : Enc A) (f : A -> Enc B) : Enc B :=
  fun log =>
    match m log with
    | (Finished a, log') => f a log'
    | (Raised e, log') => (Raised e, log')
    | (Diverged, log') => (Diverged, log')
    end.

(** [try { m } catch (e) { handler e }]. *)
Definition try_catch {A : Type} (m : Enc A) (handler : EncodeError -> Enc A)
  : Enc A :=
  fun log =>
    match m log with
    | (Raised e, log') => handler e log'
    | other => other
    end.

Notation "v <- m ;; k" := (enc_bind m (fun v => k))
  (at level 61, m at next level, right associativity).

Notation "' p <- m ;; k" := (enc_bind m (fun v => let p := v in k))
  (at level 61, p pattern, m at next level, right associativity).

(** [await canvasToBlob(type, quality)]. *)
Definition encode (cv : Canvas) (type : MimeType) (quality : Q) : Enc Blob :=
  fun log =>
    match canvasToBlob cv type quality with
    | Some b => (Finished b, log ++ [(type, quality)])
    | None => (Raised ToBlobFailed, log ++ [(type, quality)])
    end.

(** [blob.size > maxBytes]. *)
Definition over (b : Blob) (maxBytes : Q) : bool :=
  Js.gtb (inject_Z (Z.of_N (size b))) maxBytes.

(** The two quality loops have one shape:
    [while (blob.size > maxBytes && quality > floor) {
       quality = Math.max(floor, quality - step);
       blob = await canvasToBlob(type, quality); }]
    with [(floor, step)] the options [(minQuality, qualityStep)] for JPEG and
    the constants [(0.25, 0.12)] for WebP. *)
Fixpoint qualityLoop (cv : Canvas) (type : MimeType) (maxBytes floor step : Q)
         (fuel : nat) (quality : Q) (blob : Blob) : Enc (Q * Blob) :=
  if over blob maxBytes && Js.gtb quality floor then
    match fuel with
    | O => fun log => (Diverged, log)
    | S f =>
        let quality' := Js.Math_max floor (quality - step) in
        blob' <- encode cv type quality' ;;
        qualityLoop cv type maxBytes floor step f quality' blob'
    end
  else enc_ret (quality, blob).

(** The object returned on success. *)
Record Encoded : Type := mkEncoded {
  blob : Blob;
  format : MimeType;
  width : Q;
  height : Q;
  sizeBytes : N
}.

(** The WebP fallback, the body of
    [if (blob.size > maxBytes && webpFallback) { try { ... } catch ... }]:
    gives the blob and format to go on with. *)
Definition webpFallbackBlock (cv : Canvas) (maxBytes : Q) (fuel : nat)
           (blob : Blob) (format : MimeType) : Enc (Blob * MimeType) :=
  try_catch
    (let wQuality := 0.9 in
     webpBlob <- encode cv ImageWebp wQuality ;;
     ' (_, webpBlob) <-
         qualityLoop cv ImageWebp maxBytes 0.25 0.12 fuel wQuality webpBlob ;;
     if Js.leb (inject_Z (Z.of_N (size webpBlob))) maxBytes
     then enc_ret (webpBlob, ImageWebp)
     else enc_ret (blob, format))
    (fun _ => enc_ret (blob, format)).

(** [cropResizeToBlob(source, bbox, opts)].  Cropping and drawing decide
    what the canvas encodes to, which is what [cv] records; they do not
    otherwise bear on the control flow. *)
Definition cropResizeToBlob (cv : Canvas) (opts : Opts) (fuel : nat)
  : Enc Encoded :=
  let targetSize := default 128 (opt_targetSize opts) in
  let maxBytes := default (300 * 1024) (opt_maxBytes opts) in
  let qualityStart := default 0.9 (opt_qualityStart opts) in
  let qualityStep := default 0.08 (opt_qualityStep opts) in
  let minQuality := default 0.25 (opt_minQuality opts) in
  let webpFallback := default true (opt_webpFallback opts) in
  if negb (getContext cv) then throw NoContext
  else if negb (createImageBitmap cv) then throw BitmapFailed
  else
    let quality := qualityStart in
    blob <- encode cv ImageJpeg quality ;;
    ' (_, blob) <-
        qualityLoop cv ImageJpeg maxBytes minQuality qualityStep
                    fuel quality blob ;;
    let format := ImageJpeg in
    ' (blob, format) <-
        (if over blob maxBytes && webpFallback
         then webpFallbackBlock cv maxBytes fuel blob format
         else enc_ret (blob, format)) ;;
    if over blob maxBytes then throw (SizeExceeded (maxBytes / 1024))
    else enc_ret (mkEncoded blob format targetSize targetSize (size blob)).

(** The number of attempts of one type in a log. *)
Definition attempts (type : MimeType) (log : list Attempt) : nat :=
  length (filter (fun a => mime_eqb (fst a) type) log).

(** *** Vocabulary for the properties *)

(** An attempt of the log gave this blob. *)
Definition produced (cv : Canvas) (log : list Attempt) (t : MimeType) (b : Blob)
  : Prop :=
  exists q, In (t, q) log /\ canvasToBlob cv t q = Some b.

(** An attempt of the log was rejected. *)
Definition rejected (cv : Canvas) (log : list Attempt) (t : MimeType) : Prop :=
  exists q, In (t, q) log /\ canvasToBlob cv t q = None.

(** A canvas that encodes to 400000 bytes whatever the type and quality. *)
Definition heavy_canvas : Canvas :=
  mkCanvas true true (fun _ _ => Some (mkBlob 400000 0)).

End Encoder.


(** ** cropResizeToBlob, the quality in doubles

    The quality search computes with the quality:
    [quality = Math.max(minQuality, quality - qualityStep)].  How many
    rounds it takes, and whether it ends, depends on the rounding of that
    subtraction, so here the three quality options and the qualities of the
    attempts are doubles ([float], binary64) and [-], [>] and [Math.max] are
    those of doubles.  The budget and the sizes are only compared and handed
    on: a finite double is a rational, and they stay in [Q] as in
    [Encoder], whose types for blobs, formats, errors and endings are used
    here. *)

Module Encoder64.

Import PrimFloat.
Import Encoder.
Local Open Scope float_scope.

(** [Math.max(a, b)] on two doubles: NaN when either is NaN, and [+0] counts
    as larger than [-0]. *)
Definition Math_max64 (a b : float) : float :=
  if (is_nan a || is_nan b)%bool then nan
  else if ltb a b then b
  else if ltb b a then a
  else if get_sign a then b else a.

(** [Partial<{...}>]: every option may be absent. *)
Record Opts64 : Type := mkOpts64 {
  targetSize64 : option Q;
  maxBytes64 : option Q;
  qualityStart64 : option float;
  qualityStep64 : option float;
  minQuality64 : option float;
  webpFallback64 : option bool
}.

Definition no_opts64 : Opts64 := mkOpts64 None None None None None None.

(** The browser side of one call: whether the 2D context is there, whether
    [createImageBitmap] resolves, and what encoding the drawn canvas at a
    given type and quality gives ([None]: the promise rejects). *)
Record Canvas64 : Type := mkCanvas64 {
  getContext64 : bool;
  createImageBitmap64 : bool;
  canvasToBlob64 : MimeType -> float -> option Blob
}.

(** One encode attempt: the type and quality asked for. *)
Definition Attempt64 : Type := (MimeType * float)%type.

(** Computations that log their encode attempts. *)
Definition Enc64 (A : Type) : Type :=
  list Attempt64 -> ending A * list Attempt64.

Definition ret64 {A : Type} (a : A) : Enc64 A := fun log => (Finished a, log).

Definition throw64 {A : Type} (e : EncodeError) : Enc64 A :=
  fun log => (Raised e, log).

Definition bind64 {A B : Type} (m : Enc64 A) (f : A -> Enc64 B) : Enc64 B :=
  fun log =>
    match m log with
    | (Finished a, log') => f a log'
    | (Raised e, log') => (Raised e, log')
    | (Diverged, log') => (Diverged, log')
    end.

(** [try { m } catch (e) { handler e }]. *)
Definition try_catch64 {A : Type} (m : Enc64 A)
           (handler : EncodeError -> Enc64 A) : Enc64 A :=
  fun log =>
    match m log with
    | (Raised e, log') => handler e log'
    | other => other
    end.

Local Notation "v <~ m ;; k" := (bind64 m (fun v => k))
  (at level 61, m at next level, right associativity).

Local Notation "' p <~ m ;; k" := (bind64 m (fun v => let p := v in k))
  (at level 61, p pattern, m at next level, right associativity).

(** [await canvasToBlob(type, quality)]. *)
Definition encode64 (cv : Canvas64) (type : MimeType) (quality : float)
  : Enc64 Blob :=
  fun log =>
    match canvasToBlob64 cv type quality with
    | Some b => (Finished b, log ++ [(type, quality)])
    | None => (Raised ToBlobFailed, log ++ [(type, quality)])
    end.

(** The two quality loops have one shape:
    [while (blob.size > maxBytes && quality > floor) {
       quality = Math.max(floor, quality - step);
       blob = await canvasToBlob(type, quality); }]
    with [(floor, step)] the options [(minQuality, qualityStep)] for JPEG and
    the constants [(0.25, 0.12)] for WebP. *)
Fixpoint qualityLoop64 (cv : Canvas64) (type : MimeType) (maxBytes : Q)
         (floor step : float) (fuel : nat) (quality : float) (blob : Blob)
  : Enc64 (float * Blob) :=
  if (over blob maxBytes && ltb floor quality)%bool then
    match fuel with
    | O => fun log => (Diverged, log)
    | S f =>
        let quality' := Math_max64 floor (quality - step) in
        blob' <~ encode64 cv type quality' ;;
        qualityLoop64 cv type maxBytes floor step f quality' blob'
    end
  else ret64 (quality, blob).

(** The WebP fallback, the body of
    [if (blob.size > maxBytes && webpFallback) { try { ... } catch ... }]:
    gives the blob and format to go on with. *)
Definition webpFallbackBlock64 (cv : Canvas64) (maxBytes : Q) (fuel : nat)
           (blob : Blob) (format : MimeType) : Enc64 (Blob * MimeType) :=
  try_catch64
    (let wQuality := 0.9 in
     webpBlob <~ encode64 cv ImageWebp wQuality ;;
     ' (_, webpBlob) <~
         qualityLoop64 cv ImageWebp maxBytes 0.25 0.12 fuel wQuality
                       webpBlob ;;
     if Js.leb (inject_Z (Z.of_N (size webpBlob))) maxBytes
     then ret64 (webpBlob, ImageWebp)
     else ret64 (blob, format))
    (fun _ => ret64 (blob, format)).

(** [cropResizeToBlob(source, bbox, opts)].  Cropping and drawing decide
    what the canvas encodes to, which is what [cv] records; they do not
    otherwise bear on the control flow. *)
Definition cropResizeToBlob64 (cv : Canvas64) (opts : Opts64) (fuel : nat)
  : Enc64 Encoded :=
  let targetSize := default 128%Q (targetSize64 opts) in
  let maxBytes := default (300 * 1024)%Q (maxBytes64 opts) in
  let qualityStart := default 0.9 (qualityStart64 opts) in
  let qualityStep := default 0.08 (qualityStep64 opts) in
  let minQuality := default 0.25 (minQuality64 opts) in
  let webpFallback := default true (webpFallback64 opts) in
  if negb (getContext64 cv) then throw64 NoContext
  else if negb (createImageBitmap64 cv) then throw64 BitmapFailed
  else
    let quality := qualityStart in
    blob <~ encode64 cv ImageJpeg quality ;;
    ' (_, blob) <~
        qualityLoop64 cv ImageJpeg maxBytes minQuality qualityStep
                      fuel quality blob ;;
    let format := ImageJpeg in
    ' (blob, format) <~
        (if (over blob maxBytes && webpFallback)%bool
         then webpFallbackBlock64 cv maxBytes fuel blob format
         else ret64 (blob, format)) ;;
    if over blob maxBytes then throw64 (SizeExceeded (maxBytes / 1024)%Q)
    else ret64 (mkEncoded blob format targetSize targetSize (size blob)).

(** The number of attempts of one type in a log. *)
Definition attempts64 (type : MimeType) (log : list Attempt64) : nat :=
  length (filter (fun a => mime_eqb (fst a) type) log).

(** *** Vocabulary for the properties *)

(** An attempt of the log gave this blob. *)
Definition produced64 (cv : Canvas64) (log : list Attempt64) (t : MimeType)
           (b : Blob) : Prop :=
  exists q, In (t, q) log /\ canvasToBlob64 cv t q = Some b.

(** An attempt of the log was rejected. *)
Definition rejected64 (cv : Canvas64) (log : list Attempt64) (t : MimeType)
  : Prop :=
  exists q, In (t, q) log /\ canvasToBlob64 cv t q = None.

(** The descent of the quality alone,
    [quality, Math.max(floor, quality - step), ...]: whether within [k]
    rounds it comes to a quality that is not above the floor. *)
Fixpoint settles (floor step : float) (k : nat) (quality : float) : bool :=
  if ltb floor quality then
    match k with
    | O => false
    | S k' => settles floor step k' (Math_max64 floor (quality - step))
    end
  else true.

(** A canvas that encodes to 400000 bytes whatever the type and quality. *)
Definition heavy_canvas64 : Canvas64 :=
  mkCanvas64 true true (fun _ _ => Some (mkBlob 400000 0)).

(** A canvas that encodes to 400000 bytes above quality 0.75 and to 296000
    bytes from there down, in either format. *)
Definition stepped_canvas64 : Canvas64 :=
  mkCanvas64 true true
    (fun _ q => Some (mkBlob (if ltb 0.75 q then 400000 else 296000) 0)).

(** A canvas whose [toBlob] gives no blob. *)
Definition deaf_canvas64 : Canvas64 :=
  mkCanvas64 true true (fun _ _ => None).

(** Options with the three qualities given. *)
Definition qualities (start step floor : float) : Opts64 :=
  mkOpts64 None None (Some start) (Some step) (Some floor) None.

End Encoder64.
(** ** App.tsx: captureAndProcess *)

Module Orchestrator.

Import Detection.
Import String.
Import List.
Import ListNotations.

Definition string : Type := String.string.

(** [AppStatus] of [./types], by the members the component uses. *)
Inductive AppStatus : Type :=
| Initializing
| Idle
| Detecting
| Uploading
| Error.

Record ChatMessage : Type := mkMessage {
  id : string; text : string; timestamp : string
}.

(** [EmotionData] of [./types]: a label with its score. *)
Record EmotionData : Type := mkEmotion { label : string; score_ : Q }.

(** A thrown or rejected value: [undefined] or [null], of which no property
    can be read; or any other value, by its [message] ([None]: it has
    none). *)
Inductive JsError : Type :=
| Nullish
| mkError (message : option string).

(** The TypeError of reading a property of [undefined] or [null]; the text
    is the engine's. *)
Definition type_error : JsError :=
  mkError (Some "Cannot read properties of undefined"%string).

(** [m || fallback]: an absent or empty message is falsy. *)
Definition message_or (m : option string) (fallback : string) : string :=
  match m with
  | Some m => if String.eqb m EmptyString then fallback else m
  | None => fallback
  end.

(** The component state the callback reads and writes: the ref
    [isUploadingRef.current] and the [useState] cells. *)
Record AppState : Type := mkState {
  isUploadingRef : bool;
  status : AppStatus;
  error : option string;
  emotions : option (list EmotionData);
  lastUpload : option string;
  messages : list ChatMessage;
  isStarting : bool
}.

(** The state of a freshly mounted component. *)
Definition initial_state : AppState :=
  mkState false Initializing None None None [] false.

(** How a block of the callback ends. *)
Inductive completion (A : Type) : Type :=
| Normal (a : A)
| Return              (* a [return;] statement was executed *)
| Throw (e : JsError).
Arguments Normal {A} a.
Arguments Return {A}.
Arguments Throw {A} e.

Definition M (A : Type) : Type := AppState -> completion A * AppState.

Definition ret {A : Type} (a : A) : M A := fun s => (Normal a, s).

Definition return_ {A : Type} : M A := fun s => (Return, s).

Definition bind {A B : Type} (m : M A) (f : A -> M B) : M B :=
  fun s =>
    match m s with
    | (Normal a, s') => f a s'
    | (Return, s') => (Return, s')
    | (Throw e, s') => (Throw e, s')
    end.

Notation "v <- m ;; k" := (bind m (fun v => k))
  (at level 61, m at next level, right associativity).
Notation "m ;; k" := (bind m (fun _ => k))
  (at level 61, right associativity).

(** [try { body } catch (e) { handler e } finally { final }]. *)
Definition try_catch_finally {A : Type} (body : M A) (handler : JsError -> M A)
           (final : M unit) : M A :=
  fun s =>
    let '(c1, s1) := body s in
    let '(c2, s2) := match c1 with
                     | Throw e => handler e s1
                     | _ => (c1, s1)
                     end in
    match final s2 with
    | (Normal _, s3) => (c2, s3)
    | (Return, s3) => (Return, s3)
    | (Throw e, s3) => (Throw e, s3)
    end.

(** The outcome of an awaited promise. *)
Inductive result (A : Type) : Type :=
| Resolved (a : A)
| Rejected (e : JsError).
Arguments Resolved {A} a.
Arguments Rejected {A} e.

Definition await {A : Type} (r : result A) : M A :=
  fun s => match r with
           | Resolved a => (Normal a, s)
           | Rejected e => (Throw e, s)
           end.

(** The writes. *)
Definition set_isUploadingRef (b : bool) : M unit :=
  fun s => (Normal tt,
            mkState b (status s) (error s) (emotions s) (lastUpload s)
                    (messages s) (isStarting s)).

Definition setStatus (v : AppStatus) : M unit :=
  fun s => (Normal tt,
            mkState (isUploadingRef s) v (error s) (emotions s) (lastUpload s)
                    (messages s) (isStarting s)).

Definition setError (v : option string) : M unit :=
  fun s => (Normal tt,
            mkState (isUploadingRef s) (status s) v (emotions s) (lastUpload s)
                    (messages s) (isStarting s)).

Definition setEmotions (v : option (list EmotionData)) : M unit :=
  fun s => (Normal tt,
            mkState (isUploadingRef s) (status s) (error s) v (lastUpload s)
                    (messages s) (isStarting s)).

Definition setLastUpload (v : option string) : M unit :=
  fun s => (Normal tt,
            mkState (isUploadingRef s) (status s) (error s) (emotions s) v
                    (messages s) (isStarting s)).

Definition setMessages (f : list ChatMessage -> list ChatMessage) : M unit :=
  fun s => (Normal tt,
            mkState (isUploadingRef s) (status s) (error s) (emotions s)
                    (lastUpload s) (f (messages s)) (isStarting s)).

Definition setIsStarting (v : bool) : M unit :=
  fun s => (Normal tt,
            mkState (isUploadingRef s) (status s) (error s) (emotions s)
                    (lastUpload s) (messages s) v).

(** [e.message]: on [undefined] and [null] the read throws. *)
Definition get_message (e : JsError) : M (option string) :=
  fun s =>
    match e with
    | Nullish => (Throw type_error, s)
    | mkError m => (Normal m, s)
    end.

(** *** What the page and the services give back in one cycle *)

Record Video : Type := mkVideo {
  offsetHeight : Z; offsetWidth : Z; readyState : Z
}.

(** An [ImageBitmap], by an identifier. *)
Definition Source : Type := nat.

(** An encoded face, by its size. *)
Definition FaceBlob : Type := N.

(** A detection with its ranking score, [{ ...b, score }]. *)
Record Scored : Type := mkScored { box : BoundingBox; score : Q }.

Record Metadata : Type := mkMetadata {
  index : nat; bbox : list Q; meta_confidence : Q
}.

Record ProcessedFace : Type := mkFace {
  face_blob : FaceBlob; metadata : Metadata
}.

Record AnalysisResult : Type := mkAnalysis {
  top3_aggregate : list EmotionData;
  gemini_feedback : option string
}.

Record CycleEnv : Type := mkEnv {
  videos : list Video;
  createImageBitmap : Video -> result Source;
  detectFaces : Source -> result (list BoundingBox);
  cropResizeToBlob : Source -> Scored -> result FaceBlob;
  analyzeFaces : list ProcessedFace -> string -> result AnalysisResult;
  toLocaleTimeString : string;
  randomUUID : string
}.

(** [videos.reduce((prev, current) => area prev > area current ? prev
    : current)], on a non-empty array. *)
Definition largest (vs : list Video) : option Video :=
  match vs with
  | [] => None
  | v :: rest =>
      Some (fold_left
              (fun prev current =>
                 if (offsetHeight current * offsetWidth current
                     <? offsetHeight prev * offsetWidth prev)%Z
                 then prev else current)
              rest v)
  end.

Definition by_score_desc (a b : Scored) : Q := score b - score a.

(** [bboxes.map(...).sort(...).slice(0, 8)]. *)
Definition sortedDetections (bboxes : list BoundingBox) : list Scored :=
  firstn 8
    (Js.Array_sort by_score_desc
       (map (fun b => mkScored b (confidence b * (w b * h b))) bboxes)).

(** One face of [faceProcessingPromises]: its own [try]/[catch] turns a
    failed encode into [null]. *)
Definition processFace (env : CycleEnv) (source : Source)
           (entry : nat * Scored) : option ProcessedFace :=
  let '(idx, sb) := entry in
  match cropResizeToBlob env source sb with
  | Resolved blob =>
      Some (mkFace blob
              (mkMetadata idx
                 [x (box sb); y (box sb); w (box sb); h (box sb)]
                 (confidence (box sb))))
  | Rejected _ => None
  end.

(** [(await Promise.all(faceProcessingPromises)).filter(f => f !== null)]. *)
Definition processedFaces (env : CycleEnv) (source : Source)
           (dets : list Scored) : list ProcessedFace :=
  flat_map (fun entry => match processFace env source entry with
                         | Some f => [f]
                         | None => []
                         end)
           (combine (seq 0 (length dets)) dets).

(** The body of the [try] block. *)
Definition cycle_body (env : CycleEnv) (contextText : string)
           (isStartingNow : bool) : M unit :=
  setError None ;;
  set_isUploadingRef true ;;
  match largest (videos env) with
  | None => set_isUploadingRef false ;; return_
  | Some videoElement =>
      if (readyState videoElement <? 2)%Z
      then set_isUploadingRef false ;; return_
      else
        source <- await (createImageBitmap env videoElement) ;;
        setStatus Detecting ;;
        bboxes <- await (detectFaces env source) ;;
        if (length bboxes =? 0)%nat
        then setStatus Idle ;; set_isUploadingRef false ;; return_
        else
          let faces := processedFaces env source (sortedDetections bboxes) in
          if (length faces =? 0)%nat
          then setStatus Idle ;; set_isUploadingRef false ;; return_
          else
            setStatus Uploading ;;
            result <- await (analyzeFaces env faces contextText) ;;
            setEmotions (Some (top3_aggregate result)) ;;
            setLastUpload (Some (toLocaleTimeString env)) ;;
            let text := match gemini_feedback result with
                        | Some t => t
                        | None => "No feedback returned."%string
                        end in
            setMessages (fun prev =>
              prev ++ [mkMessage (randomUUID env) text
                                 (toLocaleTimeString env)]) ;;
            setStatus Idle ;;
            (if isStartingNow then setIsStarting false else ret tt)
  end.

(** The [catch (e)] block.  [e.message] is read first: an exception there
    leaves the block before any of its writes. *)
Definition cycle_catch (isStartingNow : bool) (e : JsError) : M unit :=
  m <- get_message e ;;
  setError (Some (message_or m "An unknown error occurred."%string)) ;;
  setEmotions None ;;
  setStatus Error ;;
  (if isStartingNow then setIsStarting false else ret tt).

(** [captureAndProcess], for the [contextText] and [isStarting] its closure
    captured. *)
Definition captureAndProcess (env : CycleEnv) (contextText : string)
           (isStartingNow : bool) : M unit :=
  fun s =>
    if isUploadingRef s then (Return, s)
    else
      try_catch_finally (cycle_body env contextText isStartingNow)
                        (cycle_catch isStartingNow)
                        (set_isUploadingRef false) s.

(** What one tick of the loop brings: the outside world of that cycle, and
    the [contextText] and [isStarting] captured by the callback it calls. *)
Record Tick : Type := mkTick {
  tick_env : CycleEnv;
  tick_context : string;
  tick_isStarting : bool
}.

(** One awaited call of [captureAndProcess], as in [captureLoop], whose own
    [try]/[catch] around the call only logs what the call throws. *)
Definition cycle (s : AppState) (t : Tick) : AppState :=
  snd (captureAndProcess (tick_env t) (tick_context t) (tick_isStarting t) s).

(** Consecutive cycles, each awaited before the next: the state before the
    first cycle and after each one. *)
Fixpoint trace (ticks : list Tick) (s : AppState) : list AppState :=
  match ticks with
  | [] => [s]
  | t :: rest => s :: trace rest (cycle s t)
  end.

(** The exit a cycle takes. *)
Inductive Exit : Type :=
| BusySkip
| NoVideo
| NoFaces
| NoEncodedFaces
| Uploaded
| Errored.

Definition exit_of (env : CycleEnv) (contextText : string) (s : AppState)
  : Exit :=
  if isUploadingRef s then BusySkip
  else
    match largest (videos env) with
    | None => NoVideo
    | Some v =>
        if (readyState v <? 2)%Z then NoVideo
        else
          match createImageBitmap env v with
          | Rejected _ => Errored
          | Resolved source =>
              match detectFaces env source with
              | Rejected _ => Errored
              | Resolved bboxes =>
                  if (length bboxes =? 0)%nat then NoFaces
                  else
                    let faces :=
                      processedFaces env source (sortedDetections bboxes) in
                    if (length faces =? 0)%nat then NoEncodedFaces
                    else
                      match analyzeFaces env faces contextText with
                      | Rejected _ => Errored
                      | Resolved _ => Uploaded
                      end
              end
          end
    end.

(** The value the [catch] block is entered with, if it is entered. *)
Definition caught (env : CycleEnv) (contextText : string) (s : AppState)
  : option JsError :=
  if isUploadingRef s then None
  else
    match largest (videos env) with
    | None => None
    | Some v =>
        if (readyState v <? 2)%Z then None
        else
          match createImageBitmap env v with
          | Rejected e => Some e
          | Resolved source =>
              match detectFaces env source with
              | Rejected e => Some e
              | Resolved bboxes =>
                  if (length bboxes =? 0)%nat then None
                  else
                    let faces :=
                      processedFaces env source (sortedDetections bboxes) in
                    if (length faces =? 0)%nat then None
                    else
                      match analyzeFaces env faces contextText with
                      | Rejected e => Some e
                      | Resolved _ => None
                      end
              end
          end
    end.

(** *** The same callback between its suspension points

    The callback is an [async] function: it runs without interruption up
    to an [await], and other callbacks may run before it is resumed.
    [Pending] says at which [await] a call is suspended and which local
    values it holds there. *)

Inductive Pending : Type :=
| AwaitBitmap (videoElement : Video)
| AwaitDetect (source : Source)
| AwaitFaces (source : Source) (dets : list Scored)
| AwaitUpload (faces : list ProcessedFace).

(** From the entry of the [try] block to the first [await]. *)
Definition segment_start (env : CycleEnv) : M (option Pending) :=
  setError None ;;
  set_isUploadingRef true ;;
  match largest (videos env) with
  | None => set_isUploadingRef false ;; return_
  | Some videoElement =>
      if (readyState videoElement <? 2)%Z
      then set_isUploadingRef false ;; return_
      else ret (Some (AwaitBitmap videoElement))
  end.

(** From one [await], answered by [env], to the next, or to the end of the
    [try] block ([None]). *)
Definition segment (env : CycleEnv) (contextText : string)
           (isStartingNow : bool) (p : Pending) : M (option Pending) :=
  match p with
  | AwaitBitmap videoElement =>
      source <- await (createImageBitmap env videoElement) ;;
      setStatus Detecting ;;
      ret (Some (AwaitDetect source))
  | AwaitDetect source =>
      bboxes <- await (detectFaces env source) ;;
      if (length bboxes =? 0)%nat
      then setStatus Idle ;; set_isUploadingRef false ;; return_
      else ret (Some (AwaitFaces source (sortedDetections bboxes)))
  | AwaitFaces source dets =>
      let faces := processedFaces env source dets in
      if (length faces =? 0)%nat
      then setStatus Idle ;; set_isUploadingRef false ;; return_
      else setStatus Uploading ;; ret (Some (AwaitUpload faces))
  | AwaitUpload faces =>
      result <- await (analyzeFaces env faces contextText) ;;
      setEmotions (Some (top3_aggregate result)) ;;
      setLastUpload (Some (toLocaleTimeString env)) ;;
      let text := match gemini_feedback result with
                  | Some t => t
                  | None => "No feedback returned."%string
                  end in
      setMessages (fun prev =>
        prev ++ [mkMessage (randomUUID env) text (toLocaleTimeString env)]) ;;
      setStatus Idle ;;
      (if isStartingNow then setIsStarting false else ret tt) ;;
      ret None
  end.

(** A segment run inside the [try]: a call that reaches an [await] stays in
    flight; otherwise the [catch] block (on an exception) and the [finally]
    block run and the call is over. *)
Definition advance (isStartingNow : bool) (seg : M (option Pending))
           (s : AppState) : AppState * option Pending :=
  match seg s with
  | (Normal (Some p), s') => (s', Some p)
  | (Normal None, s') =>
      (snd (try_catch_finally (ret tt) (cycle_catch isStartingNow)
                              (set_isUploadingRef false) s'), None)
  | (Return, s') =>
      (snd (try_catch_finally return_ (cycle_catch isStartingNow)
                              (set_isUploadingRef false) s'), None)
  | (Throw e, s') =>
      (snd (try_catch_finally (fun s1 => (Throw e, s1))
                              (cycle_catch isStartingNow)
                              (set_isUploadingRef false) s'), None)
  end.

(** A call of the callback, up to its first [await] or its end. *)
Definition call_start (env : CycleEnv) (isStartingNow : bool) (s : AppState)
  : AppState * option Pending :=
  if isUploadingRef s then (s, None)
  else advance isStartingNow (segment_start env) s.

(** A suspended call resumed with the answer [env] gives to its [await]. *)
Definition call_resume (env : CycleEnv) (contextText : string)
           (isStartingNow : bool) (p : Pending) (s : AppState)
  : AppState * option Pending :=
  advance isStartingNow (segment env contextText isStartingNow p) s.

(** A call run to its end with every [await] answered at once by the same
    [env]; a call passes at most four suspension points. *)
Fixpoint drive (fuel : nat) (env : CycleEnv) (contextText : string)
         (isStartingNow : bool) (r : AppState * option Pending) : AppState :=
  match r, fuel with
  | (s, None), _ => s
  | (s, Some _), O => s
  | (s, Some p), S f =>
      drive f env contextText isStartingNow
            (call_resume env contextText isStartingNow p s)
  end.

(** A call in flight: where it is suspended, and the [contextText] and
    [isStarting] of its closure. *)
Record Flight : Type := mkFlight {
  flight_pending : Pending;
  flight_context : string;
  flight_isStarting : bool
}.

(** The component with the calls in flight. *)
Record World : Type := mkWorld { app : AppState; flights : list Flight }.

Definition land (s : AppState) (ctx : string) (st : bool)
           (r : AppState * option Pending) (others : list Flight) : World :=
  match r with
  | (s', None) => mkWorld s' others
  | (s', Some p) => mkWorld s' (mkFlight p ctx st :: others)
  end.

(** The interleavings: at any moment a new call may start, or any call in
    flight may be resumed with whatever the outside world answers. *)
Inductive step : World -> World -> Prop :=
| step_call env ctx st s fl :
    step (mkWorld s fl)
         (land s ctx st (call_start env st s) fl)
| step_resume env s before f after :
    step (mkWorld s (before ++ f :: after))
         (land s (flight_context f) (flight_isStarting f)
               (call_resume env (flight_context f) (flight_isStarting f)
                            (flight_pending f) s)
               (before ++ after)).

Inductive reachable : World -> Prop :=
| reach_init : reachable (mkWorld initial_state [])
| reach_step w w' : reachable w -> step w w' -> reachable w'.

(** The guard is set exactly while one call is in flight. *)
Definition guard_held_by_one (w : World) : Prop :=
  (isUploadingRef (app w) = true /\ length (flights w) = 1%nat)
  \/ (isUploadingRef (app w) = false /\ flights w = []).

(** *** Sample worlds, one for each exit *)

Definition a_video : Video := mkVideo 480 640 4.
Definition a_box : BoundingBox := mkBox 10 10 50 50 0.9.
Definition some_context : string := "lecture on graphs"%string.
Definition boom : JsError := mkError (Some "boom"%string).

Definition world (vs : list Video) (boxes : result (list BoundingBox))
           (enc : result FaceBlob) (up : result AnalysisResult) : CycleEnv :=
  mkEnv vs (fun _ => Resolved 0%nat) (fun _ => boxes) (fun _ _ => enc)
        (fun _ _ => up) "10:00:00"%string "uuid"%string.

Definition good_upload : result AnalysisResult :=
  Resolved (mkAnalysis [mkEmotion "happy"%string 0.8] None).

Definition world_no_video : CycleEnv :=
  world [] (Resolved [a_box]) (Resolved 1000%N) good_upload.
Definition world_no_faces : CycleEnv :=
  world [a_video] (Resolved []) (Resolved 1000%N) good_upload.
Definition world_detector_throws : CycleEnv :=
  world [a_video] (Rejected boom) (Resolved 1000%N) good_upload.
Definition world_no_encoded : CycleEnv :=
  world [a_video] (Resolved [a_box]) (Rejected boom) good_upload.
Definition world_upload_fails : CycleEnv :=
  world [a_video] (Resolved [a_box]) (Resolved 1000%N) (Rejected boom).
Definition world_uploads : CycleEnv :=
  world [a_video] (Resolved [a_box]) (Resolved 1000%N) good_upload.
(** The detector rejects with [undefined]. *)
Definition world_detector_rejects_undefined : CycleEnv :=
  world [a_video] (Rejected Nullish) (Resolved 1000%N) good_upload.

End Orchestrator.

(** ** detectionService.ts: the input tensor of detectFaces *)

Module Preprocess.

Import Detection.

(** The three arrays [red], [green] and [blue]. *)
Record Planes : Type := mkPlanes {
  red : list Q; green : list Q; blue : list Q
}.

(** [data[k] / 255] on the [Uint8ClampedArray] of the image data; [None]
    stands for the NaN that a read past the end gives. *)
Definition channelAt (data : list Z) (k : nat) : option Q :=
  option_map (fun v => inject_Z v / 255) (nth_error data k).

(** [for (let i = 0; i < data.length; i += 4) { red.push(data[i] / 255);
    green.push(data[i + 1] / 255); blue.push(data[i + 2] / 255); }]:
    round [p] of the loop reads at [i = 4 * p]. *)
Definition pixelLoop (data : list Z) : option Planes :=
  Js.for_upto ((length data + 3) / 4)
    (fun p acc =>
       obind acc (fun pl =>
       obind (channelAt data (4 * p)) (fun r =>
       obind (channelAt data (4 * p + 1)) (fun g =>
       obind (channelAt data (4 * p + 2)) (fun b =>
         Some (mkPlanes (red pl ++ [r]) (green pl ++ [g])
                        (blue pl ++ [b])))))))
    (Some (mkPlanes [] [] [])).

(** [red.concat(green, blue)]. *)
Definition transposedData (data : list Z) : option (list Q) :=
  option_map (fun pl => red pl ++ green pl ++ blue pl) (pixelLoop data).

(** Channel [c] of the first [n] pixels, scaled. *)
Definition plane (data : list Z) (c n : nat) : list Q :=
  map (fun p => inject_Z (nth (4 * p + c) data 0%Z) / 255) (seq 0 n).

(** RGBA bytes of a two-pixel image. *)
Definition two_pixels : list Z := [255; 0; 128; 255; 0; 255; 51; 255]%Z.

End Preprocess.

(** ** cropResizeToBlob: the source square and the order of the attempts *)

Module Crop.

Import Encoder.




(** An attempt that was answered by a blob over the budget. *)
Definition over_budget (cv : Canvas) (maxBytes : Q) (a : Attempt) : Prop :=
  exists b, canvasToBlob cv (fst a) (snd a) = Some b /\ over b maxBytes = true.

(** The quality of an attempt lies between the floor and the start of its
    format: [minQuality] and [qualityStart] for JPEG, 0.25 and 0.9 for
    WebP. *)
Definition quality_ok (minQuality qualityStart : Q) (a : Attempt) : Prop :=
  match fst a with
  | ImageJpeg => minQuality <= snd a /\ snd a <= qualityStart
  | ImageWebp => 0.25 <= snd a /\ snd a <= 0.9
  end.


End Crop.

(** ** App.tsx: vocabulary for the faces of a cycle *)

Module Ranking.

Import Orchestrator.

(** Descending ranking score. *)
Definition score_ge (a b : Scored) : Prop := score b <= score a.

(** The size of the batch a suspended call holds: the ranked detections and
    the encoded faces number between one and eight. *)
Definition batch_ok (p : Pending) : Prop :=
  match p with
  | AwaitBitmap _ | AwaitDetect _ => True
  | AwaitFaces _ dets => (1 <= length dets <= 8)%nat
  | AwaitUpload faces => (1 <= length faces <= 8)%nat
  end.

End Ranking.

(** ** App.tsx and OverlayPanel.tsx: the switch, the mount effect *)

Module Shell.

Import Orchestrator.
Import String.
Import List.
Import ListNotations.

(** [status === AppStatus.Initializing]. *)
Definition is_Initializing (a : AppStatus) : bool :=
  match a with Initializing => true | _ => false end.

(** The state of the component with [isEnabled], which [captureAndProcess]
    does not touch. *)
Record Page : Type := mkPage { state : AppState; isEnabled : bool }.

(** The freshly mounted component. *)
Definition initial_page : Page := mkPage initial_state false.

(** [init] of the mount effect, for the outcome of
    [detectionService.initialize()]. *)
Definition init (initialize : result unit) : M unit :=
  try_catch_finally
    (await initialize ;; setStatus Idle)
    (fun _ =>
       setError (Some "Failed to load face detection model. Please refresh."
                      %string) ;;
       setStatus Error)
    (ret tt).

(** [handleToggle(enabled)], in the render whose [status] is the state's. *)
Definition handleToggle (enabled : bool) (p : Page) : Page :=
  if enabled && is_Initializing (status (state p)) then
    mkPage (snd (setError
                   (Some "Model is still initializing. Please wait a moment."
                         %string)
                   (state p)))
           (isEnabled p)
  else
    let s1 := if enabled then snd (setIsStarting true (state p))
              else state p in
    let s2 := if negb enabled
              then snd ((setStatus Idle ;; setError None ;;
                         setEmotions None ;; setIsStarting false) s1)
              else s1 in
    mkPage s2 enabled.

(** OverlayPanel: [handleToggleChange] and [handleSwitchKey], with
    [onToggle = handleToggle]. *)
Definition handleToggleChange (checked : bool) (p : Page) : Page :=
  if isStarting (state p) then p else handleToggle checked p.

Definition handleSwitchKey (key : string) (p : Page) : Page :=
  if isStarting (state p) then p
  else if (String.eqb key "Enter" || String.eqb key " ")%bool
       then handleToggle (negb (isEnabled p)) p
       else p.

(** What the user can do to the switch: change the checkbox, click the
    visible switch ([handleToggleChange(!isEnabled)]), press a key on it. *)
Inductive PanelEvent : Type :=
| Change (checked : bool)
| Click
| KeyDown (key : string).

Definition panel (ev : PanelEvent) (p : Page) : Page :=
  match ev with
  | Change checked => handleToggleChange checked p
  | Click => handleToggleChange (negb (isEnabled p)) p
  | KeyDown key => handleSwitchKey key p
  end.

(** What happens to the page between renders: a panel event, or one awaited
    call of [captureAndProcess] by the capture loop. *)
Inductive Event : Type :=
| Panel (ev : PanelEvent)
| Cycle (t : Tick).

Definition handle (p : Page) (ev : Event) : Page :=
  match ev with
  | Panel e => panel e p
  | Cycle t => mkPage (cycle (state p) t) (isEnabled p)
  end.

(** A cycle that neither uploads nor fails. *)
Definition quiet (p : Page) (ev : Event) : Prop :=
  match ev with
  | Panel _ => True
  | Cycle t =>
      exit_of (tick_env t) (tick_context t) (state p) <> Uploaded
      /\ exit_of (tick_env t) (tick_context t) (state p) <> Errored
  end.

(** The events of a list are all quiet, each at the page it meets. *)
Fixpoint all_quiet (p : Page) (evs : list Event) : Prop :=
  match evs with
  | [] => True
  | ev :: rest => quiet p ev /\ all_quiet (handle p ev) rest
  end.

(** The page with the calls of [captureAndProcess] in flight. *)
Record Live : Type := mkLive { page : Page; inflight : list Flight }.

(** Everything that can happen, in any order: a panel event, the end of
    [init], the warm-up [setStatus(Detecting)] of the capture loop, and a
    call of [captureAndProcess] started or resumed. *)
Inductive live_step : Live -> Live -> Prop :=
| live_panel ev p fl :
    live_step (mkLive p fl) (mkLive (panel ev p) fl)
| live_init r s e fl :
    live_step (mkLive (mkPage s e) fl)
              (mkLive (mkPage (snd (init r s)) e) fl)
| live_warmup s e fl :
    live_step (mkLive (mkPage s e) fl)
              (mkLive (mkPage (snd (setStatus Detecting s)) e) fl)
| live_call s e fl w' :
    step (mkWorld s fl) w' ->
    live_step (mkLive (mkPage s e) fl)
              (mkLive (mkPage (Orchestrator.app w') e) (flights w')).

Inductive live : Live -> Prop :=
| live_mount : live (mkLive initial_page [])
| live_next l l' : live l -> live_step l l' -> live l'.

(** The page once [init] has succeeded and capture has been switched on. *)
Definition switched_on : Page :=
  handleToggle true
    (mkPage (snd (init (Resolved tt) initial_state)) false).

(** A tick of the loop on a page without a video element. *)
Definition empty_room : Tick :=
  mkTick world_no_video some_context true.

(** The user works the switch while the loop finds no video. *)
Definition restless : list Event :=
  [Cycle empty_room; Panel Click; Panel (Change false); Cycle empty_room;
   Panel (KeyDown "Enter"%string)].

(** A call of [captureAndProcess] suspended with its faces sent for
    analysis: started and resumed three times on [world_uploads]. *)
Definition start_1 : AppState * option Pending :=
  call_start world_uploads true initial_state.

Definition resume_from (r : AppState * option Pending)
  : AppState * option Pending :=
  match snd r with
  | Some p => call_resume world_uploads some_context true p (fst r)
  | None => r
  end.

End Shell.

(** ** useDraggable.ts: the hook *)

Module Draggable.

Import PrimFloat.
Local Open Scope float_scope.

(** [{ x, y }], in doubles: the hook subtracts coordinates, and [-] below is
    the subtraction of binary64. *)
Record Point : Type := mkPoint { px : float; py : float }.

(** The hook's cells: the [position] state, [offsetRef.current],
    [isDraggingRef.current], and whether [document.body.style.userSelect]
    is ['none']. *)
Record Drag : Type := mkDrag {
  position : Point;
  offsetRef : Point;
  isDraggingRef : bool;
  selectionOff : bool
}.

(** The hook as mounted. *)
Definition mounted : Drag :=
  mkDrag (mkPoint 20 20) (mkPoint 0 0) false false.

(** [onMouseDown(e)]; [rect] is the top-left corner of
    [elementRef.current.getBoundingClientRect()], [None] when the ref is
    null. *)
Definition onMouseDown (client : Point) (rect : option Point) (d : Drag)
  : Drag :=
  match rect with
  | Some r =>
      mkDrag (position d)
             (mkPoint (px client - px r) (py client - py r))
             true true
  | None => d
  end.

(** [onMouseMove(e)]. *)
Definition onMouseMove (client : Point) (d : Drag) : Drag :=
  if isDraggingRef d then
    let newX := px client - px (offsetRef d) in
    let newY := py client - py (offsetRef d) in
    mkDrag (mkPoint newX newY) (offsetRef d) (isDraggingRef d)
           (selectionOff d)
  else d.

(** [onMouseUp()]. *)
Definition onMouseUp (d : Drag) : Drag :=
  mkDrag (position d) (offsetRef d) false false.

Inductive MouseEvent : Type :=
| MouseDown (client : Point) (rect : option Point)
| MouseMove (client : Point)
| MouseUp.

Definition dispatch (d : Drag) (ev : MouseEvent) : Drag :=
  match ev with
  | MouseDown client rect => onMouseDown client rect d
  | MouseMove client => onMouseMove client d
  | MouseUp => onMouseUp d
  end.

(** The events handled in order. *)
Definition dispatch_all (evs : list MouseEvent) (d : Drag) : Drag :=
  fold_left dispatch evs d.

(** The event starts no drag: it is not a press on the mounted element. *)
Definition no_press (ev : MouseEvent) : bool :=
  match ev with
  | MouseDown _ (Some _) => false
  | _ => true
  end.

End Draggable.

(** ** EmotionDisplay.tsx: the bars *)

Module Display.

Import String.
Import List.
Import ListNotations.

(** An entry of the [emotions] prop as it arrives: the label is [None] when
    missing ([e?.label ?? "unknown"]); the score is [None] when it is
    missing ([e?.score ?? 0]) or not a finite number
    ([Number.isFinite(raw) ? raw : 0]). *)
Record Incoming : Type := mkIncoming {
  in_label : option string;
  in_score : option Q
}.

(** An entry of [normalized], [{ label, score }]. *)
Record Bar : Type := mkBar { bar_label : string; bar_score : Q }.

(** The callback of the [map] in [normalized]. *)
Definition normalize (e : Incoming) : Bar :=
  let label := match in_label e with
               | Some l => l
               | None => "unknown"%string
               end in
  let raw := match in_score e with Some v => v | None => 0 end in
  let score := raw in
  let score := if Js.gtb score 1 && Js.leb score 100 then score / 100
               else score in
  let score := Js.Math_max 0 (Js.Math_min 1 score) in
  mkBar label score.

Definition by_bar_score_desc (a b : Bar) : Q := bar_score b - bar_score a.

(** [normalized]:
    [emotions.map(...).sort((a, b) => b.score - a.score).slice(0, maxShown)],
    and [[]] for an empty array. *)
Definition normalized (emotions : list Incoming) (maxShown : nat)
  : list Bar :=
  if (length emotions =? 0)%nat then []
  else firstn maxShown
         (Js.Array_sort by_bar_score_desc (map normalize emotions)).

(** [pct = Math.round(score * 100)]. *)
Definition pct (b : Bar) : Z := Qfloor (bar_score b * 100 + (1 # 2)).

(** Scores as a backend could send them: a fraction, a percentage, a value
    out of range, and none. *)
Definition mixed_emotions : list Incoming :=
  [ mkIncoming (Some "happy"%string) (Some 0.25);
    mkIncoming (Some "sad"%string) (Some 80);
    mkIncoming None (Some (-3));
    mkIncoming (Some "fear"%string) None ].

End Display.

(** ** apiService.ts: analyzeFaces *)

Module Api.

Import Orchestrator.
Import String.
Import List.
Import ListNotations.

(** What [resizeImageFileToJpegBlob] gives for one blob: a blob, [null]
    (the canvas produced none), or a rejection. *)
Inductive Resized : Type :=
| ResizedTo (b : FaceBlob)
| ResizedNull
| ResizeRejected.

(** An entry of the [FormData]: the ['metadata'] field, by the
    [face_count] and [faces_meta] of the object it serialises; the
    ['context'] field; a ['files'] entry with its blob and the [i] of its
    name [face_${i}.jpg]. *)
Inductive FormEntry : Type :=
| MetadataField (face_count : nat) (faces_meta : list Metadata)
| ContextField (context : string)
| FileEntry (content : FaceBlob) (i : nat).

(** One round of the [for] loop over the faces: the resized blob, or the
    original when the resize gives [null] or throws. *)
Definition appendFace (resize : FaceBlob -> Resized)
           (faces : list ProcessedFace) (i : nat) (form : list FormEntry)
  : list FormEntry :=
  match nth_error faces i with
  | Some f =>
      match resize (face_blob f) with
      | ResizedTo b => form ++ [FileEntry b i]
      | ResizedNull | ResizeRejected => form ++ [FileEntry (face_blob f) i]
      end
  | None => form
  end.

(** The form as it stands when [fetch] is called. *)
Definition buildForm (resize : FaceBlob -> Resized)
           (faces : list ProcessedFace) (context : string)
  : list FormEntry :=
  Js.for_upto (length faces) (appendFace resize faces)
    [MetadataField (length faces) (map metadata faces);
     ContextField context].

(** [haystack.includes(needle)]. *)
Fixpoint includes (needle haystack : string) : bool :=
  if prefix needle haystack then true
  else match haystack with
       | EmptyString => false
       | String _ rest => includes needle rest
       end.

(** A rejection of [fetch], by its [name] and [message]. *)
Record FetchError : Type := mkFetchError {
  err_name : string; err_message : string
}.

(** [raw.detail]: a string, or an array given by how each element prints
    ([d.msg || JSON.stringify(d)]). *)
Inductive Detail : Type :=
| DetailText (s : string)
| DetailList (msgs : list string).

(** [BackendEmotion]; [be_confidence] is [None] when [confidence] is not
    a number. *)
Record BackendEmotion : Type := mkBackendEmotion {
  be_label : string; be_confidence : option Q
}.

(** The parsed body, by the members the function reads. *)
Record Raw : Type := mkRaw {
  raw_detail : option Detail;
  raw_message : option string;
  raw_top3 : option (list BackendEmotion);
  raw_feedback : option string
}.

Record Response : Type := mkResponse {
  ok : bool;
  http_status : Z;
  statusText : string;
  contentType : option string;     (* [headers.get('content-type')] *)
  bodyText : result string;        (* [response.text()] *)
  bodyJson : result Raw            (* [response.json()] *)
}.

(** The errors the function throws. *)
Inductive ApiFailure : Type :=
| NoFacesToAnalyze                      (* No faces to analyze ... *)
| RequestTimeout                        (* Request timeout: ... *)
| ServerUnreachable                     (* Unable to reach server ... *)
| UploadFailed (m : string)             (* Failed to upload: m *)
| NonJsonResponse (start : string)      (* Server returned non-JSON ... *)
| PassedOn (e : JsError)                (* [throw err] *)
| MessageUnreadable                     (* the TypeError of [err.message] *)
| ParseFailed (status : Z)              (* Failed to parse server response *)
| ApiError (m : string).                (* [throw new Error(errorMessage)] *)

Inductive Reply : Type :=
| Answered (r : AnalysisResult)
| Failed (f : ApiFailure).

(** A string is truthy unless empty. *)
Definition truthy (s : string) : bool := negb (String.eqb s EmptyString).

(** The [catch] of the [fetch] block. *)
Definition fetchFailure (error : FetchError) : ApiFailure :=
  if String.eqb (err_name error) "AbortError"%string then RequestTimeout
  else if String.eqb (err_name error) "TypeError"%string
          && includes "fetch"%string (err_message error)
       then ServerUnreachable
       else UploadFailed (if truthy (err_message error)
                          then err_message error
                          else "Unknown network error"%string).

(** The [catch] of the parse block, for an error that is not the
    non-JSON one thrown inside it.  Its test reads [err.message], which
    throws when [err] is [undefined] or [null]. *)
Definition parseFailure (response : Response) (err : JsError) : ApiFailure :=
  match err with
  | Nullish => MessageUnreadable
  | mkError (Some m) =>
      if truthy m && includes "non-JSON"%string m then PassedOn err
      else ParseFailed (http_status response)
  | mkError None => ParseFailed (http_status response)
  end.

(** The parse block: the body as JSON, or the error thrown. *)
Definition parseBody (response : Response) : ApiFailure + Raw :=
  let contentType := match contentType response with
                     | Some c => c
                     | None => EmptyString
                     end in
  if negb (includes "application/json"%string contentType) then
    match bodyText response with
    | Resolved text => inl (NonJsonResponse (substring 0 200 text))
    | Rejected err => inl (parseFailure response err)
    end
  else
    match bodyJson response with
    | Resolved raw => inr raw
    | Rejected err => inl (parseFailure response err)
    end.

(** [errorMessage] of the [!response.ok] block; [printed] is the template
    [API Error: ${status} ${statusText}]. *)
Definition errorMessage (printed : string) (raw : Raw) : string :=
  match raw_detail raw with
  | Some (DetailList msgs) => String.concat ", "%string msgs
  | Some (DetailText s) =>
      if truthy s then s
      else match raw_message raw with
           | Some m => if truthy m then m else printed
           | None => printed
           end
  | None =>
      match raw_message raw with
      | Some m => if truthy m then m else printed
      | None => printed
      end
  end.

(** [mappedTop3]. *)
Definition mappedTop3 (raw : Raw) : list EmotionData :=
  map (fun e => mkEmotion (be_label e)
                          (match be_confidence e with
                           | Some c => c
                           | None => 0
                           end))
      (match raw_top3 raw with Some l => l | None => [] end).

(** [analyzeFaces(faces, context)]; [fetch] answers the form it is sent,
    and [printed] prints a status line. *)
Definition analyzeFaces (resize : FaceBlob -> Resized)
           (fetch : list FormEntry -> FetchError + Response)
           (printed : Z -> string -> string)
           (faces : list ProcessedFace) (context : string) : Reply :=
  if (length faces =? 0)%nat then Failed NoFacesToAnalyze
  else
    match fetch (buildForm resize faces context) with
    | inl error => Failed (fetchFailure error)
    | inr response =>
        match parseBody response with
        | inl f => Failed f
        | inr raw =>
            if negb (ok response)
            then Failed (ApiError
                           (errorMessage
                              (printed (http_status response)
                                       (statusText response))
                              raw))
            else Answered (mkAnalysis (mappedTop3 raw) (raw_feedback raw))
        end
    end.

(** The blob sent for a face. *)
Definition fileOf (resize : FaceBlob -> Resized) (f : ProcessedFace)
  : FaceBlob :=
  match resize (face_blob f) with
  | ResizedTo b => b
  | ResizedNull | ResizeRejected => face_blob f
  end.

(** A face that is never read: the default of an in-range [nth]. *)
Definition no_face : ProcessedFace := mkFace 0%N (mkMetadata 0 [] 0).

End Api.

(** ** The specification's reading of the grid and of one decode *)

Module Spec.

Import Detection.

(** [GridProposal] of the data model: [{ stride, gridX, gridY }]. *)
Record GridProposal : Type := mkCell { cellStride : Z; cellX : Z; cellY : Z }.

(** [GridTable.build]: for each stride [s] in the given order, for [y]
    from 0 to [floor(H/s) - 1], for [x] from 0 to [floor(W/s) - 1], one
    proposal [{s, x, y}]. *)
Definition build (W H : Z) (strides : list Z) : list GridProposal :=
  flat_map (fun s =>
    flat_map (fun yc =>
      map (fun xc => mkCell s (Z.of_nat xc) (Z.of_nat yc))
          (seq 0 (Z.to_nat (W / s))))
      (seq 0 (Z.to_nat (H / s))))
    strides.

(** [sum over strides of floor(W/s) * floor(H/s)]. *)
Definition total (W H : Z) (strides : list Z) : Z :=
  fold_right (fun s acc => ((W / s) * (H / s) + acc)%Z) 0%Z strides.

(** The grid table a service holds, read off its three parallel arrays. *)
Definition table (svc : DetectionService) : list GridProposal :=
  map (fun t => mkCell (fst (fst t)) (snd (fst t)) (snd t))
      (combine (combine (stridePerProposal svc) (gridX svc)) (gridY svc)).

(** Pushing a run of cells onto the three arrays at once. *)
Definition append_cells (svc : DetectionService) (cs : list GridProposal)
  : DetectionService :=
  mkService (session svc) (modelInputShape svc) (numProposals svc)
            (gridX svc ++ map cellX cs)
            (gridY svc ++ map cellY cs)
            (stridePerProposal svc ++ map cellStride cs)
            (channels svc).

(** Suppression: a remaining box survives the round of [current] unless its
    IoU with [current] exceeds the threshold. *)
Definition survives (iouThreshold : Q) (current b : BoundingBox) : bool :=
  negb (Js.gtb (iou current b) iouThreshold).

(** The area of the intersection of two boxes, and the area of their union. *)
Definition intersectionArea (a b : BoundingBox) : Q :=
  Qmax 0 (Qmin (x a + w a) (x b + w b) - Qmax (x a) (x b))
  * Qmax 0 (Qmin (y a + h a) (y b + h b) - Qmax (y a) (y b)).

Definition unionArea (a b : BoundingBox) : Q :=
  w a * h a + w b * h b - intersectionArea a b.

(** The two boxes overlap by no more than the threshold. *)
Definition compatible (iouThreshold : Q) (a b : BoundingBox) : Prop :=
  iou a b <= iouThreshold.

(** Descending confidence. *)
Definition conf_ge (a b : BoundingBox) : Prop := confidence b <= confidence a.

(** *** The raw tensor, [channels x numProposals], channel-major *)

(** [raw[c][i]] for a tensor given by its channel rows. *)
Definition raw_at (raw : list (list Q)) (c i : nat) : Q :=
  nth i (nth c raw []) 0.

(** A tensor of [C] channels over [n] proposals. *)
Definition shaped (C n : nat) (raw : list (list Q)) : Prop :=
  length raw = C /\ Forall (fun r => length r = n) raw.

(** The tensor read by proposal: entry [i] lists [raw[0][i]], [raw[1][i]],
    and so on down the channels. *)
Fixpoint columns (n : nat) (raw : list (list Q)) : list (list Q) :=
  match raw with
  | [] => repeat [] n
  | r :: rs => map (fun p => fst p :: snd p) (combine r (columns n rs))
  end.


Section Decode.

Variable exp : Q -> Q.

(** The first greatest element of [m :: l]. *)
Fixpoint max_from (m : Q) (l : list Q) : Q :=
  match l with
  | [] => m
  | v :: t => max_from (if Js.gtb v m then v else m) t
  end.

(** Class score: the maximum over the class channels of the sigmoid of the
    raw value when there are class channels, and 1 for a single-class
    model. *)
Definition classScoreOf (classes : list Q) : Q :=
  match map (sigmoid exp) classes with
  | [] => 1
  | s :: t => max_from s t
  end.

(** [confidence = objectness * classScore]. *)
Definition confidenceOf (objRaw : Q) (classes : list Q) : Q :=
  sigmoid exp objRaw * classScoreOf classes.

(** The confidence of proposal [i] of a tensor: the sigmoid of its raw
    objectness times its best class score. *)
Definition proposalConfidence (raw : list (list Q)) (i : nat) : Q :=
  confidenceOf (raw_at raw 4 i) (map (fun r => nth i r 0) (skipn 5 raw)).

(** [xCenter = (sigmoid(raw[0][i]) * 2 - 0.5 + gx) * s], and likewise [y]. *)
Definition xCenterOf (cell : GridProposal) (xRaw : Q) : Q :=
  (sigmoid exp xRaw * 2 - 0.5 + inject_Z (cellX cell))
  * inject_Z (cellStride cell).

Definition yCenterOf (cell : GridProposal) (yRaw : Q) : Q :=
  (sigmoid exp yRaw * 2 - 0.5 + inject_Z (cellY cell))
  * inject_Z (cellStride cell).

(** [width = (sigmoid(raw[2][i]) * 2)^2 * s], and likewise [height]. *)
Definition widthOf (cell : GridProposal) (wRaw : Q) : Q :=
  (sigmoid exp wRaw * 2) ^ 2 * inject_Z (cellStride cell).

Definition heightOf (cell : GridProposal) (hRaw : Q) : Q :=
  (sigmoid exp hRaw * 2) ^ 2 * inject_Z (cellStride cell).

(** One proposal decoded from its cell and its column of raw values:
    discarded below the confidence threshold, otherwise scaled to image
    space and clamped. *)
Definition decodeCell (imageWidth imageHeight scaleX scaleY : Q)
           (cell : GridProposal) (col : list Q) : option BoundingBox :=
  match col with
  | xRaw :: yRaw :: wRaw :: hRaw :: objRaw :: classes =>
      if Js.ltb (confidenceOf objRaw classes) CONFIDENCE_THRESHOLD then None
      else
        Some (mkBox
                (clamp ((xCenterOf cell xRaw - widthOf cell wRaw / 2) * scaleX)
                       0 imageWidth)
                (clamp ((yCenterOf cell yRaw - heightOf cell hRaw / 2) * scaleY)
                       0 imageHeight)
                (clamp (widthOf cell wRaw * scaleX) 1 imageWidth)
                (clamp (heightOf cell hRaw * scaleY) 1 imageHeight)
                (confidenceOf objRaw classes))
  | _ => None
  end.

Definition round_of (r : option BoundingBox) : round :=
  match r with Some b => Push b | None => Continue end.

Definition pushed (r : round) : list BoundingBox :=
  match r with Push b => [b] | Continue => [] end.

(** All proposals decoded in order, before suppression. *)
Definition decodeAll (imageWidth imageHeight scaleX scaleY : Q)
           (cells : list GridProposal) (cols : list (list Q))
  : list BoundingBox :=
  flat_map
    (fun p => pushed (round_of (decodeCell imageWidth imageHeight
                                           scaleX scaleY (fst p) (snd p))))
    (combine cells cols).

End Decode.

(** *** The decoder's view of its own state *)

(** The grid arrays are in step with [numProposals]. *)
Definition prepared (n : nat) (svc : DetectionService) : Prop :=
  numProposals svc = n /\ length (gridX svc) = n
  /\ length (gridY svc) = n /\ length (stridePerProposal svc) = n.

(** [this.channels || Math.floor(output.length / this.numProposals)]. *)
Definition numChannelsOf (svc : DetectionService) (output : list Q) : Z :=
  if (channels svc =? 0)%Z
  then Z.of_nat (length output / numProposals svc)
  else channels svc.

(** [imageWidth / modelWidth] and [imageHeight / modelHeight]. *)
Definition scaleXOf (svc : DetectionService) (imageWidth : Q) : Q :=
  imageWidth / inject_Z (dim2 (modelInputShape svc)).

Definition scaleYOf (svc : DetectionService) (imageHeight : Q) : Q :=
  imageHeight / inject_Z (dim3 (modelInputShape svc)).

End Spec.

(** ** Concrete inputs used by the examples *)

Module Sample.

Import Detection.

(** A rational stand-in for [Math.exp], used only to evaluate examples.  It
    is exact at 0, never negative, at most [e^v] for [v >= 0] and at least
    [e^v] for [v < 0]. *)
Definition exp_lin (v : Q) : Q :=
  if Js.ltb v 0 then 1 / (1 - v) else 1 + v.

(** The service after a successful [initialize]. *)
Definition ready_service : DetectionService :=
  snd (initialize (mkInitEnv true true) new_DetectionService).

(** 80*80 + 40*40 + 20*20 proposals. *)
Definition cells : nat := Z.to_nat 8400.

Definition row_with (n : nat) (dflt : Q) (i : nat) (v : Q) : list Q :=
  repeat dflt i ++ v :: repeat dflt (n - i - 1).

(** A five-channel tensor: box channels all 0; objectness -100 everywhere
    but at proposal 79 (stride 8, cell [x = 79], [y = 0]), where it is 0. *)
Definition edge_tensor : list (list Q) :=
  [ repeat 0 cells; repeat 0 cells; repeat 0 cells; repeat 0 cells;
    row_with cells (-100) 79 0 ].

(** A seven-channel tensor, two classes: as [edge_tensor], but with raw
    objectness 3 at proposal 79, where the raw class scores are 0 and 3. *)
Definition class_tensor : list (list Q) :=
  [ repeat 0 cells; repeat 0 cells; repeat 0 cells; repeat 0 cells;
    row_with cells (-100) 79 3;
    repeat 0 cells; row_with cells 0 79 3 ].

(** A four-channel tensor over the same proposals, as [session.run] would
    return it for a model without an objectness channel. *)
Definition four_channel_env : DetectEnv :=
  mkDetectEnv (Some (640, 640)) true
    (Some (mkTensor (Some [1; 4; 8400]%Z)
                    (concat [ repeat 0 cells; repeat 0 cells;
                              repeat 0 cells; repeat 0 cells ]))).

(** What the decoder returns for [edge_tensor] on a 64 x 64 image: one box
    with [x = 63.2], [w = 1]. *)
Definition edge_box : BoundingBox := mkBox (6471680 # 102400) 0 1 1 (1 # 2).

(** The scenario of the specification: IoU 0.6, confidences 0.9 and 0.8. *)
Definition box_09 : BoundingBox := mkBox 0 0 10 10 0.9.
Definition box_08 : BoundingBox := mkBox 0 0 10 6 0.8.
Definition box_far : BoundingBox := mkBox 100 100 10 10 0.5.

End Sample.

(** ** Facts about the JavaScript primitives *)

Module JsFacts.

Import Js.

Lemma ltb_lt a b : ltb a b = true <-> a < b.
Proof.
unfold ltb. rewrite negb_true_iff. split; intro H.
- apply Qnot_le_lt. intro L. apply Qle_bool_iff in L. congruence.
- destruct (Qle_bool b a) eqn:E; [|reflexivity].
  apply Qle_bool_iff in E. lra.
Qed.

Lemma ltb_ge a b : ltb a b = false <-> b <= a.
Proof.
unfold ltb. rewrite negb_false_iff. apply Qle_bool_iff.
Qed.

Lemma gtb_gt a b : gtb a b = true <-> b < a.
Proof. apply ltb_lt. Qed.

Lemma gtb_le a b : gtb a b = false <-> a <= b.
Proof. apply ltb_ge. Qed.

Lemma leb_le a b : leb a b = true <-> a <= b.
Proof. apply Qle_bool_iff. Qed.

Lemma leb_gt a b : leb a b = false <-> b < a.
Proof.
unfold leb. split; intro H.
- apply Qnot_le_lt. intro L. apply Qle_bool_iff in L. congruence.
- destruct (Qle_bool a b) eqn:E; [|reflexivity].
  apply Qle_bool_iff in E. lra.
Qed.

Lemma for_upto_S {S : Type} (n : nat) (body : nat -> S -> S) (s : S) :
Js.for_upto (Datatypes.S n) body s = body n (Js.for_upto n body s).
Proof.
unfold Js.for_upto. rewrite seq_S, fold_left_app. reflexivity.
Qed.

Lemma firstn_length_app {A : Type} (l1 l2 : list A) :
firstn (length l1) (l1 ++ l2) = l1.
Proof.
rewrite firstn_app, Nat.sub_diag, firstn_all. simpl. apply app_nil_r.
Qed.

Lemma skipn_S_length_app {A : Type} (l1 : list A) b l2 :
skipn (S (length l1)) (l1 ++ b :: l2) = l2.
Proof. induction l1; simpl; auto. Qed.

Lemma splice1_middle {A : Type} (l1 : list A) b l2 :
splice1 (length l1) (l1 ++ b :: l2) = l1 ++ l2.
Proof.
unfold splice1. now rewrite firstn_length_app, skipn_S_length_app.
Qed.

Lemma nth_error_middle {A : Type} (l1 : list A) b l2 :
nth_error (l1 ++ b :: l2) (length l1) = Some b.
Proof. induction l1; simpl; auto. Qed.

Section SortFacts.
Context {A : Type} (cmp : A -> A -> Q).

Lemma sort_insert_In a l b : In b (sort_insert cmp a l) <-> b = a \/ In b l.
Proof.
  induction l as [|c l IH]; simpl.
  - intuition.
  - destruct (gtb (cmp a c) 0); simpl; rewrite ?IH; intuition.
Qed.

Lemma Array_sort_In l b : In b (Array_sort cmp l) <-> In b l.
Proof.
  induction l as [|a l IH]; simpl; [tauto|].
  rewrite sort_insert_In, IH. intuition.
Qed.

Lemma sort_insert_length a l :
  length (sort_insert cmp a l) = S (length l).
Proof.
  induction l as [|c l IH]; simpl; [reflexivity|].
  destruct (gtb (cmp a c) 0); simpl; congruence.
Qed.

Lemma Array_sort_length l : length (Array_sort cmp l) = length l.
Proof.
  induction l as [|a l IH]; simpl; [reflexivity|].
  now rewrite sort_insert_length, IH.
Qed.

(** An array already in order is left as it is. *)
Lemma Array_sort_sorted l :
  Sorted (fun a b => cmp a b <= 0) l -> Array_sort cmp l = l.
Proof.
  induction 1 as [|a l Hs IH Hd]; simpl; [reflexivity|].
  rewrite IH. destruct Hd as [|b l Hab]; simpl; [reflexivity|].
  apply gtb_le in Hab. now rewrite Hab.
Qed.
End SortFacts.

End JsFacts.

(** ** The grid table *)

Module GridFacts.

Import Detection Spec.

Lemma append_cells_nil svc : append_cells svc [] = svc.
Proof.
  destruct svc; unfold append_cells; simpl.
  now rewrite !app_nil_r.
Qed.

Lemma append_cells_app svc cs ds :
  append_cells (append_cells svc cs) ds = append_cells svc (cs ++ ds).
Proof.
  unfold append_cells; simpl.
  now rewrite !map_app, !app_assoc.
Qed.

Lemma push_cell_append s xc yc svc :
  push_cell s xc yc svc
  = append_cells svc [mkCell s (Z.of_nat xc) (Z.of_nat yc)].
Proof. reflexivity. Qed.

Lemma row_loop s yc xs svc :
  fold_left (fun acc xc => push_cell s xc yc acc) xs svc
  = append_cells svc
      (map (fun xc => mkCell s (Z.of_nat xc) (Z.of_nat yc)) xs).
Proof.
  revert svc. induction xs as [|xc xs IH]; intro svc; simpl.
  - now rewrite append_cells_nil.
  - now rewrite IH, push_cell_append, append_cells_app.
Qed.

Lemma plane_loop s nx ys svc :
  fold_left (fun acc yc =>
               Js.for_upto nx (fun xc => push_cell s xc yc) acc) ys svc
  = append_cells svc
      (flat_map (fun yc =>
         map (fun xc => mkCell s (Z.of_nat xc) (Z.of_nat yc)) (seq 0 nx)) ys).
Proof.
  revert svc. induction ys as [|yc ys IH]; intro svc; simpl.
  - now rewrite append_cells_nil.
  - rewrite IH. unfold Js.for_upto at 1.
    now rewrite row_loop, append_cells_app.
Qed.

Lemma grid_for_stride_append W H svc s :
  grid_for_stride W H svc s = append_cells svc (build W H [s]).
Proof.
  unfold grid_for_stride, build, Js.floor_div. simpl flat_map.
  rewrite app_nil_r. unfold Js.for_upto at 1. apply plane_loop.
Qed.

Lemma build_cons W H s strides :
  build W H (s :: strides) = build W H [s] ++ build W H strides.
Proof. unfold build. simpl. now rewrite app_nil_r. Qed.

Lemma strides_loop W H strides svc :
  fold_left (grid_for_stride W H) strides svc
  = append_cells svc (build W H strides).
Proof.
  revert svc. induction strides as [|s strides IH]; intro svc.
  - simpl. now rewrite append_cells_nil.
  - simpl fold_left.
    now rewrite IH, grid_for_stride_append, append_cells_app, <- build_cons.
Qed.

(** The three arrays after [prepareGrids], as projections of one table. *)
Lemma prepareGrids_fields strides svc :
  let t := build (dim2 (modelInputShape svc)) (dim3 (modelInputShape svc))
                 strides in
  prepareGrids strides svc
  = mkService (session svc) (modelInputShape svc) (length t)
              (map cellX t) (map cellY t) (map cellStride t) (channels svc).
Proof.
  unfold prepareGrids, slice2. rewrite strides_loop.
  unfold append_cells. simpl. now rewrite length_map.
Qed.

Lemma combine_map_same {A B C : Type} (f : A -> B) (g : A -> C) l :
  combine (map f l) (map g l) = map (fun a => (f a, g a)) l.
Proof. induction l; simpl; congruence. Qed.

Lemma table_of_fields b sh n t ch :
  table (mkService b sh n (map cellX t) (map cellY t) (map cellStride t) ch)
  = t.
Proof.
  unfold table. simpl.
  rewrite !combine_map_same, map_map. simpl.
  rewrite <- (map_id t) at 2. apply map_ext. now intros [].
Qed.

Lemma length_build_row (s : Z) (yc : nat) nx :
  length (map (fun xc => mkCell s (Z.of_nat xc) (Z.of_nat yc)) (seq 0 nx)) = nx.
Proof. now rewrite length_map, length_seq. Qed.

Lemma length_plane (s : Z) nx ys :
  length (flat_map (fun yc =>
            map (fun xc => mkCell s (Z.of_nat xc) (Z.of_nat yc)) (seq 0 nx)) ys)
  = (length ys * nx)%nat.
Proof.
  induction ys as [|yc ys IH]; simpl; [reflexivity|].
  now rewrite length_app, IH, length_build_row.
Qed.

Lemma length_build W H strides :
  (0 <= W)%Z -> (0 <= H)%Z -> Forall (fun s => (0 < s)%Z) strides ->
  Z.of_nat (length (build W H strides)) = total W H strides.
Proof.
  intros HW HH. induction 1 as [|s strides Hs _ IH].
  - reflexivity.
  - rewrite build_cons, length_app, Nat2Z.inj_add, IH. simpl total.
    unfold build. simpl flat_map. rewrite app_nil_r, length_plane, length_seq.
    rewrite Nat2Z.inj_mul, !Z2Nat.id by (apply Z.div_pos; lia).
    lia.
Qed.

(** **** C5.  For a model shape with non-negative sides [W], [H] and
    positive strides, [prepareGrids] leaves in the three arrays exactly the
    table [Spec.build W H strides] (strides in the given order, rows [y]
    from 0 to [floor(H/s) - 1], cells [x] from 0 to [floor(W/s) - 1], [x]
    innermost), the arrays and [numProposals] all have its length, and that
    length is the sum over the strides of [floor(W/s) * floor(H/s)]. *)
Theorem C5_prepareGrids_table (W H : Z) (strides : list Z)
        (svc : DetectionService) :
  (0 <= W)%Z -> (0 <= H)%Z -> Forall (fun s => (0 < s)%Z) strides ->
  dim2 (modelInputShape svc) = W -> dim3 (modelInputShape svc) = H ->
  let svc' := prepareGrids strides svc in
  table svc' = build W H strides
  /\ length (gridX svc') = numProposals svc'
  /\ length (gridY svc') = numProposals svc'
  /\ length (stridePerProposal svc') = numProposals svc'
  /\ Z.of_nat (numProposals svc') = total W H strides.
Proof.
  intros HW HH Hs EW EH svc'. subst svc'.
  rewrite prepareGrids_fields. cbv zeta. rewrite EW, EH.
  rewrite table_of_fields. simpl.
  rewrite !length_map. repeat split; try reflexivity.
  now apply length_build.
Qed.

Lemma C5_prepareGrids_table_witness :
  let svc' := prepareGrids STRIDES new_DetectionService in
  table svc' = build 640 640 STRIDES
  /\ length (gridX svc') = numProposals svc'
  /\ length (gridY svc') = numProposals svc'
  /\ length (stridePerProposal svc') = numProposals svc'
  /\ Z.of_nat (numProposals svc') = total 640 640 STRIDES.
Proof.
  apply (@C5_prepareGrids_table 640 640 STRIDES new_DetectionService).
  - lia.
  - lia.
  - repeat constructor.
  - reflexivity.
  - reflexivity.
Defined.

End GridFacts.

(** ** Overlap and suppression *)

Module NmsFacts.

Import Detection Spec.

Lemma iou_unfold a b :
  iou a b = if Js.leb (intersectionArea a b) 0 then 0
            else if Js.leb (unionArea a b) 0 then 0
                 else intersectionArea a b / unionArea a b.
Proof. reflexivity. Qed.

Lemma intersectionArea_sym a b : intersectionArea a b == intersectionArea b a.
Proof.
  unfold intersectionArea.
  rewrite (Q.max_comm (x a) (x b)), (Q.max_comm (y a) (y b)).
  rewrite (Q.min_comm (x a + w a)), (Q.min_comm (y a + h a)).
  reflexivity.
Qed.

Lemma unionArea_sym a b : unionArea a b == unionArea b a.
Proof.
  unfold unionArea. rewrite (intersectionArea_sym a b). ring.
Qed.

Lemma iou_sym a b : iou a b == iou b a.
Proof.
  rewrite !iou_unfold.
  pose proof (intersectionArea_sym a b) as HI.
  pose proof (unionArea_sym a b) as HU.
  destruct (Js.leb (intersectionArea a b) 0) eqn:E1;
    destruct (Js.leb (intersectionArea b a) 0) eqn:E2;
    try (apply JsFacts.leb_le in E1); try (apply JsFacts.leb_gt in E1);
    try (apply JsFacts.leb_le in E2); try (apply JsFacts.leb_gt in E2);
    try reflexivity; try lra.
  destruct (Js.leb (unionArea a b) 0) eqn:E3;
    destruct (Js.leb (unionArea b a) 0) eqn:E4;
    try (apply JsFacts.leb_le in E3); try (apply JsFacts.leb_gt in E3);
    try (apply JsFacts.leb_le in E4); try (apply JsFacts.leb_gt in E4);
    try reflexivity; try lra.
  now rewrite HI, HU.
Qed.

(** The inner loop is a filter. *)
Lemma suppress_from_filter thr cur l1 l2 :
  suppress_from (length l1) thr cur (l1 ++ l2)
  = filter (survives thr cur) l1 ++ l2.
Proof.
  revert l2. induction l1 as [|b l1 IH] using rev_ind; intro l2.
  - reflexivity.
  - rewrite length_app, Nat.add_comm. simpl.
    rewrite <- app_assoc. simpl.
    rewrite JsFacts.nth_error_middle, filter_app. simpl.
    unfold survives at 2.
    destruct (Js.gtb (iou cur b) thr); simpl.
    + rewrite JsFacts.splice1_middle, IH. now rewrite app_nil_r.
    + rewrite IH, <- app_assoc. reflexivity.
Qed.

Lemma suppress_all thr cur l :
  suppress_from (length l) thr cur l = filter (survives thr cur) l.
Proof.
  rewrite <- (app_nil_r l) at 2.
  rewrite suppress_from_filter. apply app_nil_r.
Qed.

Lemma nms_while_step f thr cur rest sel :
  nms_while (S f) thr (cur :: rest) sel
  = nms_while f thr (filter (survives thr cur) rest) (sel ++ [cur]).
Proof. simpl. now rewrite suppress_all. Qed.

Lemma filter_length_le {A : Type} (p : A -> bool) l :
  (length (filter p l) <= length l)%nat.
Proof.
  induction l as [|a l IH]; simpl; [lia|].
  destruct (p a); simpl; lia.
Qed.

(** [length sorted] rounds are enough: more fuel changes nothing, so the
    loop always leaves through [sorted.length = 0]. *)
Lemma nms_while_fuel thr fuel sorted sel :
  (length sorted <= fuel)%nat ->
  nms_while fuel thr sorted sel = nms_while (length sorted) thr sorted sel.
Proof.
  revert sorted sel.
  induction fuel as [fuel IH] using lt_wf_ind; intros sorted sel Hlen.
  destruct sorted as [|cur rest].
  - destruct fuel; reflexivity.
  - destruct fuel as [|f]; [simpl in Hlen; lia|].
    simpl length. rewrite !nms_while_step.
    pose proof (filter_length_le (survives thr cur) rest) as Hf.
    simpl in Hlen.
    rewrite (IH f) by lia.
    symmetry. apply IH; lia.
Qed.

Lemma nms_while_In fuel thr sorted sel b :
  In b (nms_while fuel thr sorted sel) -> In b sel \/ In b sorted.
Proof.
  revert sorted sel. induction fuel as [|f IH]; intros sorted sel H.
  - destruct sorted; simpl in H; auto.
  - destruct sorted as [|cur rest]; [simpl in H; auto|].
    rewrite nms_while_step in H. apply IH in H.
    rewrite in_app_iff, filter_In in H. simpl in *. intuition.
Qed.

(** Every box of the output is a box of the input. *)
Lemma nonMaxSuppression_In boxes thr b :
  In b (nonMaxSuppression boxes thr) -> In b boxes.
Proof.
  unfold nonMaxSuppression.
  destruct (length boxes <=? 1)%nat; [auto|].
  intro H. apply nms_while_In in H. destruct H as [[]|H].
  now apply JsFacts.Array_sort_In in H.
Qed.

Lemma ForallOrdPairs_snoc {A : Type} (R : A -> A -> Prop) l a :
  ForallOrdPairs R l -> Forall (fun b => R b a) l ->
  ForallOrdPairs R (l ++ [a]).
Proof.
  induction 1 as [|b l Hb Hl IH]; intro Ha; simpl.
  - constructor; constructor.
  - inversion Ha; subst. constructor.
    + apply Forall_app. split; [assumption|]. now constructor.
    + now apply IH.
Qed.

Lemma ForallOrdPairs_nth {A : Type} (R : A -> A -> Prop) l :
  ForallOrdPairs R l ->
  forall i j a b, (i < j)%nat ->
    nth_error l i = Some a -> nth_error l j = Some b -> R a b.
Proof.
  induction 1 as [|c l Hc Hl IH]; intros i j a b Hij Ha Hb.
  - destruct i; discriminate.
  - destruct j as [|j]; [lia|]. simpl in Hb.
    destruct i as [|i]; simpl in Ha.
    + inversion Ha; subst. rewrite Forall_forall in Hc.
      apply Hc. eapply nth_error_In; eauto.
    + apply (IH i j); auto; lia.
Qed.

Lemma survives_compatible thr cur b :
  survives thr cur b = true <-> compatible thr cur b.
Proof.
  unfold survives, compatible. rewrite negb_true_iff. apply JsFacts.gtb_le.
Qed.

(** The loop invariant behind the pairwise bound: the selected boxes are
    pairwise compatible, and compatible with every box still waiting. *)
Lemma nms_while_pairs fuel thr sorted sel :
  ForallOrdPairs (compatible thr) sel ->
  (forall a b, In a sel -> In b sorted -> compatible thr a b) ->
  ForallOrdPairs (compatible thr) (nms_while fuel thr sorted sel).
Proof.
  revert sorted sel. induction fuel as [|f IH]; intros sorted sel Hsel Hx.
  - destruct sorted; assumption.
  - destruct sorted as [|cur rest]; [assumption|].
    rewrite nms_while_step. apply IH.
    + apply ForallOrdPairs_snoc; [assumption|].
      apply Forall_forall. intros a Ha. apply Hx; simpl; auto.
    + intros a b Ha Hb. apply filter_In in Hb. destruct Hb as [Hb Hs].
      apply in_app_iff in Ha. destruct Ha as [Ha|[<-|[]]].
      * apply Hx; simpl; auto.
      * now apply survives_compatible.
Qed.

Lemma nonMaxSuppression_pairs boxes thr :
  ForallOrdPairs (compatible thr) (nonMaxSuppression boxes thr).
Proof.
  unfold nonMaxSuppression.
  destruct (length boxes <=? 1)%nat eqn:E.
  - apply Nat.leb_le in E.
    destruct boxes as [|a [|b l]]; simpl in E; try lia.
    + constructor.
    + constructor; constructor.
  - apply nms_while_pairs; [constructor|]. intros a b [].
Qed.

(** **** C3.  Any two boxes at distinct positions of the output of
    [nonMaxSuppression] have IoU at most the threshold (in particular at
    most [NMS_THRESHOLD] = 0.45 for the decoder's call), where the IoU of two
    boxes is 0 when their intersection area is not positive or their union
    area is not positive, and [intersection / (areaA + areaB - intersection)]
    otherwise. *)
Theorem C3_nms_pairwise_iou (boxes : list BoundingBox) (thr : Q) :
  (forall i j a b,
      i <> j ->
      nth_error (nonMaxSuppression boxes thr) i = Some a ->
      nth_error (nonMaxSuppression boxes thr) j = Some b ->
      iou a b <= thr)
  /\ (forall a b : BoundingBox,
         (intersectionArea a b <= 0 -> iou a b = 0)
         /\ (unionArea a b <= 0 -> iou a b = 0)
         /\ (0 < intersectionArea a b -> 0 < unionArea a b ->
             iou a b
             = intersectionArea a b
               / (w a * h a + w b * h b - intersectionArea a b))).
Proof.
  split.
  - intros i j a b Hij Ha Hb.
    pose proof (nonMaxSuppression_pairs boxes thr) as HP.
    destruct (Nat.lt_total i j) as [Hlt|[Heq|Hgt]]; [|contradiction|].
    + exact (ForallOrdPairs_nth HP Hlt Ha Hb).
    + rewrite iou_sym. exact (ForallOrdPairs_nth HP Hgt Hb Ha).
  - intros a b. rewrite iou_unfold. repeat split.
    + intro H. apply JsFacts.leb_le in H. now rewrite H.
    + intro H. apply JsFacts.leb_le in H. rewrite H.
      now destruct (Js.leb (intersectionArea a b) 0).
    + intros HI HU.
      apply JsFacts.leb_gt in HI. apply JsFacts.leb_gt in HU.
      now rewrite HI, HU.
Qed.

(** *** The output is in descending confidence *)

Lemma by_confidence_desc_le a b : by_confidence_desc a b <= 0 <-> conf_ge a b.
Proof. unfold by_confidence_desc, conf_ge. split; intro; lra. Qed.

Lemma sort_insert_conf a l :
  StronglySorted conf_ge l ->
  StronglySorted conf_ge (Js.sort_insert by_confidence_desc a l).
Proof.
  induction 1 as [|c l Hl IH Hc]; simpl.
  - repeat constructor.
  - destruct (Js.gtb (by_confidence_desc a c) 0) eqn:E.
    + apply JsFacts.gtb_gt in E. constructor; [assumption|].
      apply Forall_forall. intros b Hb.
      apply JsFacts.sort_insert_In in Hb. destruct Hb as [->|Hb].
      * unfold by_confidence_desc in E. unfold conf_ge. lra.
      * rewrite Forall_forall in Hc. now apply Hc.
    + apply JsFacts.gtb_le in E. apply by_confidence_desc_le in E.
      constructor; [now constructor|].
      constructor; [assumption|].
      eapply Forall_impl; [|exact Hc].
      unfold conf_ge in *. intros b Hb. lra.
Qed.

Lemma Array_sort_conf l :
  StronglySorted conf_ge (Js.Array_sort by_confidence_desc l).
Proof.
  induction l as [|a l IH]; simpl; [constructor|].
  now apply sort_insert_conf.
Qed.

Lemma StronglySorted_filter {A : Type} (R : A -> A -> Prop) p l :
  StronglySorted R l -> StronglySorted R (filter p l).
Proof.
  induction 1 as [|a l Hl IH Ha]; simpl; [constructor|].
  destruct (p a); [|assumption].
  constructor; [assumption|].
  apply Forall_forall. intros b Hb. apply filter_In in Hb.
  rewrite Forall_forall in Ha. now apply Ha.
Qed.

Lemma StronglySorted_app_filter {A : Type} (R : A -> A -> Prop) p l1 l2 :
  StronglySorted R (l1 ++ l2) -> StronglySorted R (l1 ++ filter p l2).
Proof.
  induction l1 as [|a l1 IH]; simpl; intro H.
  - now apply StronglySorted_filter.
  - inversion H as [|? ? Hs Ha]; subst. constructor; [now apply IH|].
    apply Forall_app in Ha. destruct Ha as [Ha1 Ha2].
    apply Forall_app. split; [assumption|].
    apply Forall_forall. intros b Hb. apply filter_In in Hb.
    rewrite Forall_forall in Ha2. now apply Ha2.
Qed.

Lemma StronglySorted_app_l {A : Type} (R : A -> A -> Prop) l1 l2 :
  StronglySorted R (l1 ++ l2) -> StronglySorted R l1.
Proof.
  induction l1 as [|a l1 IH]; simpl; intro H; [constructor|].
  inversion H as [|? ? Hs Ha]; subst. constructor; [now apply IH|].
  apply Forall_app in Ha. tauto.
Qed.

Lemma nms_while_conf fuel thr sorted sel :
  StronglySorted conf_ge (sel ++ sorted) ->
  StronglySorted conf_ge (nms_while fuel thr sorted sel).
Proof.
  revert sorted sel. induction fuel as [|f IH]; intros sorted sel H.
  - destruct sorted; simpl.
    + now rewrite app_nil_r in H.
    + now apply StronglySorted_app_l in H.
  - destruct sorted as [|cur rest].
    + simpl. now rewrite app_nil_r in H.
    + rewrite nms_while_step. apply IH.
      apply StronglySorted_app_filter. now rewrite <- app_assoc.
Qed.

(** *** A list that is already an output is a fixed point *)

Lemma filter_all {A : Type} (p : A -> bool) l :
  Forall (fun a => p a = true) l -> filter p l = l.
Proof.
  induction 1 as [|a l Ha Hl IH]; simpl; [reflexivity|].
  now rewrite Ha, IH.
Qed.

Lemma nms_while_compatible thr l sel :
  ForallOrdPairs (compatible thr) l ->
  nms_while (length l) thr l sel = sel ++ l.
Proof.
  intro H. revert sel. induction H as [|cur rest Hc Hr IH]; intro sel.
  - simpl. now rewrite app_nil_r.
  - simpl length. rewrite nms_while_step, filter_all.
    + rewrite IH, <- app_assoc. reflexivity.
    + eapply Forall_impl; [|exact Hc].
      intros b Hb. now apply survives_compatible.
Qed.

Lemma nonMaxSuppression_fixed thr l :
  StronglySorted conf_ge l ->
  ForallOrdPairs (compatible thr) l ->
  nonMaxSuppression l thr = l.
Proof.
  intros Hs Hp. unfold nonMaxSuppression.
  destruct (length l <=? 1)%nat; [reflexivity|].
  assert (E : Js.Array_sort by_confidence_desc l = l).
  { apply JsFacts.Array_sort_sorted.
    apply StronglySorted_Sorted in Hs.
    clear Hp. induction Hs as [|a l Hl IH Hd]; constructor; auto.
    destruct Hd as [|b l Hab]; constructor.
    now apply by_confidence_desc_le. }
  rewrite E. now apply nms_while_compatible.
Qed.

(** **** C9.  [nonMaxSuppression] is idempotent: run on its own output it
    returns that output unchanged, as a list and so as a set of boxes. *)
Theorem C9_nms_idempotent (boxes : list BoundingBox) (thr : Q) :
  nonMaxSuppression (nonMaxSuppression boxes thr) thr
  = nonMaxSuppression boxes thr.
Proof.
  destruct (length boxes <=? 1)%nat eqn:E.
  - unfold nonMaxSuppression at 2. rewrite E.
    unfold nonMaxSuppression. now rewrite E.
  - apply nonMaxSuppression_fixed.
    + unfold nonMaxSuppression. rewrite E.
      apply nms_while_conf. simpl. apply Array_sort_conf.
    + apply nonMaxSuppression_pairs.
Qed.

(** The scenario of the specification: of two boxes with IoU 0.6 and
    confidences 0.9 and 0.8 only the first is kept. *)
Example nms_scenario :
  iou Sample.box_09 Sample.box_08 == 0.6
  /\ nonMaxSuppression [Sample.box_08; Sample.box_09] NMS_THRESHOLD
     = [Sample.box_09].
Proof. split; reflexivity. Qed.

Lemma C3_nms_pairwise_iou_witness :
  nonMaxSuppression [Sample.box_08; Sample.box_far; Sample.box_09]
                    NMS_THRESHOLD
  = [Sample.box_09; Sample.box_far]
  /\ iou Sample.box_09 Sample.box_far <= NMS_THRESHOLD
  /\ iou Sample.box_far Sample.box_09 <= NMS_THRESHOLD.
Proof.
  split; [reflexivity|].
  pose proof (proj1 (C3_nms_pairwise_iou
                       [Sample.box_08; Sample.box_far; Sample.box_09]
                       NMS_THRESHOLD)) as H.
  split.
  - apply (H 0%nat 1%nat); [discriminate|reflexivity|reflexivity].
  - apply (H 1%nat 0%nat); [discriminate|reflexivity|reflexivity].
Defined.

End NmsFacts.

(** ** The decoder *)

Module DecodeFacts.

Import Detection Spec.

Lemma nth_error_concat_row (n : nat) (raw : list (list Q)) :
  Forall (fun r => length r = n) raw ->
  forall c i, (c < length raw)%nat -> (i < n)%nat ->
    nth_error (concat raw) (c * n + i) = Some (raw_at raw c i).
Proof.
  induction 1 as [|r raw Hr Hraw IH]; intros c i Hc Hi; simpl in Hc; [lia|].
  simpl concat. destruct c as [|c].
  - simpl. rewrite nth_error_app1 by lia.
    unfold raw_at. simpl. apply nth_error_nth'. lia.
  - replace (S c * n + i)%nat with (length r + (c * n + i))%nat by (simpl; lia).
    rewrite nth_error_app2 by lia.
    replace (length r + (c * n + i) - length r)%nat with (c * n + i)%nat by lia.
    rewrite IH by lia. reflexivity.
Qed.

Lemma columns_length n raw :
  Forall (fun r => length r = n) raw -> length (columns n raw) = n.
Proof.
  induction 1 as [|r raw Hr Hraw IH]; simpl.
  - apply repeat_length.
  - rewrite length_map, length_combine, IH, Hr. lia.
Qed.

Lemma columns_nth n raw :
  Forall (fun r => length r = n) raw ->
  forall i, (i < n)%nat ->
    nth_error (columns n raw) i = Some (map (fun r => nth i r 0) raw).
Proof.
  induction 1 as [|r raw Hr Hraw IH]; intros i Hi; simpl.
  - apply nth_error_repeat. exact Hi.
  - rewrite nth_error_map.
    assert (E : nth_error (combine r (columns n raw)) i
                = Some (nth i r 0, map (fun r => nth i r 0) raw)).
    { specialize (IH i Hi). revert IH.
      generalize (columns n raw) (map (fun r0 => nth i r0 0) raw).
      intros cols col. revert Hi. rewrite <- Hr. clear.
      revert i cols. induction r as [|v r IHr]; intros i cols Hi Hc.
      - simpl in Hi. lia.
      - destruct cols as [|c0 cols]; [destruct i; discriminate|].
        destruct i as [|i]; simpl in *.
        + now inversion Hc.
        + apply IHr; [lia|assumption]. }
    rewrite E. reflexivity.
Qed.

Lemma combine_nth_error {A B : Type} (l1 : list A) (l2 : list B) i a b :
  nth_error (combine l1 l2) i = Some (a, b) ->
  nth_error l1 i = Some a /\ nth_error l2 i = Some b.
Proof.
  revert l2 i. induction l1 as [|a1 l1 IH]; intros [|b1 l2] [|i]; simpl;
    try discriminate.
  - intro H. inversion H. auto.
  - apply IH.
Qed.

Lemma table_nth svc i cell :
  nth_error (table svc) i = Some cell ->
  nth_error (stridePerProposal svc) i = Some (cellStride cell)
  /\ nth_error (gridX svc) i = Some (cellX cell)
  /\ nth_error (gridY svc) i = Some (cellY cell).
Proof.
  unfold table. rewrite nth_error_map.
  destruct (nth_error _ i) as [[[s gx] gy]|] eqn:E; [|discriminate].
  simpl. intro H. inversion H; subst; simpl.
  apply combine_nth_error in E. destruct E as [E1 E2].
  apply combine_nth_error in E1. tauto.
Qed.

Lemma table_length svc n :
  length (stridePerProposal svc) = n -> length (gridX svc) = n ->
  length (gridY svc) = n -> length (table svc) = n.
Proof.
  intros H1 H2 H3. unfold table.
  rewrite length_map, !length_combine. lia.
Qed.

Section DecodeFacts.

Variable exp : Q -> Q.
Hypothesis exp_nonneg : forall v, 0 <= exp v.

Lemma sigmoid_pos v : 0 < sigmoid exp v.
Proof.
  unfold sigmoid. specialize (exp_nonneg (- v)).
  apply Qlt_shift_div_l; lra.
Qed.




Lemma class_fold output n i classes :
  forall a acc,
    (forall k, (k < length classes)%nat ->
       read output ((a + k) * n + i) = Some (nth k classes 0)) ->
    fold_left
      (fun acc c =>
         obind acc (fun maxClassScore =>
         obind (read output (c * n + i)) (fun raw =>
           let score := sigmoid exp raw in
           Some (if Js.gtb score maxClassScore then score else maxClassScore))))
      (seq a (length classes)) (Some acc)
    = Some (max_from acc (map (sigmoid exp) classes)).
Proof.
  induction classes as [|v classes IH]; intros a acc H; simpl.
  - reflexivity.
  - pose proof (H 0%nat ltac:(simpl; lia)) as H0.
    rewrite Nat.add_0_r in H0. rewrite H0. simpl.
    apply IH. intros k Hk.
    replace (S a + k)%nat with (a + S k)%nat by lia.
    apply (H (S k)). simpl. lia.
Qed.

Lemma classScoreLoop_spec output n i classes C :
  C = Z.of_nat (5 + length classes) ->
  (forall k, (k < length classes)%nat ->
     read output ((5 + k) * n + i) = Some (nth k classes 0)) ->
  classScoreLoop exp output n i C
  = Some (max_from 0 (map (sigmoid exp) classes)).
Proof.
  intros -> H. unfold classScoreLoop.
  replace (Z.to_nat (Z.of_nat (5 + length classes)) - 5)%nat
    with (length classes) by lia.
  now apply class_fold.
Qed.

Lemma classScore_source output n i classes C :
  C = Z.of_nat (5 + length classes) ->
  (forall k, (k < length classes)%nat ->
     read output ((5 + k) * n + i) = Some (nth k classes 0)) ->
  (if (5 <? C)%Z then classScoreLoop exp output n i C else Some 1)
  = Some (classScoreOf exp classes).
Proof.
  intros HC H. destruct (5 <? C)%Z eqn:E.
  - rewrite (@classScoreLoop_spec output n i classes C HC H).
    unfold classScoreOf. destruct classes as [|c classes]; simpl.
    + apply Z.ltb_lt in E. simpl in HC. lia.
    + pose proof (sigmoid_pos c) as Hc.
      apply JsFacts.gtb_gt in Hc. now rewrite Hc.
  - apply Z.ltb_ge in E. destruct classes as [|c classes]; [reflexivity|].
    simpl length in HC. lia.
Qed.

(** One round of the proposal loop against the decode of its cell and
    column. *)
Lemma decodeProposal_cell svc output W H C sx sy i cell col :
  nth_error (table svc) i = Some cell ->
  (5 <= length col)%nat ->
  C = Z.of_nat (length col) ->
  (forall c, (c < length col)%nat ->
     read output (c * numProposals svc + i) = Some (nth c col 0)) ->
  decodeProposal exp svc output W H C sx sy i
  = Some (round_of (decodeCell exp W H sx sy cell col)).
Proof.
  intros Ht Hlen HC Hread.
  apply table_nth in Ht. destruct Ht as (Hs & Hx & Hy).
  destruct col as [|xRaw [|yRaw [|wRaw [|hRaw [|objRaw classes]]]]];
    simpl in Hlen; try lia.
  unfold decodeProposal.
  rewrite Hs, Hx, Hy. cbn [obind].
  rewrite (Hread 0%nat), (Hread 1%nat), (Hread 2%nat), (Hread 3%nat),
    (Hread 4%nat) by (simpl; lia).
  cbn [obind nth].
  rewrite (@classScore_source output (numProposals svc) i classes C).
  - cbn [obind]. unfold decodeCell, confidenceOf.
    destruct (Js.ltb _ CONFIDENCE_THRESHOLD); reflexivity.
  - rewrite HC. reflexivity.
  - intros k Hk. apply (Hread (5 + k)%nat). simpl. lia.
Qed.


(** The proposal loop collects, in order, what each round pushes. *)
Lemma decodeLoop_upto svc output W H C sx sy (f : nat -> round) m :
  (forall i, (i < m)%nat ->
     decodeProposal exp svc output W H C sx sy i = Some (f i)) ->
  Js.for_upto m
    (fun i acc =>
       obind acc (fun boxes =>
       obind (decodeProposal exp svc output W H C sx sy i) (fun r =>
         match r with
         | Continue => Some boxes
         | Push b => Some (boxes ++ [b])
         end)))
    (Some [])
  = Some (flat_map (fun i => pushed (f i)) (seq 0 m)).
Proof.
  induction m as [|m IH]; intro Hf.
  - reflexivity.
  - rewrite JsFacts.for_upto_S, IH by (intros; apply Hf; lia).
    cbn [obind]. rewrite Hf by lia. cbn [obind].
    rewrite seq_S, flat_map_app. simpl. rewrite app_nil_r.
    destruct (f m); simpl; [now rewrite app_nil_r|reflexivity].
Qed.

(** Whatever the buffer, a box the loop returns was pushed by some round. *)
Lemma decodeLoop_upto_In svc output W H C sx sy m :
  forall boxes,
    Js.for_upto m
      (fun i acc =>
         obind acc (fun boxes =>
         obind (decodeProposal exp svc output W H C sx sy i) (fun r =>
           match r with
           | Continue => Some boxes
           | Push b => Some (boxes ++ [b])
           end)))
      (Some [])
    = Some boxes ->
    forall b, In b boxes ->
      exists i, (i < m)%nat /\
        decodeProposal exp svc output W H C sx sy i = Some (Push b).
Proof.
  induction m as [|m IH]; intros boxes Hrun b Hb.
  - inversion Hrun; subst. destruct Hb.
  - rewrite JsFacts.for_upto_S in Hrun.
    destruct (Js.for_upto m _ (Some [])) as [prev|] eqn:Eprev;
      [|discriminate].
    cbn [obind] in Hrun.
    destruct (decodeProposal exp svc output W H C sx sy m) as [r|] eqn:Er;
      [|discriminate].
    cbn [obind] in Hrun.
    assert (Hold : In b prev ->
              exists i, (i < S m)%nat /\
                decodeProposal exp svc output W H C sx sy i = Some (Push b)).
    { intro Hp. destruct (IH prev eq_refl b Hp) as (i & Hi & Hd).
      exists i. split; [lia|assumption]. }
    destruct r as [|b'].
    + inversion Hrun; subst. auto.
    + inversion Hrun; subst. apply in_app_iff in Hb.
      destruct Hb as [Hb|[<-|[]]]; [auto|].
      exists m. split; [lia|assumption].
Qed.

End DecodeFacts.

Lemma combine_seq {A B : Type} (dA : A) (dB : B) (l1 : list A) :
  forall (l2 : list B),
    length l2 = length l1 ->
    combine l1 l2
    = map (fun i => (nth i l1 dA, nth i l2 dB)) (seq 0 (length l1)).
Proof.
  induction l1 as [|a l1 IH]; intros [|b l2] Hlen; simpl in *;
    try reflexivity; try lia.
  rewrite <- seq_shift, map_map. f_equal.
  apply IH. lia.
Qed.

Lemma length_concat_rows n (raw : list (list Q)) :
  Forall (fun r => length r = n) raw ->
  length (concat raw) = (length raw * n)%nat.
Proof.
  induction 1 as [|r raw Hr Hraw IH]; simpl; [reflexivity|].
  rewrite length_app, IH, Hr. reflexivity.
Qed.

Section ProcessFacts.

Variable exp : Q -> Q.
Hypothesis exp_nonneg : forall v, 0 <= exp v.

Lemma processOutput_unfold svc output W H :
  processOutput exp svc output W H
  = if (numProposals svc =? 0)%nat then Some []
    else if (numChannelsOf svc output <? 5)%Z then Some []
         else obind (decodeLoop exp svc output W H (numChannelsOf svc output)
                               (scaleXOf svc W) (scaleYOf svc H))
                   (fun boxes => Some (nonMaxSuppression boxes NMS_THRESHOLD)).
Proof. reflexivity. Qed.

Lemma numChannelsOf_shaped svc C n raw :
  numProposals svc = n -> n <> 0%nat -> shaped C n raw ->
  channels svc = 0%Z \/ channels svc = Z.of_nat C ->
  numChannelsOf svc (concat raw) = Z.of_nat C.
Proof.
  intros Hn Hn0 [HC Hrows] Hch. unfold numChannelsOf.
  destruct (channels svc =? 0)%Z eqn:E.
  - rewrite (length_concat_rows Hrows), Hn, HC, Nat.div_mul by assumption.
    reflexivity.
  - apply Z.eqb_neq in E. destruct Hch; [contradiction|assumption].
Qed.

(** On a tensor of the right shape every round of the proposal loop is the
    decode of its grid cell and its tensor column. *)
Lemma decodeProposal_shaped svc C n raw W H sx sy i :
  prepared n svc -> shaped C n raw -> (5 <= C)%nat -> (i < n)%nat ->
  exists cell col,
    nth_error (table svc) i = Some cell
    /\ nth_error (columns n raw) i = Some col
    /\ col = map (fun r => nth i r 0) raw
    /\ decodeProposal exp svc (concat raw) W H (Z.of_nat C) sx sy i
       = Some (round_of (decodeCell exp W H sx sy cell col)).
Proof.
  intros (Hn & Hx & Hy & Hs) [HC Hrows] H5 Hi.
  destruct (nth_error (table svc) i) as [cell|] eqn:Ecell.
  2:{ apply nth_error_None in Ecell.
      rewrite (table_length svc Hs Hx Hy) in Ecell. lia. }
  exists cell, (map (fun r => nth i r 0) raw).
  split; [reflexivity|]. split; [now apply columns_nth|].
  split; [reflexivity|].
  apply decodeProposal_cell with (cell := cell); auto.
  - rewrite length_map. lia.
  - rewrite length_map, HC. reflexivity.
  - rewrite length_map. intros c Hc. rewrite Hn.
    unfold read. rewrite (nth_error_concat_row Hrows) by lia.
    f_equal. unfold raw_at. symmetry.
    transitivity (nth c (map (fun r => nth i r 0) raw)
                      ((fun r : list Q => nth i r 0) [])).
    + destruct i; reflexivity.
    + apply (map_nth (fun r : list Q => nth i r 0)).
Qed.

Lemma decodeLoop_shaped svc C n raw W H sx sy :
  prepared n svc -> shaped C n raw -> (5 <= C)%nat ->
  decodeLoop exp svc (concat raw) W H (Z.of_nat C) sx sy
  = Some (decodeAll exp W H sx sy (table svc) (columns n raw)).
Proof.
  intros Hp Hsh H5.
  pose proof Hp as (Hn & Hx & Hy & Hs). pose proof Hsh as [HC Hrows].
  unfold decodeLoop. rewrite Hn.
  rewrite decodeLoop_upto
    with (f := fun i => round_of (decodeCell exp W H sx sy
                 (nth i (table svc) (mkCell 0 0 0))
                 (nth i (columns n raw) []))).
  - f_equal. unfold decodeAll.
    rewrite (@combine_seq _ _ (mkCell 0 0 0) [] (table svc) (columns n raw)).
    + rewrite (table_length svc Hs Hx Hy).
      generalize (seq 0 n). intro l.
      induction l as [|i l IH]; simpl; [reflexivity|]. now rewrite IH.
    + now rewrite (table_length svc Hs Hx Hy), columns_length.
  - intros i Hi.
    destruct (@decodeProposal_shaped svc C n raw W H sx sy i Hp Hsh H5 Hi)
      as (cell & col & Hcell & Hcol & _ & Hd).
    rewrite Hd.
    now rewrite (nth_error_nth _ _ _ Hcell), (nth_error_nth _ _ _ Hcol).
Qed.

(** The decoder on a well-shaped tensor: every proposal decoded from its
    cell and column, then suppression. *)
Lemma processOutput_shaped svc C n raw W H :
  prepared n svc -> n <> 0%nat -> shaped C n raw -> (5 <= C)%nat ->
  channels svc = 0%Z \/ channels svc = Z.of_nat C ->
  processOutput exp svc (concat raw) W H
  = Some (nonMaxSuppression
            (decodeAll exp W H (scaleXOf svc W) (scaleYOf svc H)
                       (table svc) (columns n raw))
            NMS_THRESHOLD).
Proof.
  intros Hp Hn0 Hsh H5 Hch. pose proof Hp as (Hn & _).
  rewrite processOutput_unfold.
  destruct (numProposals svc =? 0)%nat eqn:E0.
  { apply Nat.eqb_eq in E0. congruence. }
  rewrite (@numChannelsOf_shaped svc C n raw Hn Hn0 Hsh Hch).
  destruct (Z.of_nat C <? 5)%Z eqn:E5.
  { apply Z.ltb_lt in E5. lia. }
  now rewrite (@decodeLoop_shaped svc C n raw W H _ _ Hp Hsh H5).
Qed.

End ProcessFacts.

(** *** What every pushed box looks like *)

Lemma clamp_lower v lo hi : lo <= clamp v lo hi.
Proof. unfold clamp, Js.Math_max. apply Q.le_max_l. Qed.

Lemma clamp_upper v lo hi : clamp v lo hi <= Qmax lo hi.
Proof.
  unfold clamp, Js.Math_max, Js.Math_min.
  apply Q.max_le_compat_l. apply Q.le_min_l.
Qed.

Section PushFacts.

Variable exp : Q -> Q.

Lemma decodeProposal_Push svc output W H C sx sy i b :
  decodeProposal exp svc output W H C sx sy i = Some (Push b) ->
  CONFIDENCE_THRESHOLD <= confidence b
  /\ exists vx vy vw vh,
       x b = clamp vx 0 W /\ y b = clamp vy 0 H
       /\ w b = clamp vw 1 W /\ h b = clamp vh 1 H.
Proof.
  unfold decodeProposal. intro Hd.
  repeat match type of Hd with
         | obind ?m _ = _ =>
             let E := fresh "E" in
             destruct m eqn:E; cbn [obind] in Hd; [|discriminate]
         end.
  destruct (Js.ltb _ CONFIDENCE_THRESHOLD) eqn:Ec; [discriminate|].
  apply JsFacts.ltb_ge in Ec.
  inversion Hd; subst; clear Hd. simpl. split; [exact Ec|].
  eexists _, _, _, _. repeat split; reflexivity.
Qed.

(** Every box the decoder returns was pushed by a round of the proposal
    loop. *)
Lemma processOutput_In svc output W H boxes b :
  processOutput exp svc output W H = Some boxes -> In b boxes ->
  exists i, (i < numProposals svc)%nat /\
    decodeProposal exp svc output W H (numChannelsOf svc output)
                   (scaleXOf svc W) (scaleYOf svc H) i = Some (Push b).
Proof.
  rewrite processOutput_unfold. intros Hrun Hb.
  destruct (numProposals svc =? 0)%nat.
  { inversion Hrun; subst. destruct Hb. }
  destruct (numChannelsOf svc output <? 5)%Z.
  { inversion Hrun; subst. destruct Hb. }
  destruct (decodeLoop exp svc output W H _ _ _) as [l|] eqn:El;
    [|discriminate].
  cbn [obind] in Hrun. inversion Hrun; subst.
  apply NmsFacts.nonMaxSuppression_In in Hb.
  unfold decodeLoop in El.
  exact (@decodeLoop_upto_In exp svc output W H _ _ _ _ _ El b Hb).
Qed.

(** **** C2 (as the code has it).  Every box the decoder returns has
    [0 <= x <= max(0, imageWidth)], [0 <= y <= max(0, imageHeight)],
    [1 <= w <= max(1, imageWidth)] and [1 <= h <= max(1, imageHeight)]:
    each field is clamped on its own, and nothing bounds [x + w] or
    [y + h] by the image size. *)
Theorem C2_boxes_clamped svc output W H boxes b :
  processOutput exp svc output W H = Some boxes -> In b boxes ->
  (0 <= x b /\ x b <= Qmax 0 W)
  /\ (0 <= y b /\ y b <= Qmax 0 H)
  /\ (1 <= w b /\ w b <= Qmax 1 W)
  /\ (1 <= h b /\ h b <= Qmax 1 H).
Proof.
  intros Hrun Hb.
  destruct (@processOutput_In svc output W H boxes b Hrun Hb) as (i & _ & Hd).
  apply decodeProposal_Push in Hd.
  destruct Hd as (_ & vx & vy & vw & vh & -> & -> & -> & ->).
  repeat split; auto using clamp_lower, clamp_upper.
Qed.

End PushFacts.

(** *** The decode of a proposal, channel by channel *)

Section ColumnFacts.

Variable exp : Q -> Q.
Hypothesis exp_nonneg : forall v, 0 <= exp v.

Lemma decodeCell_column C n raw W H sx sy cell i :
  shaped C n raw -> (5 <= C)%nat ->
  decodeCell exp W H sx sy cell (map (fun r => nth i r 0) raw)
  = if Js.ltb (proposalConfidence exp raw i) CONFIDENCE_THRESHOLD then None
    else Some (mkBox
           (clamp ((xCenterOf exp cell (raw_at raw 0 i)
                    - widthOf exp cell (raw_at raw 2 i) / 2) * sx) 0 W)
           (clamp ((yCenterOf exp cell (raw_at raw 1 i)
                    - heightOf exp cell (raw_at raw 3 i) / 2) * sy) 0 H)
           (clamp (widthOf exp cell (raw_at raw 2 i) * sx) 1 W)
           (clamp (heightOf exp cell (raw_at raw 3 i) * sy) 1 H)
           (proposalConfidence exp raw i)).
Proof.
  intros [HC _] H5.
  destruct raw as [|r0 [|r1 [|r2 [|r3 [|r4 rest]]]]]; simpl in HC; try lia.
  reflexivity.
Qed.



(** **** C4.  Whatever buffer the decoder is given, every box it returns has
    confidence at least [CONFIDENCE_THRESHOLD].  On a tensor of the right
    shape it does return, every returned box is the box of a proposal whose
    confidence (sigmoid of the raw objectness times the best class score) is
    not below the threshold, and the round of a proposal whose confidence is
    strictly below the threshold pushes nothing. *)
Theorem C4_confidence_threshold svc W H :
  (forall output boxes b,
      processOutput exp svc output W H = Some boxes -> In b boxes ->
      CONFIDENCE_THRESHOLD <= confidence b)
  /\ (forall C n raw,
        prepared n svc -> n <> 0%nat -> shaped C n raw -> (5 <= C)%nat ->
        channels svc = 0%Z \/ channels svc = Z.of_nat C ->
        exists boxes,
          processOutput exp svc (concat raw) W H = Some boxes
          /\ (forall b, In b boxes ->
                exists i, (i < n)%nat
                  /\ confidence b = proposalConfidence exp raw i
                  /\ ~ proposalConfidence exp raw i < CONFIDENCE_THRESHOLD
                  /\ decodeProposal exp svc (concat raw) W H (Z.of_nat C)
                       (scaleXOf svc W) (scaleYOf svc H) i = Some (Push b))
          /\ (forall i, (i < n)%nat ->
                proposalConfidence exp raw i < CONFIDENCE_THRESHOLD ->
                decodeProposal exp svc (concat raw) W H (Z.of_nat C)
                  (scaleXOf svc W) (scaleYOf svc H) i = Some Continue)).
Proof.
  split.
  - intros output boxes b Hrun Hb.
    destruct (@processOutput_In exp svc output W H boxes b Hrun Hb)
      as (i & _ & Hd).
    now apply decodeProposal_Push in Hd.
  - intros C n raw Hp Hn0 Hsh H5 Hch. pose proof Hp as (Hn & _).
    eexists. split; [now apply processOutput_shaped with (C := C) (n := n)|].
    split.
    + intros b Hb.
      destruct (@processOutput_In exp svc (concat raw) W H _ b
                  (@processOutput_shaped exp exp_nonneg svc C n raw W H
                     Hp Hn0 Hsh H5 Hch) Hb) as (i & Hi & Hd).
      rewrite (@numChannelsOf_shaped svc C n raw Hn Hn0 Hsh Hch) in Hd.
      rewrite Hn in Hi. exists i. split; [exact Hi|].
      destruct (@decodeProposal_shaped exp exp_nonneg svc C n raw W H
                  (scaleXOf svc W) (scaleYOf svc H) i Hp Hsh H5 Hi)
        as (cell & col & _ & _ & -> & Hd').
      pose proof Hd as Hpush. rewrite Hd' in Hd.
      rewrite (@decodeCell_column C n raw W H _ _ cell i Hsh H5) in Hd.
      destruct (Js.ltb (proposalConfidence exp raw i) CONFIDENCE_THRESHOLD)
        eqn:Ec; simpl in Hd; [discriminate|].
      apply JsFacts.ltb_ge in Ec.
      inversion Hd; subst b; simpl.
      repeat split; [lra|exact Hpush].
    + intros i Hi Hlow.
      destruct (@decodeProposal_shaped exp exp_nonneg svc C n raw W H
                  (scaleXOf svc W) (scaleYOf svc H) i Hp Hsh H5 Hi)
        as (cell & col & _ & _ & -> & Hd).
      rewrite Hd, (@decodeCell_column C n raw W H _ _ cell i Hsh H5).
      apply JsFacts.ltb_lt in Hlow. now rewrite Hlow.
Qed.

End ColumnFacts.

(** *** The service after [initialize], and the examples *)

Import Sample.

Lemma exp_lin_nonneg v : 0 <= exp_lin v.
Proof.
  unfold exp_lin. destruct (Js.ltb v 0) eqn:E.
  - apply JsFacts.ltb_lt in E. apply Qle_shift_div_l; lra.
  - apply JsFacts.ltb_ge in E. lra.
Qed.

Lemma ready_service_eq :
  ready_service
  = mkService true MODEL_INPUT_SHAPE (length (build 640 640 STRIDES))
              (map cellX (build 640 640 STRIDES))
              (map cellY (build 640 640 STRIDES))
              (map cellStride (build 640 640 STRIDES)) 0.
Proof.
  change ready_service
    with (prepareGrids STRIDES (mkService true MODEL_INPUT_SHAPE 0 [] [] [] 0)).
  apply GridFacts.prepareGrids_fields.
Qed.

Lemma build_cells : length (build 640 640 STRIDES) = cells.
Proof. vm_compute. reflexivity. Qed.

Lemma ready_prepared : prepared cells ready_service.
Proof.
  rewrite ready_service_eq. unfold prepared.
  cbn [numProposals gridX gridY stridePerProposal].
  rewrite !length_map. repeat split; apply build_cells.
Qed.

Lemma ready_table : table ready_service = build 640 640 STRIDES.
Proof. rewrite ready_service_eq. apply GridFacts.table_of_fields. Qed.

Lemma ready_channels : channels ready_service = 0%Z.
Proof. now rewrite ready_service_eq. Qed.

Lemma ready_scale W H :
  scaleXOf ready_service W = W / 640 /\ scaleYOf ready_service H = H / 640.
Proof. now rewrite ready_service_eq. Qed.

Lemma cells_nonzero : cells <> 0%nat.
Proof. vm_compute. discriminate. Qed.

Lemma edge_shaped : shaped 5 cells edge_tensor.
Proof.
  split; [reflexivity|].
  unfold edge_tensor.
  repeat (apply Forall_cons; [vm_compute; reflexivity|]).
  apply Forall_nil.
Qed.

Lemma edge_decode :
  processOutput exp_lin ready_service (concat edge_tensor) 64 64
  = Some [edge_box].
Proof.
  rewrite (@processOutput_shaped exp_lin exp_lin_nonneg ready_service
             5 cells edge_tensor 64 64 ready_prepared cells_nonzero
             edge_shaped (le_n 5) (or_introl ready_channels)).
  destruct (ready_scale 64 64) as [-> ->]. rewrite ready_table.
  vm_compute. reflexivity.
Qed.

(** C2 fails as stated.  The service is the initialised one (640 x 640
    model, strides 8, 16, 32) and the source image is 64 x 64.  Proposal 79
    is the last cell of the first row at stride 8; with raw values 0 its box
    is centred at 636 with width 8 in model space, that is [x = 63.2] after
    scaling by 0.1, and its width 0.8 is clamped up to 1: the box ends at
    64.2, past the right edge of the image.  The box depends on [Math.exp]
    only through [exp(0) = 1]; every other proposal has raw objectness -100
    and is discarded as soon as [exp(100) > 13/7]. *)
Lemma C2_box_past_right_edge :
  processOutput exp_lin ready_service (concat edge_tensor) 64 64
  = Some [edge_box]
  /\ x edge_box == 63.2 /\ w edge_box == 1
  /\ ~ (x edge_box + w edge_box <= 64).
Proof.
  split; [exact edge_decode|].
  split; [reflexivity|]. split; [reflexivity|].
  apply Qlt_not_le. reflexivity.
Qed.

Lemma C2_boxes_clamped_witness :
  (0 <= x edge_box /\ x edge_box <= Qmax 0 64)
  /\ (0 <= y edge_box /\ y edge_box <= Qmax 0 64)
  /\ (1 <= w edge_box /\ w edge_box <= Qmax 1 64)
  /\ (1 <= h edge_box /\ h edge_box <= Qmax 1 64).
Proof.
  apply (@C2_boxes_clamped exp_lin ready_service (concat edge_tensor)
           64 64 [edge_box] edge_box).
  - exact edge_decode.
  - left. reflexivity.
Defined.


(** Proposal 79 of [class_tensor] on a 64 x 64 image: objectness
    [1 / (1 + 1/4) = 0.8], class scores 0.5 and 0.8, so the box of
    [edge_tensor] is pushed with confidence [0.8 * 0.8]. *)
Example class_decode :
  decodeProposal exp_lin ready_service (concat class_tensor) 64 64 7
                 0.1 0.1 79
  = Some (Push (mkBox (101120 # 1600) 0 1 1 (16 # 25))).
Proof. rewrite ready_service_eq. vm_compute. reflexivity. Qed.


Lemma C4_confidence_threshold_witness :
  exists boxes,
    processOutput exp_lin ready_service (concat edge_tensor) 64 64 = Some boxes
    /\ (forall b, In b boxes ->
          exists i, (i < cells)%nat
            /\ confidence b = proposalConfidence exp_lin edge_tensor i
            /\ ~ proposalConfidence exp_lin edge_tensor i < CONFIDENCE_THRESHOLD
            /\ decodeProposal exp_lin ready_service (concat edge_tensor) 64 64
                 (Z.of_nat 5) (scaleXOf ready_service 64)
                 (scaleYOf ready_service 64) i = Some (Push b))
    /\ (forall i, (i < cells)%nat ->
          proposalConfidence exp_lin edge_tensor i < CONFIDENCE_THRESHOLD ->
          decodeProposal exp_lin ready_service (concat edge_tensor) 64 64
            (Z.of_nat 5) (scaleXOf ready_service 64)
            (scaleYOf ready_service 64) i = Some Continue).
Proof.
  apply (proj2 (@C4_confidence_threshold exp_lin exp_lin_nonneg
                  ready_service 64 64) 5%nat cells edge_tensor).
  - exact ready_prepared.
  - exact cells_nonzero.
  - exact edge_shaped.
  - apply le_n.
  - left. exact ready_channels.
Defined.

(** *** The guards of the decoder *)

Section GuardFacts.

Variable exp : Q -> Q.

(** **** C8 (as the code has it).  [detectFaces] throws the not-initialised
    error when the session has not been created.  The decoder itself never
    fails: with an unprepared grid, or with fewer than 5 channels, it warns
    and returns the empty list, and so does [detectFaces] on an initialised
    service whose tensor has fewer than 5 channels. *)
Theorem C8_guards svc output W H env :
  (session svc = false ->
   detectFaces exp env svc = (Some (Threw NotInitialized), svc))
  /\ (numProposals svc = 0%nat -> processOutput exp svc output W H = Some [])
  /\ ((numChannelsOf svc output < 5)%Z ->
      processOutput exp svc output W H = Some [])
  /\ (forall iw ih t,
        session svc = true -> drawable env = Some (iw, ih) ->
        context2d env = true -> run env = Some t ->
        (numChannelsOf (cacheChannels t svc) (data t) < 5)%Z ->
        detectFaces exp env svc
        = (Some (Returned []), cacheChannels t svc)).
Proof.
  assert (Hlow : forall s o w0 h0,
             (numChannelsOf s o < 5)%Z ->
             processOutput exp s o w0 h0 = Some []).
  { intros s o w0 h0 Hc. rewrite processOutput_unfold.
    destruct (numProposals s =? 0)%nat; [reflexivity|].
    apply Z.ltb_lt in Hc. now rewrite Hc. }
  repeat split.
  - intro Hs. unfold detectFaces. now rewrite Hs.
  - intro Hn. rewrite processOutput_unfold, Hn. reflexivity.
  - apply Hlow.
  - intros iw ih t Hs Hd Hc Hr Hch.
    unfold detectFaces. rewrite Hs, Hd, Hc, Hr. simpl negb. cbv iota.
    now rewrite Hlow.
Qed.

End GuardFacts.

(** C8 fails as stated: on the initialised service, a tensor of shape
    [1, 4, 8400] makes [detectFaces] return normally, with no boxes. *)
Lemma C8_four_channels_return_empty :
  fst (detectFaces exp_lin four_channel_env ready_service)
  = Some (Returned []).
Proof.
  rewrite ready_service_eq. vm_compute. reflexivity.
Qed.

Lemma C8_guards_witness :
  detectFaces exp_lin four_channel_env new_DetectionService
  = (Some (Threw NotInitialized), new_DetectionService)
  /\ processOutput exp_lin new_DetectionService [] 640 640 = Some [].
Proof.
  destruct (@C8_guards exp_lin new_DetectionService [] 640 640
              four_channel_env) as (Hs & Hn & _).
  split; [apply Hs|apply Hn]; reflexivity.
Defined.

End DecodeFacts.

(** ** The encoder *)

Module EncoderFacts.

Import Encoder.

Lemma over_true b maxBytes :
  over b maxBytes = true <-> maxBytes < inject_Z (Z.of_N (size b)).
Proof. apply JsFacts.gtb_gt. Qed.

Lemma over_false b maxBytes :
  over b maxBytes = false <-> inject_Z (Z.of_N (size b)) <= maxBytes.
Proof. apply JsFacts.gtb_le. Qed.

Lemma enc_bind_inv {A B : Type} (m : Enc A) (f : A -> Enc B) log res log' :
  enc_bind m f log = (res, log') ->
  (exists a l1, m log = (Finished a, l1) /\ f a l1 = (res, log'))
  \/ (exists e, m log = (Raised e, log') /\ res = Raised e)
  \/ (m log = (Diverged, log') /\ res = Diverged).
Proof.
  unfold enc_bind. destruct (m log) as [[a|e|] l1]; intro H.
  - left. eauto.
  - right. left. inversion H; subst. eauto.
  - right. right. inversion H; subst. auto.
Qed.

Lemma encode_inv cv t q log r l1 :
  encode cv t q log = (r, l1) ->
  l1 = log ++ [(t, q)]
  /\ ((exists b, r = Finished b /\ canvasToBlob cv t q = Some b)
      \/ (r = Raised ToBlobFailed /\ canvasToBlob cv t q = None)).
Proof.
  unfold encode. destruct (canvasToBlob cv t q) as [b|]; intro H;
    inversion H; subst; split; eauto.
Qed.

Lemma produced_app_l cv l1 l2 t b :
  produced cv l1 t b -> produced cv (l1 ++ l2) t b.
Proof. intros (q & Hin & Hq). exists q. split; [apply in_or_app|]; auto. Qed.

Lemma produced_app_r cv l1 l2 t b :
  produced cv l2 t b -> produced cv (l1 ++ l2) t b.
Proof. intros (q & Hin & Hq). exists q. split; [apply in_or_app|]; auto. Qed.

Lemma rejected_app_l cv l1 l2 t : rejected cv l1 t -> rejected cv (l1 ++ l2) t.
Proof. intros (q & Hin & Hq). exists q. split; [apply in_or_app|]; auto. Qed.

Lemma rejected_app_r cv l1 l2 t : rejected cv l2 t -> rejected cv (l1 ++ l2) t.
Proof. intros (q & Hin & Hq). exists q. split; [apply in_or_app|]; auto. Qed.

Lemma attempts_split js ws :
  Forall (fun a => fst a = ImageJpeg) js ->
  Forall (fun a => fst a = ImageWebp) ws ->
  attempts ImageJpeg (js ++ ws) = length js
  /\ attempts ImageWebp (js ++ ws) = length ws.
Proof.
  intros Hj Hw. unfold attempts. rewrite !filter_app, !length_app.
  assert (Hjj : filter (fun a => mime_eqb (fst a) ImageJpeg) js = js).
  { clear Hw. induction Hj as [|a js Ha _ IH]; simpl; [reflexivity|].
    now rewrite Ha, IH. }
  assert (Hjw : filter (fun a => mime_eqb (fst a) ImageWebp) js = []).
  { clear Hw Hjj. induction Hj as [|a js Ha _ IH]; simpl; [reflexivity|].
    now rewrite Ha, IH. }
  assert (Hwj : filter (fun a => mime_eqb (fst a) ImageJpeg) ws = []).
  { clear Hj Hjj Hjw. induction Hw as [|a ws Ha _ IH]; simpl; [reflexivity|].
    now rewrite Ha, IH. }
  assert (Hww : filter (fun a => mime_eqb (fst a) ImageWebp) ws = ws).
  { clear Hj Hjj Hjw Hwj.
    induction Hw as [|a ws Ha _ IH]; simpl; [reflexivity|].
    now rewrite Ha, IH. }
  rewrite Hjj, Hjw, Hwj, Hww. simpl. lia.
Qed.

End EncoderFacts.


(** ** The encoder, the quality in doubles *)

Module Encoder64Facts.

Import PrimFloat.
Import Encoder Encoder64 EncoderFacts.

Lemma bind64_inv {A B : Type} (m : Enc64 A) (f : A -> Enc64 B) log res log' :
  bind64 m f log = (res, log') ->
  (exists a l1, m log = (Finished a, l1) /\ f a l1 = (res, log'))
  \/ (exists e, m log = (Raised e, log') /\ res = Raised e)
  \/ (m log = (Diverged, log') /\ res = Diverged).
Proof.
  unfold bind64. destruct (m log) as [[a|e|] l1]; intro H.
  - left. eauto.
  - right. left. inversion H; subst. eauto.
  - right. right. inversion H; subst. auto.
Qed.

Lemma encode64_inv cv t q log r l1 :
  encode64 cv t q log = (r, l1) ->
  l1 = log ++ [(t, q)]
  /\ ((exists b, r = Finished b /\ canvasToBlob64 cv t q = Some b)
      \/ (r = Raised ToBlobFailed /\ canvasToBlob64 cv t q = None)).
Proof.
  unfold encode64. destruct (canvasToBlob64 cv t q) as [b|]; intro H;
    inversion H; subst; split; eauto.
Qed.

Lemma produced64_app_l cv l1 l2 t b :
  produced64 cv l1 t b -> produced64 cv (l1 ++ l2) t b.
Proof. intros (q & Hin & Hq). exists q. split; [apply in_or_app|]; auto. Qed.

Lemma produced64_app_r cv l1 l2 t b :
  produced64 cv l2 t b -> produced64 cv (l1 ++ l2) t b.
Proof. intros (q & Hin & Hq). exists q. split; [apply in_or_app|]; auto. Qed.

Lemma rejected64_app_l cv l1 l2 t :
  rejected64 cv l1 t -> rejected64 cv (l1 ++ l2) t.
Proof. intros (q & Hin & Hq). exists q. split; [apply in_or_app|]; auto. Qed.

Lemma rejected64_app_r cv l1 l2 t :
  rejected64 cv l2 t -> rejected64 cv (l1 ++ l2) t.
Proof. intros (q & Hin & Hq). exists q. split; [apply in_or_app|]; auto. Qed.

(** What a quality loop adds to the log and hands back. *)
Lemma qualityLoop64_run cv t maxB fl st fuel :
  forall q b log res log',
    qualityLoop64 cv t maxB fl st fuel q b log = (res, log') ->
    exists extra,
      log' = log ++ extra
      /\ Forall (fun a => fst a = t) extra
      /\ match res with
         | Finished (_, b') => b' = b \/ produced64 cv extra t b'
         | Raised e => e = ToBlobFailed /\ rejected64 cv extra t
         | Diverged => True
         end.
Proof.
  induction fuel as [|f IH]; intros q b log res log' Hrun; simpl in Hrun;
    destruct (over b maxB && ltb fl q)%bool.
  - inversion Hrun; subst. exists []. rewrite app_nil_r. auto.
  - inversion Hrun; subst. exists []. rewrite app_nil_r. auto.
  - unfold bind64, encode64 in Hrun.
    set (q' := Math_max64 fl (q - st)%float) in *.
    destruct (canvasToBlob64 cv t q') as [b1|] eqn:Eb.
    + apply IH in Hrun. destruct Hrun as (extra & -> & Ht & Hres).
      exists ((t, q') :: extra). rewrite <- app_assoc. split; [reflexivity|].
      split; [constructor; auto|].
      destruct res as [[q2 b2]| e |]; auto.
      * right. destruct Hres as [->|(q0 & Hin & Hq0)].
        -- exists q'. simpl; auto.
        -- exists q0. simpl; auto.
      * destruct Hres as [-> (q0 & Hin & Hq0)]. split; [reflexivity|].
        exists q0. simpl; auto.
    + inversion Hrun; subst. exists [(t, q')]. repeat split.
      * repeat constructor.
      * exists q'. simpl; auto.
  - inversion Hrun; subst. exists []. rewrite app_nil_r. auto.
Qed.

(** A loop whose descent settles within [k] rounds ends within [k] rounds,
    whatever the canvas answers. *)
Lemma qualityLoop64_settles cv t maxB fl st :
  forall fuel k q b log res log',
    settles fl st k q = true -> (k <= fuel)%nat ->
    qualityLoop64 cv t maxB fl st fuel q b log = (res, log') ->
    res <> Diverged /\ (length log' <= length log + k)%nat.
Proof.
  induction fuel as [|f IH]; intros k q b log res log' Hk Hf Hrun;
    simpl in Hrun; destruct (over b maxB) eqn:Eo; simpl in Hrun;
    try (inversion Hrun; subst; split; [discriminate|lia]);
    destruct (ltb fl q) eqn:Eq;
    try (inversion Hrun; subst; split; [discriminate|lia]).
  - destruct k; [|lia]. simpl in Hk. rewrite Eq in Hk. discriminate.
  - destruct k as [|k']; simpl in Hk; rewrite Eq in Hk; [discriminate|].
    unfold bind64, encode64 in Hrun.
    set (q' := Math_max64 fl (q - st)%float) in *.
    destruct (canvasToBlob64 cv t q') as [b1|].
    + apply (IH k') in Hrun; [|exact Hk|lia]. destruct Hrun as [Hnd Hlen].
      split; [exact Hnd|]. rewrite length_app in Hlen. simpl in Hlen. lia.
    + inversion Hrun; subst. split; [discriminate|].
      rewrite length_app. simpl. lia.
Qed.

(** The WebP descent, from 0.9 by 0.12 down to 0.25, settles in six rounds
    and not in five. *)
Lemma webp_settles :
  settles 0.25 0.12 6 0.9 = true /\ settles 0.25 0.12 5 0.9 = false.
Proof. split; vm_compute; reflexivity. Qed.

(** The descent of the default options, from 0.9 by 0.08 down to 0.25,
    settles in nine rounds and not in eight. *)
Lemma default_settles :
  settles 0.25 0.08 9 0.9 = true /\ settles 0.25 0.08 8 0.9 = false.
Proof. split; vm_compute; reflexivity. Qed.

(** The WebP fallback never throws; it hands back either the blob it was
    given or a WebP blob within the budget. *)
Lemma webpFallbackBlock64_run cv maxB fuel b f log res log' :
  webpFallbackBlock64 cv maxB fuel b f log = (res, log') ->
  exists ws,
    log' = log ++ ws
    /\ Forall (fun a => fst a = ImageWebp) ws
    /\ match res with
       | Finished (b', f') =>
           (b' = b /\ f' = f)
           \/ (f' = ImageWebp /\ produced64 cv ws ImageWebp b'
               /\ over b' maxB = false)
       | Raised _ => False
       | Diverged => True
       end
    /\ ((6 <= fuel)%nat -> res <> Diverged /\ (length ws <= 7)%nat).
Proof.
  unfold webpFallbackBlock64, try_catch64.
  destruct (bind64 _ _ log) as [r l1] eqn:Ebody. intro Hrun.
  apply bind64_inv in Ebody.
  destruct Ebody as [(w0 & l2 & He & Hk)|[(e & He & ->)|[He _]]].
  - apply encode64_inv in He. destruct He as [-> [(b0 & Eb & Hc)|[Eb _]]];
      [|discriminate].
    inversion Eb; subst b0; clear Eb.
    apply bind64_inv in Hk.
    assert (Hbound : forall r2 l3,
               qualityLoop64 cv ImageWebp maxB 0.25 0.12 fuel 0.9 w0
                             (log ++ [(ImageWebp, 0.9%float)]) = (r2, l3) ->
               (6 <= fuel)%nat ->
               r2 <> Diverged
               /\ (length l3 <= length log + 7)%nat).
    { intros r2 l3 Hl Hf.
      destruct (@qualityLoop64_settles _ _ _ _ _ _ _ _ _ _ _ _
                  (proj1 webp_settles) Hf Hl) as [Hnd Hlen].
      split; [exact Hnd|]. rewrite length_app in Hlen. simpl in Hlen. lia. }
    destruct Hk as [([q1 w1] & l3 & Hloop & Hk)|[(e & Hloop & ->)|[Hloop ->]]].
    + pose proof (Hbound _ _ Hloop) as Hb.
      apply qualityLoop64_run in Hloop.
      destruct Hloop as (extra & -> & Ht & Hprod).
      assert (Hlen : (6 <= fuel)%nat -> (length extra <= 6)%nat).
      { intro Hf. destruct (Hb Hf) as [_ Hl].
        rewrite !length_app in Hl. simpl in Hl. lia. }
      exists ((ImageWebp, 0.9%float) :: extra).
      assert (Hw1 : produced64 cv ((ImageWebp, 0.9%float) :: extra)
                               ImageWebp w1).
      { destruct Hprod as [->|Hp].
        - exists 0.9%float. simpl; auto.
        - now apply (@produced64_app_r cv [(ImageWebp, 0.9%float)] extra). }
      cbv beta iota zeta in Hk.
      destruct (Js.leb (inject_Z (Z.of_N (size w1))) maxB) eqn:El;
        inversion Hk; subst; inversion Hrun; subst;
        (split; [now rewrite <- app_assoc|]);
        (split; [constructor; auto|]).
      * split.
        -- right. repeat split; auto. apply over_false.
           now apply JsFacts.leb_le.
        -- intro Hf. split; [discriminate|]. simpl. specialize (Hlen Hf). lia.
      * split; [now left|].
        intro Hf. split; [discriminate|]. simpl. specialize (Hlen Hf). lia.
    + pose proof (Hbound _ _ Hloop) as Hb.
      apply qualityLoop64_run in Hloop.
      destruct Hloop as (extra & -> & Ht & _).
      inversion Hrun; subst.
      exists ((ImageWebp, 0.9%float) :: extra).
      split; [now rewrite <- app_assoc|].
      split; [constructor; auto|]. split; [now left|].
      intro Hf. split; [discriminate|].
      destruct (Hb Hf) as [_ Hl].
      rewrite !length_app in Hl. simpl in *. lia.
    + pose proof (Hbound _ _ Hloop) as Hb.
      apply qualityLoop64_run in Hloop.
      destruct Hloop as (extra & -> & Ht & _).
      inversion Hrun; subst.
      exists ((ImageWebp, 0.9%float) :: extra).
      split; [now rewrite <- app_assoc|].
      split; [constructor; auto|]. split; [exact I|].
      intro Hf. destruct (Hb Hf) as [Hnd _]. congruence.
  - apply encode64_inv in He. destruct He as [-> [(b0 & Eb & _)|[_ Hc]]];
      [discriminate|].
    inversion Hrun; subst.
    exists [(ImageWebp, 0.9%float)]. split; [reflexivity|].
    split; [repeat constructor|]. split; [now left|].
    intros _. split; [discriminate|simpl; lia].
  - apply encode64_inv in He. destruct He as [_ [(b0 & Eb & _)|[Eb _]]];
      discriminate.
Qed.

Lemma attempts64_split js ws :
  Forall (fun a => fst a = ImageJpeg) js ->
  Forall (fun a => fst a = ImageWebp) ws ->
  attempts64 ImageJpeg (js ++ ws) = length js
  /\ attempts64 ImageWebp (js ++ ws) = length ws.
Proof.
  intros Hj Hw. unfold attempts64. rewrite !filter_app, !length_app.
  assert (Hjj : filter (fun a => mime_eqb (fst a) ImageJpeg) js = js).
  { clear Hw. induction Hj as [|a js Ha _ IH]; simpl; [reflexivity|].
    now rewrite Ha, IH. }
  assert (Hjw : filter (fun a => mime_eqb (fst a) ImageWebp) js = []).
  { clear Hw Hjj. induction Hj as [|a js Ha _ IH]; simpl; [reflexivity|].
    now rewrite Ha, IH. }
  assert (Hwj : filter (fun a => mime_eqb (fst a) ImageJpeg) ws = []).
  { clear Hj Hjj Hjw. induction Hw as [|a ws Ha _ IH]; simpl; [reflexivity|].
    now rewrite Ha, IH. }
  assert (Hww : filter (fun a => mime_eqb (fst a) ImageWebp) ws = ws).
  { clear Hj Hjj Hjw Hwj.
    induction Hw as [|a ws Ha _ IH]; simpl; [reflexivity|].
    now rewrite Ha, IH. }
  rewrite Hjj, Hjw, Hwj, Hww. simpl. lia.
Qed.

(** Every way a call can end, with the log it leaves: JPEG attempts first,
    then WebP attempts. *)
Lemma cropResizeToBlob64_run cv opts fuel res log :
  cropResizeToBlob64 cv opts fuel [] = (res, log) ->
  let maxBytes := default (300 * 1024) (maxBytes64 opts) in
  let qs := default 0.9%float (qualityStart64 opts) in
  let st := default 0.08%float (qualityStep64 opts) in
  let mq := default 0.25%float (minQuality64 opts) in
  exists js ws,
    log = js ++ ws
    /\ Forall (fun a => fst a = ImageJpeg) js
    /\ Forall (fun a => fst a = ImageWebp) ws
    /\ match res with
       | Finished r =>
           over (blob r) maxBytes = false
           /\ sizeBytes r = size (blob r)
           /\ produced64 cv log (format r) (blob r)
       | Raised NoContext => getContext64 cv = false /\ log = []
       | Raised BitmapFailed => createImageBitmap64 cv = false /\ log = []
       | Raised ToBlobFailed => rejected64 cv js ImageJpeg
       | Raised (SizeExceeded kb) =>
           kb = maxBytes / 1024
           /\ exists b, produced64 cv js ImageJpeg b /\ over b maxBytes = true
       | Diverged => getContext64 cv = true /\ createImageBitmap64 cv = true
       end
    /\ (forall k, settles mq st k qs = true -> (k <= fuel)%nat ->
        (6 <= fuel)%nat ->
        res <> Diverged
        /\ (length js <= 1 + k)%nat
        /\ (length ws <= 7)%nat).
Proof.
  intros Hrun maxBytes qs st mq. unfold cropResizeToBlob64 in Hrun.
  fold maxBytes qs st mq in Hrun.
  destruct (getContext64 cv) eqn:Ectx; simpl negb in Hrun; cbv iota in Hrun.
  2:{ unfold throw64 in Hrun. inversion Hrun; subst. exists [], [].
      split; [reflexivity|]. split; [constructor|]. split; [constructor|].
      split; [auto|]. intros k _ _ _.
      split; [discriminate|]. cbn [length]. lia. }
  destruct (createImageBitmap64 cv) eqn:Ebm; simpl negb in Hrun;
    cbv iota in Hrun.
  2:{ unfold throw64 in Hrun. inversion Hrun; subst. exists [], [].
      split; [reflexivity|]. split; [constructor|]. split; [constructor|].
      split; [auto|]. intros k _ _ _.
      split; [discriminate|]. cbn [length]. lia. }
  apply bind64_inv in Hrun.
  destruct Hrun as [(b0 & l1 & He & Hk)|[(e & He & ->)|[He _]]].
  3:{ apply encode64_inv in He. destruct He as [_ [(b & Eb & _)|[Eb _]]];
      discriminate. }
  2:{ apply encode64_inv in He. destruct He as [-> [(b & Eb & _)|[Eb Hc]]];
        [discriminate|]. inversion Eb; subst e.
      exists [(ImageJpeg, qs)], [].
      split; [reflexivity|]. split; [repeat constructor|].
      split; [constructor|]. split.
      - exists qs. simpl; auto.
      - intros k _ _ _. split; [discriminate|]. cbn [length]. lia. }
  apply encode64_inv in He. destruct He as [-> [(b & Eb & Hc0)|[Eb _]]];
    [|discriminate].
  inversion Eb; subst b; clear Eb. simpl app in Hk.
  apply bind64_inv in Hk.
  assert (Hbound : forall r2 l2,
             qualityLoop64 cv ImageJpeg maxBytes mq st fuel qs b0
                           [(ImageJpeg, qs)] = (r2, l2) ->
             forall k, settles mq st k qs = true -> (k <= fuel)%nat ->
             r2 <> Diverged /\ (length l2 <= 1 + k)%nat).
  { intros r2 l2 Hl k Hs Hf.
    exact (@qualityLoop64_settles _ _ _ _ _ _ _ _ _ _ _ _ Hs Hf Hl). }
  destruct Hk as [([q1 b1] & l2 & Hloop & Hk)|[(e & Hloop & ->)|[Hloop ->]]].
  - (* the JPEG loop returned *)
    pose proof (Hbound _ _ Hloop) as Hb. apply qualityLoop64_run in Hloop.
    destruct Hloop as (extra & -> & Ht & Hprod).
    set (js := (ImageJpeg, qs) :: extra).
    change ([(ImageJpeg, qs)] ++ extra) with js in *.
    assert (Hjs : Forall (fun a => fst a = ImageJpeg) js)
      by (constructor; auto).
    assert (Hb1 : produced64 cv js ImageJpeg b1).
    { destruct Hprod as [->|Hp].
      - exists qs. simpl; auto.
      - now apply (@produced64_app_r cv [(ImageJpeg, qs)] extra). }
    cbv beta iota zeta in Hk.
    apply bind64_inv in Hk.
    destruct Hk as [([b2 f2] & l3 & Hw & Hk)|[(e & Hw & ->)|[Hw ->]]].
    + cbv beta iota zeta in Hk.
      assert (Hws : exists ws,
                 l3 = js ++ ws
                 /\ Forall (fun a => fst a = ImageWebp) ws
                 /\ ((b2 = b1 /\ f2 = ImageJpeg)
                     \/ (f2 = ImageWebp /\ produced64 cv ws ImageWebp b2
                         /\ over b2 maxBytes = false))
                 /\ ((6 <= fuel)%nat -> (length ws <= 7)%nat)).
      { destruct (over b1 maxBytes && default true (webpFallback64 opts))%bool.
        - apply webpFallbackBlock64_run in Hw.
          destruct Hw as (ws & -> & Hwt & Hres & Hwl).
          exists ws. repeat split; auto. intro Hf. now apply Hwl.
        - inversion Hw; subst. exists []. rewrite app_nil_r.
          repeat split; auto. simpl. lia. }
      destruct Hws as (ws & -> & Hwt & Hres & Hwl).
      unfold throw64, ret64 in Hk.
      destruct (over b2 maxBytes) eqn:Eo; inversion Hk; subst res log;
        clear Hk;
        exists js, ws; (split; [reflexivity|]); (split; [exact Hjs|]);
        (split; [exact Hwt|]).
      * split.
        -- split; [reflexivity|]. exists b1. split; [exact Hb1|].
           destruct Hres as [[-> _]|(_ & _ & Hno)]; congruence.
        -- intros k Hs Hf H6. split; [discriminate|].
           split; [exact (proj2 (Hb k Hs Hf))|auto].
      * split.
        -- cbn [blob format sizeBytes]. split; [exact Eo|].
           split; [reflexivity|].
           destruct Hres as [[-> ->]|(-> & Hp & _)].
           ++ now apply (@produced64_app_l cv js ws).
           ++ now apply (@produced64_app_r cv js ws).
        -- intros k Hs Hf H6. split; [discriminate|].
           split; [exact (proj2 (Hb k Hs Hf))|auto].
    + (* the fallback block never throws *)
      destruct (over b1 maxBytes && default true (webpFallback64 opts))%bool.
      * apply webpFallbackBlock64_run in Hw.
        destruct Hw as (ws & _ & _ & [] & _).
      * discriminate.
    + destruct (over b1 maxBytes && default true (webpFallback64 opts))%bool;
        [|discriminate].
      apply webpFallbackBlock64_run in Hw.
      destruct Hw as (ws & -> & Hwt & _ & Hwl).
      exists js, ws. split; [reflexivity|]. split; [exact Hjs|].
      split; [exact Hwt|]. split; [auto|].
      intros k Hs Hf H6. destruct (Hwl H6) as [Hnd _]. congruence.
  - (* the JPEG loop threw *)
    pose proof (Hbound _ _ Hloop) as Hb. apply qualityLoop64_run in Hloop.
    destruct Hloop as (extra & -> & Ht & [-> Hrej]).
    exists ((ImageJpeg, qs) :: extra), []. rewrite app_nil_r.
    split; [reflexivity|]. split; [constructor; auto|].
    split; [constructor|]. split.
    + now apply (@rejected64_app_r cv [(ImageJpeg, qs)] extra).
    + intros k Hs Hf H6. split; [discriminate|]. split; [|simpl; lia].
      exact (proj2 (Hb k Hs Hf)).
  - (* the JPEG loop ran out of fuel *)
    pose proof (Hbound _ _ Hloop) as Hb. apply qualityLoop64_run in Hloop.
    destruct Hloop as (extra & -> & Ht & _).
    exists ((ImageJpeg, qs) :: extra), []. rewrite app_nil_r.
    split; [reflexivity|]. split; [constructor; auto|].
    split; [constructor|]. split; [auto|].
    intros k Hs Hf H6. destruct (Hb k Hs Hf) as [Hnd _]. congruence.
Qed.

(** A loop that the subtraction does not move never ends. *)
Lemma qualityLoop64_stuck t maxB fl st q :
  over (mkBlob 400000 0) maxB = true -> ltb fl q = true ->
  Math_max64 fl (q - st)%float = q ->
  forall fuel log,
    fst (qualityLoop64 heavy_canvas64 t maxB fl st fuel q (mkBlob 400000 0)
                       log)
    = Diverged.
Proof.
  intros Ho Hq Hstep. induction fuel as [|f IH]; intro log; simpl;
    rewrite Ho, Hq; simpl; [reflexivity|].
  unfold bind64, encode64. rewrite Hstep. simpl. apply IH.
Qed.

Lemma heavy_stuck st :
  Math_max64 0.25 (0.9 - st)%float = 0.9%float ->
  forall fuel,
    fst (cropResizeToBlob64 heavy_canvas64 (qualities 0.9 st 0.25) fuel [])
    = Diverged.
Proof.
  intros Hstep fuel.
  pose proof (@qualityLoop64_stuck ImageJpeg (300 * 1024) 0.25%float st
                0.9%float eq_refl eq_refl Hstep fuel
                [(ImageJpeg, 0.9%float)]) as H.
  unfold cropResizeToBlob64.
  cbn [getContext64 createImageBitmap64 heavy_canvas64 negb qualities
       default maxBytes64 qualityStart64 qualityStep64 minQuality64
       targetSize64 webpFallback64].
  unfold bind64 at 1. unfold encode64 at 1.
  change (canvasToBlob64 heavy_canvas64 ImageJpeg 0.9%float)
    with (Some (mkBlob 400000 0)).
  cbv iota beta. cbn [app].
  unfold bind64 at 1.
  destruct (qualityLoop64 _ _ _ _ _ _ _ _ _) as [r l].
  simpl in H. subst r. reflexivity.
Qed.

(** **** C1.  A call that returns normally returns a blob within the budget
    [maxBytes] (300 * 1024 when the option is absent): [sizeBytes] is the
    size of the returned blob, that blob is the answer to one of the encode
    attempts of the call, in the returned format, and its size is at most
    [maxBytes]; a blob over the budget is never returned.  When no attempt
    of the call meets the budget, the call does not return normally: it
    throws the size-exceeded error, provided the canvas context and the
    bitmap were obtained, no JPEG [toBlob] was rejected (each of these
    fails the call with an error of its own) and the JPEG loop ends.  The
    loop does end, within [k] rounds, when the descent of the quality in
    doubles settles within [k] rounds. *)
Theorem C1_budget_or_size_error cv opts fuel res log :
  cropResizeToBlob64 cv opts fuel [] = (res, log) ->
  let maxBytes := default (300 * 1024) (maxBytes64 opts) in
  let qs := default 0.9%float (qualityStart64 opts) in
  let st := default 0.08%float (qualityStep64 opts) in
  let mq := default 0.25%float (minQuality64 opts) in
  (forall r, res = Finished r ->
     inject_Z (Z.of_N (sizeBytes r)) <= maxBytes
     /\ sizeBytes r = size (blob r)
     /\ produced64 cv log (format r) (blob r))
  /\ ((forall t q b, In (t, q) log -> canvasToBlob64 cv t q = Some b ->
         maxBytes < inject_Z (Z.of_N (size b))) ->
      match res with
      | Finished _ => False
      | Raised NoContext => getContext64 cv = false /\ log = []
      | Raised BitmapFailed => createImageBitmap64 cv = false /\ log = []
      | Raised ToBlobFailed => rejected64 cv log ImageJpeg
      | Raised (SizeExceeded kb) => kb = maxBytes / 1024
      | Diverged => True
      end
      /\ (getContext64 cv = true -> createImageBitmap64 cv = true ->
          ~ rejected64 cv log ImageJpeg -> res <> Diverged ->
          res = Raised (SizeExceeded (maxBytes / 1024))))
  /\ (forall k, settles mq st k qs = true -> (k <= fuel)%nat ->
      (6 <= fuel)%nat -> res <> Diverged).
Proof.
  intros Hrun maxBytes qs st mq.
  destruct (cropResizeToBlob64_run _ _ _ Hrun)
    as (js & ws & Hlog & Hjs & Hws & Hres & Hterm).
  fold maxBytes qs st mq in Hres, Hterm.
  split; [|split].
  - intros r ->. destruct Hres as (Ho & Hs & Hp).
    rewrite Hs. apply over_false in Ho. auto.
  - intro Hall.
    assert (Hexit : match res with
                    | Finished _ => False
                    | Raised NoContext => getContext64 cv = false /\ log = []
                    | Raised BitmapFailed =>
                        createImageBitmap64 cv = false /\ log = []
                    | Raised ToBlobFailed => rejected64 cv log ImageJpeg
                    | Raised (SizeExceeded kb) => kb = maxBytes / 1024
                    | Diverged => True
                    end).
    { destruct res as [r|e|]; [| |exact I].
      - destruct Hres as (Ho & _ & (q & Hin & Hq)).
        apply over_false in Ho. specialize (Hall _ _ _ Hin Hq). lra.
      - destruct e as [| | |kb]; auto.
        + rewrite Hlog. now apply rejected64_app_l.
        + now destruct Hres. }
    split; [exact Hexit|].
    intros Hctx Hbm Hrej Hnd.
    destruct res as [r|e|]; [destruct Hexit| |now destruct Hnd].
    destruct e as [| | |kb].
    + destruct Hexit. congruence.
    + destruct Hexit. congruence.
    + now destruct Hrej.
    + now rewrite Hexit.
  - intros k Hs Hf H6. now destruct (Hterm k Hs Hf H6).
Qed.

Lemma heavy_over t q b :
  In (t, q) (snd (cropResizeToBlob64 heavy_canvas64 no_opts64 9 [])) ->
  canvasToBlob64 heavy_canvas64 t q = Some b ->
  300 * 1024 < inject_Z (Z.of_N (size b)).
Proof. intros _ H. inversion H; subst. reflexivity. Qed.

Lemma heavy_answers log t : ~ rejected64 heavy_canvas64 log t.
Proof. intros (q & _ & H). discriminate. Qed.

Lemma C1_budget_or_size_error_witness :
  (cropResizeToBlob64 stepped_canvas64 no_opts64 9 []
   = (Finished (mkEncoded (mkBlob 296000 0) ImageJpeg 128 128 296000),
      [(ImageJpeg, 0.9%float); (ImageJpeg, (0.9 - 0.08)%float);
       (ImageJpeg, (0.9 - 0.08 - 0.08)%float)])
   /\ inject_Z (Z.of_N 296000) <= 300 * 1024)
  /\ fst (cropResizeToBlob64 heavy_canvas64 no_opts64 9 [])
     = Raised (SizeExceeded (300 * 1024 / 1024)).
Proof.
  assert (E : cropResizeToBlob64 stepped_canvas64 no_opts64 9 []
              = (Finished (mkEncoded (mkBlob 296000 0) ImageJpeg 128 128
                                     296000),
                 [(ImageJpeg, 0.9%float); (ImageJpeg, (0.9 - 0.08)%float);
                  (ImageJpeg, (0.9 - 0.08 - 0.08)%float)]))
    by (vm_compute; reflexivity).
  split.
  - split; [exact E|].
    destruct (C1_budget_or_size_error _ _ _ E) as (H & _ & _).
    exact (proj1 (H _ eq_refl)).
  - destruct (C1_budget_or_size_error heavy_canvas64 no_opts64 9
                (surjective_pairing _)) as (_ & H2 & H3).
    apply (proj2 (H2 heavy_over)); try reflexivity.
    + apply heavy_answers.
    + apply (H3 9%nat (proj1 default_settles)); repeat constructor.
Defined.

(** C1 fails as stated: no attempt meeting the budget does not make the
    call fail with the size-exceeded error.  A canvas whose first JPEG
    [toBlob] gives no blob makes the call fail with the toBlob error.  And
    on a canvas that encodes to 400000 bytes at every quality, over the
    default budget, a call with [qualityStep] 0 stays in its JPEG loop: it
    neither returns nor fails, whatever the number of rounds allowed. *)
Lemma C1_no_size_error :
  cropResizeToBlob64 deaf_canvas64 no_opts64 9 []
  = (Raised ToBlobFailed, [(ImageJpeg, 0.9%float)])
  /\ canvasToBlob64 deaf_canvas64 ImageJpeg 0.9%float = None
  /\ (forall t q b, canvasToBlob64 heavy_canvas64 t q = Some b ->
        300 * 1024 < inject_Z (Z.of_N (size b)))
  /\ (forall fuel,
        fst (cropResizeToBlob64 heavy_canvas64 (qualities 0.9 0 0.25) fuel [])
        = Diverged).
Proof.
  split; [reflexivity|]. split; [reflexivity|]. split.
  - intros t q b H. inversion H; subst. reflexivity.
  - apply heavy_stuck. vm_compute. reflexivity.
Qed.

(** With the default options and every encoding over the budget, the call
    ends with the size-exceeded error after 10 JPEG and 7 WebP attempts. *)
Example heavy_canvas64_fails :
  fst (cropResizeToBlob64 heavy_canvas64 no_opts64 9 [])
  = Raised (SizeExceeded (307200 # 1024))
  /\ attempts64 ImageJpeg (snd (cropResizeToBlob64 heavy_canvas64 no_opts64 9 []))
     = 10%nat
  /\ attempts64 ImageWebp (snd (cropResizeToBlob64 heavy_canvas64 no_opts64 9 []))
     = 7%nat.
Proof. vm_compute. auto. Qed.

(** **** C10.  The quality search ends whenever the descent of the quality
    in doubles, [quality = Math.max(minQuality, quality - qualityStep)] from
    [qualityStart], settles: if within [k] rounds it comes to a quality that
    is not above [minQuality], then, given fuel for [k] rounds (and for the
    6 rounds of the WebP loop), the call does not run out of it, the JPEG
    encode is attempted at most [1 + k] times and the WebP encode, with its
    fixed start 0.9, step 0.12 and floor 0.25, at most 7 times.  With the
    default options the descent settles in 9 rounds: at most 10 JPEG
    attempts. *)
Theorem C10_quality_search_terminates cv opts fuel res log :
  let qs := default 0.9%float (qualityStart64 opts) in
  let st := default 0.08%float (qualityStep64 opts) in
  let mq := default 0.25%float (minQuality64 opts) in
  (6 <= fuel)%nat ->
  cropResizeToBlob64 cv opts fuel [] = (res, log) ->
  (forall k, settles mq st k qs = true -> (k <= fuel)%nat ->
     res <> Diverged
     /\ (attempts64 ImageJpeg log <= 1 + k)%nat
     /\ (attempts64 ImageWebp log <= 7)%nat)
  /\ (qualityStart64 opts = None -> qualityStep64 opts = None ->
      minQuality64 opts = None -> (9 <= fuel)%nat ->
      res <> Diverged
      /\ (attempts64 ImageJpeg log <= 10)%nat
      /\ (attempts64 ImageWebp log <= 7)%nat).
Proof.
  intros qs st mq H6 Hrun.
  destruct (cropResizeToBlob64_run _ _ _ Hrun)
    as (js & ws & -> & Hjs & Hws & _ & Hterm).
  fold qs st mq in Hterm.
  destruct (attempts64_split Hjs Hws) as [E1 E2]. unfold Attempt64 in *.
  rewrite E1, E2.
  assert (Hgen : forall k, settles mq st k qs = true -> (k <= fuel)%nat ->
                 res <> Diverged /\ (length js <= 1 + k)%nat
                 /\ (length ws <= 7)%nat).
  { intros k Hs Hf. exact (Hterm k Hs Hf H6). }
  split; [exact Hgen|].
  intros Es Et Em H9. apply (Hgen 9%nat); [|exact H9].
  subst qs st mq. rewrite Es, Et, Em. exact (proj1 default_settles).
Qed.

Lemma C10_quality_search_terminates_witness :
  settles 0.25 0.08 9 0.9 = true
  /\ (fst (cropResizeToBlob64 heavy_canvas64 no_opts64 9 []) <> Diverged
      /\ (attempts64 ImageJpeg
            (snd (cropResizeToBlob64 heavy_canvas64 no_opts64 9 []))
          <= 1 + 9)%nat
      /\ (attempts64 ImageWebp
            (snd (cropResizeToBlob64 heavy_canvas64 no_opts64 9 []))
          <= 7)%nat)
  /\ (fst (cropResizeToBlob64 stepped_canvas64 no_opts64 9 []) <> Diverged
      /\ (attempts64 ImageJpeg
            (snd (cropResizeToBlob64 stepped_canvas64 no_opts64 9 []))
          <= 10)%nat
      /\ (attempts64 ImageWebp
            (snd (cropResizeToBlob64 stepped_canvas64 no_opts64 9 []))
          <= 7)%nat).
Proof.
  split; [exact (proj1 default_settles)|]. split.
  - apply (proj1 (@C10_quality_search_terminates heavy_canvas64 no_opts64 9
                    _ _ (le_S _ _ (le_S _ _ (le_S _ _ (le_n 6))))
                    (surjective_pairing _)) 9%nat
                 (proj1 default_settles) (le_n 9)).
  - apply (proj2 (@C10_quality_search_terminates stepped_canvas64 no_opts64 9
                    _ _ (le_S _ _ (le_S _ _ (le_S _ _ (le_n 6))))
                    (surjective_pairing _))
                 eq_refl eq_refl eq_refl (le_n 9)).
Defined.

(** C10 fails as stated.  With [qualityStart] 0.2, [qualityStep] 0.05 and
    [minQuality] 0.1 the step is positive and the start is not below the
    floor, and the bound [1 + ceil((0.2 - 0.1) / 0.05)] is 3; but in doubles
    0.2 - 0.05 - 0.05 is 0.10000000000000002, still above 0.1, so on a
    canvas that never meets the budget the JPEG encode is attempted 4
    times.  And with [qualityStep] 1e-17, positive, 0.9 - 1e-17 is 0.9: the
    quality does not decrease and the loop never ends. *)
Lemma C10_rounding_adds_a_round :
  ltb 0 0.05 = true /\ leb 0.1 0.2 = true
  /\ (1 + Qceiling ((0.2 - 0.1) / 0.05))%Z = 3%Z
  /\ fst (cropResizeToBlob64 heavy_canvas64 (qualities 0.2 0.05 0.1) 9 [])
     = Raised (SizeExceeded (307200 # 1024))
  /\ attempts64 ImageJpeg
       (snd (cropResizeToBlob64 heavy_canvas64 (qualities 0.2 0.05 0.1) 9 []))
     = 4%nat
  /\ ltb 0 1e-17 = true /\ leb 0.25 0.9 = true
  /\ (forall fuel,
        fst (cropResizeToBlob64 heavy_canvas64 (qualities 0.9 1e-17 0.25)
                                fuel [])
        = Diverged).
Proof.
  repeat (split; [vm_compute; reflexivity|]).
  apply heavy_stuck. vm_compute. reflexivity.
Qed.

(** The descents behind these counts: three rounds where the closed form
    gives two, and seven where it gives six. *)
Example descents_in_doubles :
  settles 0.1 0.05 2 0.2 = false /\ settles 0.1 0.05 3 0.2 = true
  /\ settles 0.3 0.1 6 0.9 = false /\ settles 0.3 0.1 7 0.9 = true
  /\ (0.2 - 0.05 - 0.05)%float = 0.10000000000000002%float
  /\ (0.9 - 1e-17)%float = 0.9%float.
Proof. repeat split; vm_compute; reflexivity. Qed.

End Encoder64Facts.
(** ** The capture cycle *)

Module OrchestratorFacts.

Import Orchestrator.

(** Whatever the [try] and [catch] blocks do, the [finally] block leaves
    the guard clear. *)
Lemma finally_clears_guard (body : M unit) (handler : JsError -> M unit) s :
  isUploadingRef
    (snd (try_catch_finally body handler (set_isUploadingRef false) s))
  = false.
Proof.
  unfold try_catch_finally.
  destruct (body s) as [c1 s1].
  destruct (match c1 with
            | Throw e => handler e s1
            | _ => (c1, s1)
            end) as [c2 s2].
  reflexivity.
Qed.

Lemma captureAndProcess_busy env ctx st s :
  isUploadingRef s = true ->
  captureAndProcess env ctx st s = (Return, s).
Proof. intro H. unfold captureAndProcess. now rewrite H. Qed.

Lemma captureAndProcess_clears env ctx st s :
  isUploadingRef s = false ->
  isUploadingRef (snd (captureAndProcess env ctx st s)) = false.
Proof.
  intro H. unfold captureAndProcess. rewrite H.
  apply finally_clears_guard.
Qed.

Lemma trace_guard ticks :
  forall s, isUploadingRef s = false ->
    Forall (fun s' => isUploadingRef s' = false) (trace ticks s).
Proof.
  induction ticks as [|t ticks IH]; intros s Hs; simpl.
  - now constructor.
  - constructor; [exact Hs|]. apply IH.
    unfold cycle. now apply captureAndProcess_clears.
Qed.

(** *** Calls that overlap

    Between two [await]s a call runs alone; the guard is read and set in
    the first such stretch, and cleared in the last. *)

Lemma advance_done st seg s s' :
  advance st seg s = (s', None) -> isUploadingRef s' = false.
Proof.
  unfold advance. destruct (seg s) as [[[p|]| |e] s1]; intro H;
    inversion H; subst; try reflexivity;
    apply finally_clears_guard.
Qed.

Lemma segment_start_suspends env s p s' :
  segment_start env s = (Normal (Some p), s') -> isUploadingRef s' = true.
Proof.
  unfold segment_start, bind, setError, set_isUploadingRef, return_, ret.
  destruct (largest (videos env)) as [v|]; [|discriminate].
  destruct (readyState v <? 2)%Z; [discriminate|].
  intro H. inversion H; subst. reflexivity.
Qed.

Lemma segment_suspends env ctx st p s p' s' :
  segment env ctx st p s = (Normal (Some p'), s') ->
  isUploadingRef s' = isUploadingRef s.
Proof.
  destruct p as [v|source|source dets|faces]; simpl;
    unfold bind, await, setStatus, set_isUploadingRef, return_, ret.
  - destruct (createImageBitmap env v); [|discriminate].
    intro H. inversion H; subst. reflexivity.
  - destruct (detectFaces env source) as [bboxes|]; [|discriminate].
    destruct (length bboxes =? 0)%nat; [discriminate|].
    intro H. inversion H; subst. reflexivity.
  - destruct (length (processedFaces env source dets) =? 0)%nat;
      [discriminate|].
    intro H. inversion H; subst. reflexivity.
  - destruct (analyzeFaces env faces ctx) as [r|]; [|discriminate].
    unfold setEmotions, setLastUpload, setMessages, setIsStarting.
    destruct st; discriminate.
Qed.

Lemma advance_suspended st seg s s' p :
  advance st seg s = (s', Some p) -> seg s = (Normal (Some p), s').
Proof.
  unfold advance. destruct (seg s) as [[[p0|]| |e] s1]; intro H;
    inversion H; subst; reflexivity.
Qed.

Lemma call_start_guard env st s s' o :
  isUploadingRef s = false ->
  call_start env st s = (s', o) ->
  isUploadingRef s' = match o with Some _ => true | None => false end.
Proof.
  intros Hs. unfold call_start. rewrite Hs. destruct o as [p|]; intro H.
  - apply advance_suspended in H. now apply segment_start_suspends in H.
  - now apply advance_done in H.
Qed.

Lemma call_resume_guard env ctx st p s s' o :
  isUploadingRef s = true ->
  call_resume env ctx st p s = (s', o) ->
  isUploadingRef s' = match o with Some _ => true | None => false end.
Proof.
  intros Hs. unfold call_resume. destruct o as [p'|]; intro H.
  - apply advance_suspended in H. apply segment_suspends in H. congruence.
  - now apply advance_done in H.
Qed.

Lemma step_guard w w' :
  guard_held_by_one w -> step w w' -> guard_held_by_one w'.
Proof.
  intros Hw Hstep. destruct Hstep as [env ctx st s fl|env s before f after];
    unfold guard_held_by_one in *; simpl in *.
  - destruct Hw as [[Hg Hl]|[Hg ->]].
    + unfold call_start. rewrite Hg. simpl. left. auto.
    + destruct (call_start env st s) as [s' o] eqn:E.
      pose proof (@call_start_guard env st s s' o Hg E) as Hg'.
      destruct o; simpl; [left|right]; auto.
  - destruct Hw as [[Hg Hl]|[Hg Hnil]].
    + rewrite length_app in Hl. simpl in Hl.
      assert (Hb : before = []) by (destruct before; [reflexivity|simpl in Hl; lia]).
      assert (Ha : after = []) by (destruct after; [reflexivity|simpl in Hl; lia]).
      subst. simpl.
      destruct (call_resume env (flight_context f) (flight_isStarting f)
                            (flight_pending f) s) as [s' o] eqn:E.
      pose proof (@call_resume_guard env _ _ _ s s' o Hg E) as Hg'.
      destruct o; simpl; [left|right]; auto.
    + destruct before; discriminate.
Qed.

Lemma reachable_guard w : reachable w -> guard_held_by_one w.
Proof.
  induction 1 as [|w w' _ IH Hstep].
  - right. split; reflexivity.
  - exact (step_guard IH Hstep).
Qed.

Ltac unfold_cycle :=
  cbv beta iota zeta delta
      [captureAndProcess call_start call_resume drive advance segment
       segment_start cycle_body cycle_catch try_catch_finally
       bind ret return_ await get_message
       setError set_isUploadingRef setStatus setEmotions setLastUpload
       setMessages setIsStarting snd fst
       isUploadingRef status error emotions lastUpload messages isStarting].

Ltac split_cycle :=
  repeat (unfold_cycle;
          match goal with
          | |- context [largest ?vs] => destruct (largest vs) eqn:?
          | |- context [(readyState ?v <? 2)%Z] =>
              destruct (readyState v <? 2)%Z eqn:?
          | |- context [createImageBitmap ?e ?v] =>
              destruct (createImageBitmap e v) as [?|[|?]] eqn:?
          | |- context [detectFaces ?e ?x] =>
              destruct (detectFaces e x) as [?|[|?]] eqn:?
          | |- context [(length ?l =? 0)%nat] =>
              destruct (length l =? 0)%nat eqn:?
          | |- context [analyzeFaces ?e ?f ?c] =>
              destruct (analyzeFaces e f c) as [?|[|?]] eqn:?
          end);
  unfold_cycle.

(** The status a cycle leaves, by the exit it takes; a cycle whose [catch]
    block throws has not come to set it. *)
Lemma exit_status env ctx st s :
  fst (captureAndProcess env ctx st s) <> Throw type_error ->
  status (snd (captureAndProcess env ctx st s))
  = match exit_of env ctx s with
    | BusySkip | NoVideo => status s
    | NoFaces | NoEncodedFaces | Uploaded => Idle
    | Errored => Error
    end.
Proof.
  destruct s as [g sta err emo lu msgs ist]. unfold exit_of.
  destruct g, st; split_cycle; intro Hn; try reflexivity;
    now destruct Hn.
Qed.

(** The call lets an exception out exactly when its [catch] block is
    entered with [undefined] or [null]: the TypeError of [e.message]. *)
Lemma captureAndProcess_throws env ctx st s e :
  fst (captureAndProcess env ctx st s) = Throw e
  <-> caught env ctx s = Some Nullish /\ e = type_error.
Proof.
  destruct s as [g sta err emo lu msgs ist]. unfold caught.
  destruct g, st; split_cycle;
    (split; [intro H; inversion H; auto|intros [H ->]; inversion H; auto]).
Qed.

(** Run without interruption, the segments are the callback. *)
Lemma drive_sequential env ctx st s :
  snd (captureAndProcess env ctx st s)
  = drive 4 env ctx st (call_start env st s).
Proof.
  destruct s as [g sta err emo lu msgs ist]. destruct g, st;
    split_cycle; reflexivity.
Qed.

(** **** C7.  A cycle entered with the in-flight guard clear ends with the
    guard clear whichever exit it takes: no usable video, no boxes, no
    encoded face, upload done, an error thrown at any step, and also when
    the [catch] block itself throws.  That last exit is taken when the
    rejected value is [undefined] or [null]: reading [e.message] throws a
    TypeError, the [finally] block clears the guard, and the TypeError
    leaves the call; it is the only exception a call lets out.  Hence in any
    run of consecutive cycles from a state with the guard clear, the guard
    is clear before and after every cycle.  The busy-skip exit is the one
    taken when the guard is already set on entry, by a cycle still in
    flight; it returns at once and leaves the state, guard included, to that
    cycle.  When calls overlap, started at any moment and resumed in any
    order, the guard is set exactly while one call is in flight, and clear
    whenever none is. *)
Theorem C7_guard_released env ctx st s :
  (isUploadingRef s = false ->
   isUploadingRef (snd (captureAndProcess env ctx st s)) = false
   /\ exit_of env ctx s <> BusySkip)
  /\ (forall e,
        fst (captureAndProcess env ctx st s) = Throw e ->
        caught env ctx s = Some Nullish /\ e = type_error
        /\ isUploadingRef (snd (captureAndProcess env ctx st s)) = false)
  /\ (caught env ctx s = Some Nullish ->
      fst (captureAndProcess env ctx st s) = Throw type_error
      /\ isUploadingRef (snd (captureAndProcess env ctx st s)) = false)
  /\ (forall ticks,
        isUploadingRef s = false ->
        Forall (fun s' => isUploadingRef s' = false) (trace ticks s))
  /\ (isUploadingRef s = true ->
      captureAndProcess env ctx st s = (Return, s)
      /\ exit_of env ctx s = BusySkip)
  /\ (forall w, reachable w -> guard_held_by_one w).
Proof.
  assert (Hentry : forall e, caught env ctx s = Some e ->
                             isUploadingRef s = false).
  { intros e. unfold caught. destruct (isUploadingRef s); [discriminate|].
    reflexivity. }
  split; [|split; [|split; [|split; [|split]]]].
  - intro H. split; [now apply captureAndProcess_clears|].
    unfold exit_of. rewrite H.
    destruct (largest (videos env)) as [v|]; [|discriminate].
    destruct (readyState v <? 2)%Z; [discriminate|].
    destruct (createImageBitmap env v) as [source|]; [|discriminate].
    destruct (detectFaces env source) as [bboxes|]; [|discriminate].
    destruct (length bboxes =? 0)%nat; [discriminate|].
    destruct (length _ =? 0)%nat; [discriminate|].
    destruct (analyzeFaces env _ ctx); discriminate.
  - intros e He. apply captureAndProcess_throws in He.
    destruct He as [Hc ->]. repeat split; auto.
    apply captureAndProcess_clears. exact (Hentry _ Hc).
  - intro Hc. split.
    + apply captureAndProcess_throws. auto.
    + apply captureAndProcess_clears. exact (Hentry _ Hc).
  - intros ticks H. now apply trace_guard.
  - intro H. split; [now apply captureAndProcess_busy|].
    unfold exit_of. now rewrite H.
  - exact reachable_guard.
Qed.

(** Every exit is taken by some world, from the initial state, and leaves
    the guard clear. *)
Example exits_from_initial_state :
  map (fun env =>
         let s' := snd (captureAndProcess env some_context true initial_state) in
         (exit_of env some_context initial_state, isUploadingRef s', status s'))
      [world_no_video; world_no_faces; world_detector_throws;
       world_no_encoded; world_upload_fails; world_uploads;
       world_detector_rejects_undefined]
  = [(NoVideo, false, Initializing); (NoFaces, false, Idle);
     (Errored, false, Error); (NoEncodedFaces, false, Idle);
     (Errored, false, Error); (Uploaded, false, Idle);
     (Errored, false, Detecting)].
Proof. vm_compute. reflexivity. Qed.

(** A detector that rejects with [undefined]: the [catch] block throws at
    [e.message], so the call rejects with the TypeError; no error text is
    set, the status stays at [Detecting] and [isStarting] as it was, and the
    guard is clear. *)
Example catch_block_throws :
  captureAndProcess world_detector_rejects_undefined some_context true
                    (mkState false Idle None None None [] true)
  = (Throw type_error, mkState false Detecting None None None [] true).
Proof. reflexivity. Qed.

(** Two calls that overlap: the first is suspended at its first [await]
    with the guard set, the second skips and changes nothing, and the first,
    resumed to its end, clears the guard. *)
Example overlapping_calls :
  let first := call_start world_uploads true initial_state in
  snd first = Some (AwaitBitmap a_video)
  /\ isUploadingRef (fst first) = true
  /\ captureAndProcess world_uploads some_context true (fst first)
     = (Return, fst first)
  /\ isUploadingRef (drive 4 world_uploads some_context true first) = false.
Proof. vm_compute. auto. Qed.

Lemma C7_guard_released_witness :
  isUploadingRef
    (snd (captureAndProcess world_upload_fails some_context true initial_state))
  = false
  /\ (fst (captureAndProcess world_detector_rejects_undefined some_context
                             true initial_state)
      = Throw type_error
      /\ isUploadingRef
           (snd (captureAndProcess world_detector_rejects_undefined
                                   some_context true initial_state))
         = false)
  /\ Forall (fun s' => isUploadingRef s' = false)
            (trace [mkTick world_upload_fails some_context true;
                    mkTick world_detector_rejects_undefined some_context
                           false;
                    mkTick world_uploads some_context false]
                   initial_state).
Proof.
  destruct (C7_guard_released world_upload_fails some_context true
                              initial_state)
    as (H1 & _ & _ & H4 & _ & _).
  destruct (C7_guard_released world_detector_rejects_undefined some_context
                              true initial_state)
    as (_ & _ & H3 & _ & _ & _).
  split; [exact (proj1 (H1 eq_refl))|].
  split; [exact (H3 eq_refl)|].
  exact (H4 _ eq_refl).
Defined.

End OrchestratorFacts.

(** ** More of detectionService.ts: overlap, suppression, grid, session *)

Module ServiceFacts.

Import Detection Spec JsFacts GridFacts NmsFacts DecodeFacts.

(** *** The overlap measure *)

Lemma iou_nonneg a b : 0 <= iou a b.
Proof.
rewrite iou_unfold.
destruct (Js.leb (intersectionArea a b) 0) eqn:E1; [lra|].
destruct (Js.leb (unionArea a b) 0) eqn:E2; [lra|].
apply leb_gt in E1. apply leb_gt in E2.
apply Qle_shift_div_l; [exact E2|]. lra.
Qed.

(** **** X1.  [iou] is never negative, and it does not depend on the order
    of the two boxes. *)
Theorem iou_nonneg_sym (a b : BoundingBox) :
  0 <= iou a b /\ iou a b == iou b a.
Proof. split; [apply iou_nonneg|apply iou_sym]. Qed.

Lemma overlap_apart lo1 hi1 lo2 hi2 :
  hi1 <= lo2 \/ hi2 <= lo1 -> Qmax 0 (Qmin hi1 hi2 - Qmax lo1 lo2) == 0.
Proof.
intro H. apply Q.max_l.
pose proof (Q.le_min_l hi1 hi2). pose proof (Q.le_min_r hi1 hi2).
pose proof (Q.le_max_l lo1 lo2). pose proof (Q.le_max_r lo1 lo2).
destruct H; lra.
Qed.

(** **** X2.  Two boxes of which one ends where the other begins or before,
    to the left or to the right, above or below, have IoU 0. *)
Theorem iou_apart (a b : BoundingBox) :
  x a + w a <= x b \/ x b + w b <= x a
  \/ y a + h a <= y b \/ y b + h b <= y a ->
  iou a b = 0.
Proof.
intro Hapart.
assert (HI : intersectionArea a b == 0).
{ unfold intersectionArea.
  destruct Hapart as [H|[H|[H|H]]].
  - rewrite (@overlap_apart (x a) (x a + w a) (x b) (x b + w b)) by auto.
    ring.
  - rewrite (@overlap_apart (x a) (x a + w a) (x b) (x b + w b)) by auto.
    ring.
  - rewrite (@overlap_apart (y a) (y a + h a) (y b) (y b + h b)) by auto.
    ring.
  - rewrite (@overlap_apart (y a) (y a + h a) (y b) (y b + h b)) by auto.
    ring. }
rewrite iou_unfold.
destruct (Js.leb (intersectionArea a b) 0) eqn:E1; [reflexivity|].
apply leb_gt in E1. lra.
Qed.

Lemma iou_apart_witness :
  (x Sample.box_09 + w Sample.box_09 <= x Sample.box_far
   \/ x Sample.box_far + w Sample.box_far <= x Sample.box_09
   \/ y Sample.box_09 + h Sample.box_09 <= y Sample.box_far
   \/ y Sample.box_far + h Sample.box_far <= y Sample.box_09)
  /\ iou Sample.box_09 Sample.box_far = 0.
Proof.
assert (H : x Sample.box_09 + w Sample.box_09 <= x Sample.box_far
            \/ x Sample.box_far + w Sample.box_far <= x Sample.box_09
            \/ y Sample.box_09 + h Sample.box_09 <= y Sample.box_far
            \/ y Sample.box_far + h Sample.box_far <= y Sample.box_09)
  by (left; vm_compute; discriminate).
split; [exact H|]. exact (iou_apart Sample.box_09 Sample.box_far H).
Defined.

(** *** Suppression *)

Lemma nms_while_prefix fuel thr : forall sorted sel,
  exists tail, nms_while fuel thr sorted sel = sel ++ tail
               /\ (length tail <= length sorted)%nat.
Proof.
induction fuel as [|f IH]; intros sorted sel.
- exists []. destruct sorted; simpl; rewrite app_nil_r; split; auto; lia.
- destruct sorted as [|cur rest].
  + exists []. simpl. rewrite app_nil_r. split; auto.
  + rewrite nms_while_step.
    destruct (IH (filter (survives thr cur) rest) (sel ++ [cur]))
      as [t [Ht Hl]].
    exists (cur :: t). rewrite Ht, <- app_assoc. split; [reflexivity|].
    simpl. pose proof (filter_length_le (survives thr cur) rest). lia.
Qed.

Lemma nonMaxSuppression_length boxes thr :
  (length (nonMaxSuppression boxes thr) <= length boxes)%nat.
Proof.
unfold nonMaxSuppression. destruct (length boxes <=? 1)%nat; [lia|].
cbv zeta.
destruct (nms_while_prefix (length (Js.Array_sort by_confidence_desc boxes))
            thr (Js.Array_sort by_confidence_desc boxes) []) as [t [-> Ht]].
rewrite Array_sort_length in Ht. exact Ht.
Qed.

Lemma StronglySorted_head_max (l : list BoundingBox) a :
  StronglySorted conf_ge (a :: l) -> forall b, In b (a :: l) -> conf_ge a b.
Proof.
intros Hs b [<-|Hb].
- unfold conf_ge. lra.
- apply StronglySorted_inv in Hs. destruct Hs as [_ Hall].
  rewrite Forall_forall in Hall. auto.
Qed.

(** **** X3.  [nonMaxSuppression] of a non-empty array returns a non-empty
    array that begins with a box of the greatest confidence of the input;
    the result is in descending order of confidence and is no longer than
    the input. *)
Theorem nms_keeps_best (boxes : list BoundingBox) (thr : Q) :
  boxes <> [] ->
  StronglySorted conf_ge (nonMaxSuppression boxes thr)
  /\ (length (nonMaxSuppression boxes thr) <= length boxes)%nat
  /\ exists best rest,
       nonMaxSuppression boxes thr = best :: rest
       /\ In best boxes
       /\ forall b, In b boxes -> confidence b <= confidence best.
Proof.
intro Hne. split; [|split; [apply nonMaxSuppression_length|]].
- unfold nonMaxSuppression.
  destruct (length boxes <=? 1)%nat eqn:E.
  + apply Nat.leb_le in E.
    destruct boxes as [|b [|c l]]; [congruence| |simpl in E; lia].
    repeat constructor.
  + cbv zeta. apply nms_while_conf. apply Array_sort_conf.
- unfold nonMaxSuppression.
  destruct (length boxes <=? 1)%nat eqn:E.
  + apply Nat.leb_le in E.
    destruct boxes as [|b [|c l]]; [congruence| |simpl in E; lia].
    exists b, []. split; [reflexivity|]. split; [left; reflexivity|].
    intros b' [<-|[]]. lra.
  + apply Nat.leb_gt in E. cbv zeta.
    set (sorted := Js.Array_sort by_confidence_desc boxes).
    assert (Hs : StronglySorted conf_ge sorted) by apply Array_sort_conf.
    assert (Hl : length sorted = length boxes) by apply Array_sort_length.
    assert (Hin : forall b, In b boxes <-> In b sorted).
    { intro b. unfold sorted. symmetry. apply Array_sort_In. }
    destruct sorted as [|cur rest]; [simpl in Hl; lia|].
    cbn [length]. rewrite nms_while_step.
    destruct (nms_while_prefix (length rest) thr
                (filter (survives thr cur) rest) ([] ++ [cur]))
      as [t' [Ht' _]].
    exists cur, t'. split; [exact Ht'|].
    split; [apply Hin; left; reflexivity|].
    intros b Hb. apply Hin in Hb.
    exact (StronglySorted_head_max Hs Hb).
Qed.

Lemma nms_keeps_best_witness :
  let boxes := [Sample.box_08; Sample.box_far; Sample.box_09] in
  StronglySorted conf_ge (nonMaxSuppression boxes NMS_THRESHOLD)
  /\ (length (nonMaxSuppression boxes NMS_THRESHOLD) <= length boxes)%nat
  /\ exists best rest,
       nonMaxSuppression boxes NMS_THRESHOLD = best :: rest
       /\ In best boxes
       /\ forall b, In b boxes -> confidence b <= confidence best.
Proof.
apply (@nms_keeps_best [Sample.box_08; Sample.box_far; Sample.box_09]
                       NMS_THRESHOLD).
discriminate.
Defined.

Lemma nms_while_cover thr fuel : forall sorted sel,
  (length sorted <= fuel)%nat ->
  StronglySorted conf_ge sorted ->
  forall b, In b sel \/ In b sorted ->
    In b (nms_while fuel thr sorted sel)
    \/ exists k, In k (nms_while fuel thr sorted sel)
                 /\ confidence b <= confidence k /\ thr < iou k b.
Proof.
induction fuel as [|f IH]; intros sorted sel Hf Hs b Hb.
- destruct sorted; [|simpl in Hf; lia]. simpl. left.
  destruct Hb as [Hb|[]]. exact Hb.
- destruct sorted as [|cur rest].
  + simpl. left. destruct Hb as [Hb|[]]. exact Hb.
  + rewrite nms_while_step.
    assert (Hs' : StronglySorted conf_ge (filter (survives thr cur) rest)).
    { apply StronglySorted_filter. now apply StronglySorted_inv in Hs. }
    assert (Hf' : (length (filter (survives thr cur) rest) <= f)%nat).
    { pose proof (filter_length_le (survives thr cur) rest).
      simpl in Hf. lia. }
    assert (Hcur : In cur (nms_while f thr (filter (survives thr cur) rest)
                                     (sel ++ [cur]))).
    { destruct (nms_while_prefix f thr (filter (survives thr cur) rest)
                                 (sel ++ [cur])) as [t [-> _]].
      apply in_or_app. left. apply in_or_app. right. left. reflexivity. }
    destruct Hb as [Hb|[<-|Hb]].
    * apply IH; auto. left. apply in_or_app. now left.
    * left. exact Hcur.
    * destruct (survives thr cur b) eqn:Esv.
      -- apply IH; auto. right. apply filter_In. split; assumption.
      -- right. exists cur. split; [exact Hcur|]. split.
         ++ apply (StronglySorted_head_max Hs). now right.
         ++ unfold survives in Esv. apply negb_false_iff in Esv.
            now apply gtb_gt in Esv.
Qed.

(** **** X4.  Nothing is dropped without cause: every box given to
    [nonMaxSuppression] is in the result, or overlaps beyond the threshold
    a box of the result whose confidence is at least its own. *)
Theorem nms_covers (boxes : list BoundingBox) (thr : Q) (b : BoundingBox) :
  In b boxes ->
  In b (nonMaxSuppression boxes thr)
  \/ exists k, In k (nonMaxSuppression boxes thr)
               /\ confidence b <= confidence k /\ thr < iou k b.
Proof.
intro Hb. unfold nonMaxSuppression.
destruct (length boxes <=? 1)%nat; [left; exact Hb|]. cbv zeta.
apply nms_while_cover.
- lia.
- apply Array_sort_conf.
- right. now apply Array_sort_In.
Qed.

Lemma nms_covers_witness :
  let boxes := [Sample.box_08; Sample.box_far; Sample.box_09] in
  In Sample.box_08 (nonMaxSuppression boxes NMS_THRESHOLD)
  \/ exists k, In k (nonMaxSuppression boxes NMS_THRESHOLD)
               /\ confidence Sample.box_08 <= confidence k
               /\ NMS_THRESHOLD < iou k Sample.box_08.
Proof.
apply (@nms_covers [Sample.box_08; Sample.box_far; Sample.box_09]
                   NMS_THRESHOLD Sample.box_08).
left. reflexivity.
Defined.

Lemma sort_insert_Permutation {A : Type} (cmp : A -> A -> Q) a l :
  Permutation (a :: l) (Js.sort_insert cmp a l).
Proof.
induction l as [|c l IH]; simpl; [reflexivity|].
destruct (Js.gtb (cmp a c) 0); [|reflexivity].
rewrite perm_swap. now apply perm_skip.
Qed.

Lemma Array_sort_Permutation {A : Type} (cmp : A -> A -> Q) l :
  Permutation l (Js.Array_sort cmp l).
Proof.
induction l as [|a l IH]; simpl; [reflexivity|].
rewrite <- sort_insert_Permutation. now apply perm_skip.
Qed.

Lemma compatible_sym thr a b : compatible thr a b -> compatible thr b a.
Proof. unfold compatible. now rewrite (iou_sym b a). Qed.

Lemma ForallOrdPairs_insert thr a l :
  Forall (compatible thr a) l -> ForallOrdPairs (compatible thr) l ->
  ForallOrdPairs (compatible thr) (Js.sort_insert by_confidence_desc a l).
Proof.
induction l as [|c l IH]; intros Ha Hl; simpl.
- constructor; constructor.
- destruct (Js.gtb (by_confidence_desc a c) 0).
  + pose proof (Forall_inv Ha) as Hac.
    pose proof (Forall_inv_tail Ha) as Hat.
    inversion Hl as [|c' l' Hc Hl']; subst.
    constructor; [|now apply IH].
    rewrite Forall_forall. intros d Hd. apply sort_insert_In in Hd.
    destruct Hd as [->|Hd].
    * now apply compatible_sym.
    * rewrite Forall_forall in Hc. now apply Hc.
  + constructor; assumption.
Qed.

Lemma ForallOrdPairs_sort thr l :
  ForallOrdPairs (compatible thr) l ->
  ForallOrdPairs (compatible thr) (Js.Array_sort by_confidence_desc l).
Proof.
induction 1 as [|a l Ha Hl IH]; simpl; [constructor|].
apply ForallOrdPairs_insert; [|exact IH].
rewrite Forall_forall in *. intros d Hd. apply Array_sort_In in Hd. auto.
Qed.

(** **** X5.  When no two boxes of the input overlap beyond the threshold,
    [nonMaxSuppression] drops none: its result is the input rearranged. *)
Theorem nms_keeps_compatible (boxes : list BoundingBox) (thr : Q) :
  ForallOrdPairs (compatible thr) boxes ->
  Permutation boxes (nonMaxSuppression boxes thr).
Proof.
intro Hp. unfold nonMaxSuppression.
destruct (length boxes <=? 1)%nat; [reflexivity|]. cbv zeta.
rewrite nms_while_compatible by now apply ForallOrdPairs_sort.
simpl. apply Array_sort_Permutation.
Qed.

Lemma nms_keeps_compatible_witness :
  Permutation [Sample.box_far; Sample.box_09]
              (nonMaxSuppression [Sample.box_far; Sample.box_09]
                                 NMS_THRESHOLD).
Proof.
apply (@nms_keeps_compatible [Sample.box_far; Sample.box_09] NMS_THRESHOLD).
constructor; [|constructor; [constructor|constructor]].
constructor; [|constructor].
unfold compatible. vm_compute. discriminate.
Defined.

(** *** The grid *)

Lemma build_In W H strides cell :
  In cell (build W H strides) ->
  In (cellStride cell) strides
  /\ (0 <= cellX cell < Z.max 0 (W / cellStride cell))%Z
  /\ (0 <= cellY cell < Z.max 0 (H / cellStride cell))%Z.
Proof.
unfold build. intro Hc.
apply in_flat_map in Hc. destruct Hc as [s [Hs Hc]].
apply in_flat_map in Hc. destruct Hc as [yc [Hy Hc]].
apply in_map_iff in Hc. destruct Hc as [xc [<- Hx]].
apply in_seq in Hy. apply in_seq in Hx. simpl.
split; [exact Hs|]. lia.
Qed.

Lemma cell_inside (W s g : Z) :
  (0 < s)%Z -> (0 <= g < Z.max 0 (W / s))%Z -> ((g + 1) * s <= W)%Z.
Proof.
intros Hs Hg.
assert (g + 1 <= W / s)%Z by lia.
pose proof (Z.mul_div_le W s Hs).
nia.
Qed.

(** **** X6.  After [prepareGrids] over positive strides, every proposal
    has one of the strides, and its grid cell lies inside the model input:
    [0 <= gridX] and [(gridX + 1) * stride <= modelWidth], and likewise for
    [gridY] and the height. *)
Theorem grid_cells_inside (strides : list Z) (svc : DetectionService)
        (i : nat) (s gx gy : Z) :
  Forall (fun s => (0 < s)%Z) strides ->
  let svc' := prepareGrids strides svc in
  nth_error (stridePerProposal svc') i = Some s ->
  nth_error (gridX svc') i = Some gx ->
  nth_error (gridY svc') i = Some gy ->
  In s strides
  /\ (0 <= gx)%Z /\ ((gx + 1) * s <= dim2 (modelInputShape svc))%Z
  /\ (0 <= gy)%Z /\ ((gy + 1) * s <= dim3 (modelInputShape svc))%Z.
Proof.
intros Hpos svc' Hs Hx Hy. subst svc'.
rewrite prepareGrids_fields in Hs, Hx, Hy. cbv zeta in *.
cbn [stridePerProposal gridX gridY] in *.
set (t := build _ _ strides) in *.
rewrite nth_error_map in Hs, Hx, Hy.
destruct (nth_error t i) as [cell|] eqn:E; [|discriminate].
simpl in *. inversion Hs; inversion Hx; inversion Hy; subst.
apply nth_error_In in E. apply build_In in E.
destruct E as [Hin [Hx' Hy']].
rewrite Forall_forall in Hpos. specialize (Hpos _ Hin).
repeat split; try lia; try (apply cell_inside; assumption); exact Hin.
Qed.

Lemma grid_cells_inside_witness :
  In 320%Z [320%Z]
  /\ (0 <= 1)%Z /\ ((1 + 1) * 320 <= 640)%Z
  /\ (0 <= 1)%Z /\ ((1 + 1) * 320 <= 640)%Z.
Proof.
apply (@grid_cells_inside [320%Z] new_DetectionService 3 320 1 1).
- repeat constructor.
- reflexivity.
- reflexivity.
- reflexivity.
Defined.

(** **** X7.  [prepareGrids] starts from empty arrays: what it leaves
    depends on the strides and the model input shape only, not on what the
    arrays held before, so calling it again changes nothing. *)
Theorem prepareGrids_resets (strides : list Z) (svc other : DetectionService) :
  modelInputShape other = modelInputShape svc ->
  let a := prepareGrids strides svc in
  let b := prepareGrids strides other in
  gridX b = gridX a /\ gridY b = gridY a
  /\ stridePerProposal b = stridePerProposal a
  /\ numProposals b = numProposals a
  /\ prepareGrids strides a = a.
Proof.
intros Hsh a b. subst a b. rewrite !prepareGrids_fields. cbv zeta.
cbn [gridX gridY stridePerProposal numProposals modelInputShape].
rewrite Hsh. repeat split.
Qed.

Lemma prepareGrids_resets_witness :
  let a := prepareGrids [320%Z] new_DetectionService in
  let b := prepareGrids [320%Z]
             (mkService true MODEL_INPUT_SHAPE 7 [5%Z] [6%Z] [7%Z] 5) in
  gridX b = gridX a /\ gridY b = gridY a
  /\ stridePerProposal b = stridePerProposal a
  /\ numProposals b = numProposals a
  /\ prepareGrids [320%Z] a = a.
Proof.
apply (@prepareGrids_resets [320%Z] new_DetectionService
         (mkService true MODEL_INPUT_SHAPE 7 [5%Z] [6%Z] [7%Z] 5)).
reflexivity.
Defined.

(** *** The session *)

(** **** X8.  A first [initialize] whose fetch and session creation succeed
    returns normally and leaves the service ready: the session is set, the
    three grid arrays and [numProposals] all count 8400 proposals (80 * 80
    + 40 * 40 + 20 * 20), and [channels] is untouched. *)
Theorem initialize_ready (env : InitEnv) (svc : DetectionService) :
  session svc = false ->
  modelInputShape svc = MODEL_INPUT_SHAPE ->
  fetch_ok env = true -> create_ok env = true ->
  let svc' := snd (initialize env svc) in
  fst (initialize env svc) = Returned tt
  /\ session svc' = true
  /\ prepared Sample.cells svc'
  /\ table svc' = build 640 640 STRIDES
  /\ channels svc' = channels svc
  /\ modelInputShape svc' = MODEL_INPUT_SHAPE.
Proof.
intros Hs Hsh Hf Hc. unfold initialize. rewrite Hs, Hf, Hc. cbn [negb fst snd].
rewrite prepareGrids_fields. cbv zeta.
cbn [session modelInputShape numProposals gridX gridY stridePerProposal
     channels].
rewrite Hsh. cbn [dim2 dim3 MODEL_INPUT_SHAPE].
unfold prepared.
cbn [session modelInputShape numProposals gridX gridY stridePerProposal
     channels].
rewrite !length_map, table_of_fields, build_cells.
repeat split; reflexivity.
Qed.

Lemma initialize_ready_witness :
  let svc' := snd (initialize (mkInitEnv true true) new_DetectionService) in
  fst (initialize (mkInitEnv true true) new_DetectionService) = Returned tt
  /\ session svc' = true
  /\ prepared Sample.cells svc'
  /\ table svc' = build 640 640 STRIDES
  /\ channels svc' = channels new_DetectionService
  /\ modelInputShape svc' = MODEL_INPUT_SHAPE.
Proof.
apply (@initialize_ready (mkInitEnv true true) new_DetectionService);
  reflexivity.
Defined.

Section Calls.

Variable exp : Q -> Q.

(** **** X9.  [initialize] is all or nothing.  It returns normally exactly
    when the session is set afterwards.  When it throws, the error is the
    failed fetch or the failed session creation, the service is left as it
    was, not initialised, and [detectFaces] on it throws the
    not-initialised error.  Once it has returned, calling it again,
    whatever the network then does, returns at once and changes nothing. *)
Theorem initialize_all_or_nothing (env : InitEnv) (svc : DetectionService) :
  let r := initialize env svc in
  (fst r = Returned tt <-> session (snd r) = true)
  /\ (forall e, fst r = Threw e ->
        snd r = svc /\ session svc = false
        /\ (e = FetchFailed \/ e = SessionCreateFailed)
        /\ forall denv,
             detectFaces exp denv (snd r) = (Some (Threw NotInitialized), svc))
  /\ (fst r = Returned tt ->
      forall env', initialize env' (snd r) = (Returned tt, snd r)).
Proof.
cbv zeta. unfold initialize.
destruct (session svc) eqn:Hs; cbn [fst snd].
{ repeat split; auto; try discriminate. intros _ env'. now rewrite Hs. }
destruct (fetch_ok env); cbn [negb fst snd].
2:{ repeat split; try discriminate; try congruence; auto.
    - inversion H; auto.
    - intro denv. unfold detectFaces. now rewrite Hs. }
destruct (create_ok env); cbn [negb fst snd].
2:{ repeat split; try discriminate; try congruence; auto.
    - inversion H; auto.
    - intro denv. unfold detectFaces. now rewrite Hs. }
rewrite prepareGrids_fields. cbv zeta. cbn [session].
repeat split; auto; try discriminate.
Qed.

Lemma detectFaces_frame_step (env : DetectEnv) (svc : DetectionService) :
  let s1 := snd (detectFaces exp env svc) in
  session s1 = session svc
  /\ modelInputShape s1 = modelInputShape svc
  /\ numProposals s1 = numProposals svc
  /\ gridX s1 = gridX svc /\ gridY s1 = gridY svc
  /\ stridePerProposal s1 = stridePerProposal svc
  /\ (channels svc <> 0%Z -> channels s1 = channels svc).
Proof.
cbv zeta. unfold detectFaces.
destruct (negb (session svc)); [repeat split; auto|].
destruct (drawable env) as [[iw ih]|]; [|repeat split; auto].
destruct (negb (context2d env)); [repeat split; auto|].
destruct (run env) as [t|]; [|repeat split; auto].
cbn [snd]. unfold cacheChannels. cbn.
repeat split; auto.
intro Hc. apply Z.eqb_neq in Hc. now rewrite Hc.
Qed.

(** **** X10.  Over any number of consecutive [detectFaces] calls, each
    answered by its own canvas and model output, the session, the model
    input shape, [numProposals] and the three grid arrays stay as they
    were; and a channel count that is not zero is never overwritten,
    whatever [dims] the later tensors carry. *)
Theorem detectFaces_frame (envs : list DetectEnv) (svc : DetectionService) :
  let svc' := fold_left (fun s env => snd (detectFaces exp env s)) envs svc in
  session svc' = session svc
  /\ modelInputShape svc' = modelInputShape svc
  /\ numProposals svc' = numProposals svc
  /\ gridX svc' = gridX svc
  /\ gridY svc' = gridY svc
  /\ stridePerProposal svc' = stridePerProposal svc
  /\ (channels svc <> 0%Z -> channels svc' = channels svc).
Proof.
cbv zeta. revert svc. induction envs as [|env envs IH]; intro svc; simpl.
- repeat split; auto.
- specialize (IH (snd (detectFaces exp env svc))).
  pose proof (detectFaces_frame_step env svc) as Hstep.
  cbv zeta in Hstep.
  destruct Hstep as (H1 & H2 & H3 & H4 & H5 & H6 & H7).
  destruct IH as (I1 & I2 & I3 & I4 & I5 & I6 & I7).
  repeat split; try congruence.
  intro Hc. rewrite I7; auto. rewrite H7; auto.
Qed.

End Calls.

Lemma initialize_all_or_nothing_witness :
  snd (initialize (mkInitEnv false true) new_DetectionService)
  = new_DetectionService
  /\ session new_DetectionService = false
  /\ (FetchFailed = FetchFailed \/ FetchFailed = SessionCreateFailed)
  /\ forall denv,
       detectFaces Sample.exp_lin denv
         (snd (initialize (mkInitEnv false true) new_DetectionService))
       = (Some (Threw NotInitialized), new_DetectionService).
Proof.
apply (proj1 (proj2 (initialize_all_or_nothing Sample.exp_lin
                       (mkInitEnv false true) new_DetectionService))).
reflexivity.
Defined.

End ServiceFacts.

(** ** More of detectionService.ts: the decoded boxes and the input tensor *)

Module OutputFacts.

Import Detection Spec JsFacts GridFacts NmsFacts DecodeFacts ServiceFacts.

Section OutputFacts.

Variable exp : Q -> Q.
Hypothesis exp_nonneg : forall v, 0 <= exp v.

Lemma sigmoid_le_1 v : sigmoid exp v <= 1.
Proof.
unfold sigmoid. specialize (exp_nonneg (- v)).
apply Qle_shift_div_r; lra.
Qed.

Lemma class_fold_range output n i (l : list nat) :
  forall acc s,
    0 <= acc /\ acc <= 1 ->
    fold_left
      (fun acc c =>
         obind acc (fun maxClassScore =>
         obind (read output (c * n + i)) (fun raw =>
           let score := sigmoid exp raw in
           Some (if Js.gtb score maxClassScore then score else maxClassScore))))
      l (Some acc)
    = Some s ->
    0 <= s /\ s <= 1.
Proof.
induction l as [|c l IH]; intros acc s Hacc; simpl.
- intro E. inversion E; subst. exact Hacc.
- destruct (read output (c * n + i)) as [raw|]; cbn [obind].
  + apply IH.
    destruct (Js.gtb (sigmoid exp raw) acc).
    * pose proof (@sigmoid_pos exp exp_nonneg raw).
      pose proof (sigmoid_le_1 raw). lra.
    * exact Hacc.
  + clear. induction l; simpl; [discriminate|exact IHl].
Qed.

Lemma classScoreLoop_range output n i C s :
  classScoreLoop exp output n i C = Some s -> 0 <= s /\ s <= 1.
Proof.
unfold classScoreLoop. apply class_fold_range. lra.
Qed.

(** What a pushed box is made of. *)
Lemma decodeProposal_Push_inv svc output W H C sx sy i b :
  decodeProposal exp svc output W H C sx sy i = Some (Push b) ->
  exists stride wRaw hRaw objRaw classScore,
    nth_error (stridePerProposal svc) i = Some stride
    /\ 0 <= classScore /\ classScore <= 1
    /\ confidence b = sigmoid exp objRaw * classScore
    /\ w b = clamp ((sigmoid exp wRaw * 2) ^ 2 * inject_Z stride * sx) 1 W
    /\ h b = clamp ((sigmoid exp hRaw * 2) ^ 2 * inject_Z stride * sy) 1 H.
Proof.
unfold decodeProposal. intro Hd.
repeat match type of Hd with
       | obind ?m _ = _ =>
           let E := fresh "E" in
           destruct m eqn:E; cbn [obind] in Hd; [|discriminate]
       end.
destruct (Js.ltb _ CONFIDENCE_THRESHOLD) eqn:Ec; [discriminate|].
inversion Hd; subst; clear Hd. cbn [confidence w h].
eexists _, _, _, _, _. split; [reflexivity|].
split; [|split; [|split; [reflexivity|split; reflexivity]]].
- destruct (5 <? C)%Z.
  + now apply classScoreLoop_range in E7.
  + inversion E7; subst. lra.
- destruct (5 <? C)%Z.
  + now apply classScoreLoop_range in E7.
  + inversion E7; subst. lra.
Qed.

Lemma decodeLoop_upto_length svc output W H C sx sy m :
  forall boxes,
    Js.for_upto m
      (fun i acc =>
         obind acc (fun boxes =>
         obind (decodeProposal exp svc output W H C sx sy i) (fun r =>
           match r with
           | Continue => Some boxes
           | Push b => Some (boxes ++ [b])
           end)))
      (Some [])
    = Some boxes ->
    (length boxes <= m)%nat.
Proof.
induction m as [|m IH]; intros boxes.
- unfold Js.for_upto. simpl. intro E. inversion E. simpl. lia.
- rewrite for_upto_S.
  destruct (Js.for_upto m _ _) as [bs|]; cbn [obind]; [|discriminate].
  specialize (IH bs eq_refl).
  destruct (decodeProposal exp svc output W H C sx sy m) as [[|b]|];
    cbn [obind]; intro E; inversion E; subst.
  + lia.
  + rewrite length_app. simpl. lia.
Qed.

(** **** X11.  [processOutput] returns at most one box for each proposal,
    and the confidence of every box it returns is at most 1 (and, by the
    threshold, at least 0.35). *)
Theorem processOutput_bounded svc output W H boxes :
  processOutput exp svc output W H = Some boxes ->
  (length boxes <= numProposals svc)%nat
  /\ forall b, In b boxes ->
       CONFIDENCE_THRESHOLD <= confidence b /\ confidence b <= 1.
Proof.
intro Hrun. split.
- rewrite processOutput_unfold in Hrun.
  destruct (numProposals svc =? 0)%nat; [inversion Hrun; simpl; lia|].
  destruct (numChannelsOf svc output <? 5)%Z; [inversion Hrun; simpl; lia|].
  destruct (decodeLoop exp svc output W H _ _ _) as [l|] eqn:El;
    [|discriminate].
  cbn [obind] in Hrun. inversion Hrun; subst.
  unfold decodeLoop in El. apply decodeLoop_upto_length in El.
  pose proof (nonMaxSuppression_length l NMS_THRESHOLD). lia.
- intros b Hb.
  destruct (@processOutput_In exp svc output W H boxes b Hrun Hb)
    as [i [_ Hd]].
  split.
  + apply decodeProposal_Push in Hd. tauto.
  + apply decodeProposal_Push_inv in Hd.
    destruct Hd as (stride & wRaw & hRaw & objRaw & cs & _ & H0 & H1 & -> & _).
    pose proof (@sigmoid_pos exp exp_nonneg objRaw).
    pose proof (sigmoid_le_1 objRaw). nra.
Qed.

Lemma size_term_le (v : Q) (s : Z) (S : Q) (sc : Q) :
  0 < v -> v <= 1 -> 0 <= inject_Z s -> inject_Z s <= S -> 0 <= sc ->
  (v * 2) ^ 2 * inject_Z s * sc <= 4 * S * sc.
Proof.
intros Hv0 Hv1 Hs0 Hs1 Hsc.
assert (E : (v * 2) ^ 2 == 4 * (v * v)) by (simpl; ring).
rewrite E.
assert (Hvv : v * v <= 1) by nra.
assert (Hvv0 : 0 <= v * v) by nra.
assert (H1 : 4 * (v * v) * inject_Z s <= 4 * S) by nra.
assert (H2 : 0 <= 4 * (v * v) * inject_Z s) by nra.
nra.
Qed.

Lemma clamp_le_bound v lo hi bound :
  v <= bound -> clamp v lo hi <= Qmax lo bound.
Proof.
intro Hv. unfold clamp, Js.Math_max, Js.Math_min.
apply Q.max_le_compat_l.
pose proof (Q.le_min_r hi v). lra.
Qed.

(** **** X12.  The decode squares twice a sigmoid and multiplies by the
    stride, so a decoded side is at most four strides of the model input:
    with every stride at most [S], a returned box is no wider than
    [max(1, 4 * S * imageWidth / modelWidth)] and no taller than
    [max(1, 4 * S * imageHeight / modelHeight)].  For the strides 8, 16, 32
    on the 640 x 640 input that is a fifth of the image. *)
Theorem box_side_limit svc output W H boxes b (S : Z) :
  Forall (fun s => (0 <= s <= S)%Z) (stridePerProposal svc) ->
  (0 < dim2 (modelInputShape svc))%Z -> (0 < dim3 (modelInputShape svc))%Z ->
  0 <= W -> 0 <= H ->
  processOutput exp svc output W H = Some boxes -> In b boxes ->
  w b <= Qmax 1 (4 * inject_Z S * W / inject_Z (dim2 (modelInputShape svc)))
  /\ h b <= Qmax 1 (4 * inject_Z S * H / inject_Z (dim3 (modelInputShape svc))).
Proof.
intros Hstr Hd2 Hd3 HW HH Hrun Hb.
destruct (@processOutput_In exp svc output W H boxes b Hrun Hb) as [i [_ Hd]].
apply decodeProposal_Push_inv in Hd.
destruct Hd as (stride & wRaw & hRaw & objRaw & cs & Hs & _ & _ & _ & -> & ->).
apply nth_error_In in Hs. rewrite Forall_forall in Hstr.
specialize (Hstr _ Hs).
assert (Hs0 : 0 <= inject_Z stride).
{ change 0 with (inject_Z 0). rewrite <- Zle_Qle. lia. }
assert (Hs1 : inject_Z stride <= inject_Z S) by (rewrite <- Zle_Qle; lia).
assert (Hq2 : 0 < inject_Z (dim2 (modelInputShape svc))).
{ change 0 with (inject_Z 0). now rewrite <- Zlt_Qlt. }
assert (Hq3 : 0 < inject_Z (dim3 (modelInputShape svc))).
{ change 0 with (inject_Z 0). now rewrite <- Zlt_Qlt. }
assert (Hsx : 0 <= scaleXOf svc W).
{ unfold scaleXOf. apply Qle_shift_div_l; [exact Hq2|]. lra. }
assert (Hsy : 0 <= scaleYOf svc H).
{ unfold scaleYOf. apply Qle_shift_div_l; [exact Hq3|]. lra. }
split.
- eapply Qle_trans; [apply clamp_le_bound|].
  + apply size_term_le; try eassumption.
    * apply (@sigmoid_pos exp exp_nonneg).
    * apply sigmoid_le_1.
  + unfold scaleXOf. apply Q.max_le_compat_l.
    apply Qle_lteq. right. field. lra.
- eapply Qle_trans; [apply clamp_le_bound|].
  + apply size_term_le; try eassumption.
    * apply (@sigmoid_pos exp exp_nonneg).
    * apply sigmoid_le_1.
  + unfold scaleYOf. apply Q.max_le_compat_l.
    apply Qle_lteq. right. field. lra.
Qed.

End OutputFacts.

Import Sample.

Lemma processOutput_bounded_witness :
  (length [edge_box] <= numProposals ready_service)%nat
  /\ forall b, In b [edge_box] ->
       CONFIDENCE_THRESHOLD <= confidence b /\ confidence b <= 1.
Proof.
apply (@processOutput_bounded exp_lin exp_lin_nonneg ready_service
         (concat edge_tensor) 64 64 [edge_box]).
exact edge_decode.
Defined.

Lemma ready_strides :
  Forall (fun s => (0 <= s <= 32)%Z) (stridePerProposal ready_service).
Proof.
rewrite ready_service_eq. cbn [stridePerProposal].
rewrite Forall_map, Forall_forall. intros cell Hc.
apply build_In in Hc. destruct Hc as [Hs _].
destruct Hs as [<-|[<-|[<-|[]]]]; lia.
Qed.

Lemma ready_shape : modelInputShape ready_service = MODEL_INPUT_SHAPE.
Proof. now rewrite ready_service_eq. Qed.

Lemma box_side_limit_witness :
  w edge_box
  <= Qmax 1 (4 * inject_Z 32 * 64
             / inject_Z (dim2 (modelInputShape ready_service)))
  /\ h edge_box
     <= Qmax 1 (4 * inject_Z 32 * 64
                / inject_Z (dim3 (modelInputShape ready_service))).
Proof.
apply (@box_side_limit exp_lin exp_lin_nonneg ready_service
         (concat edge_tensor) 64 64 [edge_box] edge_box 32).
- exact ready_strides.
- rewrite ready_shape. reflexivity.
- rewrite ready_shape. reflexivity.
- discriminate.
- discriminate.
- exact edge_decode.
- left. reflexivity.
Defined.

(** *** The input tensor *)

Import Preprocess.

Lemma channelAt_nth data k :
  (k < length data)%nat ->
  channelAt data k = Some (inject_Z (nth k data 0%Z) / 255).
Proof.
intro Hk. unfold channelAt.
rewrite (nth_error_nth' data 0%Z Hk). reflexivity.
Qed.

Lemma pixelLoop_upto data m :
  (4 * m <= length data)%nat ->
  Js.for_upto m
    (fun p acc =>
       obind acc (fun pl =>
       obind (channelAt data (4 * p)) (fun r =>
       obind (channelAt data (4 * p + 1)) (fun g =>
       obind (channelAt data (4 * p + 2)) (fun b =>
         Some (mkPlanes (red pl ++ [r]) (green pl ++ [g])
                        (blue pl ++ [b])))))))
    (Some (mkPlanes [] [] []))
  = Some (mkPlanes (plane data 0 m) (plane data 1 m) (plane data 2 m)).
Proof.
induction m as [|m IH]; intro Hm; [reflexivity|].
rewrite for_upto_S, IH by lia. cbn [obind].
rewrite !channelAt_nth by lia. cbn [obind red green blue].
unfold plane. rewrite !seq_S, !map_app. cbn [map].
change (0 + m)%nat with m. rewrite (Nat.add_0_r (4 * m)). reflexivity.
Qed.

Lemma plane_nth data c n p :
  (p < n)%nat ->
  nth_error (plane data c n) p
  = Some (inject_Z (nth (4 * p + c) data 0%Z) / 255).
Proof.
intro Hp. unfold plane. rewrite nth_error_map, nth_error_seq.
destruct (Nat.ltb_spec p n); [reflexivity|lia].
Qed.

Lemma plane_length data c n : length (plane data c n) = n.
Proof. unfold plane. now rewrite length_map, length_seq. Qed.

(** **** X13.  The pixel loop of [detectFaces] turns the interleaved RGBA
    bytes of [n] pixels into a planar tensor of [3 * n] numbers: entry
    [c * n + p] is byte [4 * p + c] of the image divided by 255, for the
    channels [c] = 0 (red), 1 (green), 2 (blue); the alpha bytes are left
    out, and bytes within 0..255 give numbers within 0..1. *)
Theorem transposedData_planar (data : list Z) (n : nat) :
  length data = (4 * n)%nat ->
  exists t,
    transposedData data = Some t
    /\ length t = (3 * n)%nat
    /\ (forall c p, (c < 3)%nat -> (p < n)%nat ->
          nth_error t (c * n + p)
          = Some (inject_Z (nth (4 * p + c) data 0%Z) / 255))
    /\ (Forall (fun v => (0 <= v <= 255)%Z) data ->
        Forall (fun v => 0 <= v /\ v <= 1) t).
Proof.
intro Hlen. unfold transposedData, pixelLoop.
replace ((length data + 3) / 4)%nat with n.
2:{ rewrite Hlen. apply Nat.div_unique with (r := 3%nat); lia. }
rewrite pixelLoop_upto by lia.
eexists. split; [reflexivity|]. cbn [red green blue].
split; [|split].
- rewrite !length_app, !plane_length. lia.
- intros c p Hc Hp.
  destruct c as [|[|[|c]]]; [| | |lia].
  + simpl (0 * n + p)%nat.
    rewrite nth_error_app1 by (rewrite plane_length; lia).
    now apply plane_nth.
  + rewrite nth_error_app2 by (rewrite plane_length; lia).
    rewrite plane_length.
    replace (1 * n + p - n)%nat with p by lia.
    rewrite nth_error_app1 by (rewrite plane_length; lia).
    now apply plane_nth.
  + rewrite nth_error_app2 by (rewrite plane_length; lia).
    rewrite plane_length.
    rewrite nth_error_app2 by (rewrite plane_length; lia).
    rewrite plane_length.
    replace (2 * n + p - n - n)%nat with p by lia.
    now apply plane_nth.
- intro Hb. rewrite Forall_forall in Hb.
  rewrite !Forall_app.
  assert (Hpl : forall c, (c < 3)%nat ->
            Forall (fun v => 0 <= v /\ v <= 1) (plane data c n)).
  { intros c Hc. unfold plane. rewrite Forall_map, Forall_forall.
    intros p Hp. apply in_seq in Hp.
    assert (Hin : In (nth (4 * p + c) data 0%Z) data) by (apply nth_In; lia).
    specialize (Hb _ Hin).
    assert (0 <= inject_Z (nth (4 * p + c) data 0%Z)).
    { change 0 with (inject_Z 0). rewrite <- Zle_Qle. lia. }
    assert (inject_Z (nth (4 * p + c) data 0%Z) <= 255).
    { change 255 with (inject_Z 255). rewrite <- Zle_Qle. lia. }
    split.
    - apply Qle_shift_div_l; lra.
    - apply Qle_shift_div_r; lra. }
  repeat split; apply Hpl; lia.
Qed.

Lemma transposedData_planar_witness :
  exists t,
    transposedData two_pixels = Some t
    /\ length t = (3 * 2)%nat
    /\ (forall c p, (c < 3)%nat -> (p < 2)%nat ->
          nth_error t (c * 2 + p)
          = Some (inject_Z (nth (4 * p + c) two_pixels 0%Z) / 255))
    /\ (Forall (fun v => (0 <= v <= 255)%Z) two_pixels ->
        Forall (fun v => 0 <= v /\ v <= 1) t).
Proof.
apply (@transposedData_planar two_pixels 2). reflexivity.
Defined.

End OutputFacts.

(** ** More of cropResizeToBlob: the source square, the order of attempts *)

Module CropFacts.

Import Encoder Crop JsFacts EncoderFacts.

(** *** The source square *)




(** *** The order of the attempts *)

Lemma over_budget_app cv maxB l1 l2 :
  Forall (over_budget cv maxB) l1 -> Forall (over_budget cv maxB) l2 ->
  Forall (over_budget cv maxB) (l1 ++ l2).
Proof. intros. apply Forall_app. split; assumption. Qed.

Lemma qualityLoop_trace cv t maxB fl st fuel :
  forall q b log res log',
    qualityLoop cv t maxB fl st fuel q b log = (res, log') ->
    exists extra,
      log' = log ++ extra
      /\ Forall (fun a => fst a = t /\ fl <= snd a /\ (0 <= st -> snd a <= q))
                extra
      /\ match res with
         | Finished (q', b') =>
             (extra = [] /\ q' = q /\ b' = b
              /\ (over b maxB = false \/ q <= fl))
             \/ (over b maxB = true
                 /\ exists earlier,
                      extra = earlier ++ [(t, q')]
                      /\ canvasToBlob cv t q' = Some b'
                      /\ Forall (over_budget cv maxB) earlier
                      /\ (over b' maxB = false \/ q' <= fl))
         | Raised e =>
             e = ToBlobFailed /\ over b maxB = true
             /\ exists earlier q',
                  extra = earlier ++ [(t, q')]
                  /\ canvasToBlob cv t q' = None
                  /\ Forall (over_budget cv maxB) earlier
         | Diverged => True
         end.
Proof.
induction fuel as [|f IH]; intros q b log res log' Hrun; simpl in Hrun;
  destruct (over b maxB && Js.gtb q fl) eqn:Ec.
- inversion Hrun; subst. exists []. rewrite app_nil_r. auto.
- inversion Hrun; subst. exists []. rewrite app_nil_r.
  split; [reflexivity|]. split; [constructor|]. left.
  repeat split; auto.
  apply andb_false_iff in Ec. destruct Ec as [Ec|Ec]; [now left|right].
  now apply gtb_le in Ec.
- apply andb_true_iff in Ec. destruct Ec as [Eo Eq]. apply gtb_gt in Eq.
  unfold enc_bind, encode in Hrun.
  set (q' := Js.Math_max fl (q - st)) in *.
  assert (Hq'1 : fl <= q') by apply Q.le_max_l.
  assert (Hq'2 : 0 <= st -> q' <= q).
  { intro Hst. unfold q', Js.Math_max. apply Q.max_lub; lra. }
  destruct (canvasToBlob cv t q') as [b1|] eqn:Eb.
  + apply IH in Hrun. destruct Hrun as (extra & -> & Ht & Hres).
    exists ((t, q') :: extra). rewrite <- app_assoc. split; [reflexivity|].
    split.
    { constructor; [simpl; auto|].
      eapply Forall_impl; [|exact Ht]. simpl. intros a (Ha1 & Ha2 & Ha3).
      repeat split; auto. intro Hst. specialize (Ha3 Hst).
      specialize (Hq'2 Hst). lra. }
    destruct res as [[q2 b2]| e |]; auto.
    * right. split; [exact Eo|].
      destruct Hres as [(-> & -> & -> & Hx)|(Ho1 & earlier & -> & Hc & He & Hx)].
      -- exists []. simpl. repeat split; auto.
      -- exists ((t, q') :: earlier). simpl. repeat split; auto.
         constructor; [|exact He]. exists b1. simpl. auto.
    * destruct Hres as (-> & Ho1 & earlier & q2 & -> & Hc & He).
      split; [reflexivity|]. split; [exact Eo|].
      exists ((t, q') :: earlier), q2. simpl. repeat split; auto.
      constructor; [|exact He]. exists b1. simpl. auto.
  + inversion Hrun; subst. exists [(t, q')]. split; [reflexivity|].
    split; [repeat constructor; simpl; auto|].
    split; [reflexivity|]. split; [exact Eo|].
    exists [], q'. simpl. repeat split; auto.
- inversion Hrun; subst. exists []. rewrite app_nil_r.
  split; [reflexivity|]. split; [constructor|]. left.
  repeat split; auto.
  apply andb_false_iff in Ec. destruct Ec as [Ec|Ec]; [now left|right].
  now apply gtb_le in Ec.
Qed.


Lemma snoc_In {A : Type} (l : list A) a : In a (l ++ [a]).
Proof. apply in_or_app. right. left. reflexivity. Qed.

(** The WebP block, attempt by attempt: it hands back the blob it was given
    after a rejected encode or after an over-budget encode at the floor
    quality, and otherwise the blob of its last attempt, the first within
    the budget. *)
Lemma webpFallbackBlock_trace cv maxB fuel b f log res log' :
  webpFallbackBlock cv maxB fuel b f log = (res, log') ->
  exists ws,
    log' = log ++ ws
    /\ ws <> []
    /\ Forall (fun a => fst a = ImageWebp /\ 0.25 <= snd a /\ snd a <= 0.9) ws
    /\ match res with
       | Finished (b', f') =>
           (b' = b /\ f' = f
            /\ (rejected cv ws ImageWebp
                \/ (Forall (over_budget cv maxB) ws
                    /\ exists q, In (ImageWebp, q) ws /\ q <= 0.25)))
           \/ (f' = ImageWebp /\ over b' maxB = false
               /\ exists earlier q,
                    ws = earlier ++ [(ImageWebp, q)]
                    /\ canvasToBlob cv ImageWebp q = Some b'
                    /\ Forall (over_budget cv maxB) earlier)
       | Raised _ => False
       | Diverged => True
       end.
Proof.
unfold webpFallbackBlock, try_catch.
destruct (enc_bind _ _ log) as [r l1] eqn:Ebody. intro Hrun.
apply enc_bind_inv in Ebody.
destruct Ebody as [(w0 & l2 & He & Hk)|[(e & He & ->)|[He _]]].
- apply encode_inv in He. destruct He as [-> [(b0 & Eb & Hc)|[Eb _]]];
    [|discriminate].
  inversion Eb; subst b0; clear Eb.
  apply enc_bind_inv in Hk.
  destruct Hk as [([q1 w1] & l3 & Hloop & Hk)|[(e & Hloop & ->)|[Hloop ->]]].
  + apply qualityLoop_trace in Hloop.
    destruct Hloop as (extra & -> & Ht & Hres).
    assert (Hq : Forall (fun a => fst a = ImageWebp /\ 0.25 <= snd a
                                  /\ snd a <= 0.9)
                        ((ImageWebp, 0.9) :: extra)).
    { constructor; [simpl; repeat split; lra|].
      eapply Forall_impl; [|exact Ht]. simpl. intros a (H1 & H2 & H3).
      repeat split; auto. apply H3. lra. }
    assert (Hlast : exists earlier,
               (ImageWebp, 0.9) :: extra = earlier ++ [(ImageWebp, q1)]
               /\ canvasToBlob cv ImageWebp q1 = Some w1
               /\ Forall (over_budget cv maxB) earlier
               /\ (over w1 maxB = false \/ q1 <= 0.25)).
    { destruct Hres as [(-> & -> & -> & Hx)|(Ho & earlier & -> & Hc1 & He1 & Hx)].
      - exists []. simpl. repeat split; auto.
      - exists ((ImageWebp, 0.9) :: earlier). simpl. repeat split; auto.
        constructor; [|exact He1]. exists w0. simpl. auto. }
    destruct Hlast as (earlier & Hsplit & Hc1 & He1 & Hx).
    exists ((ImageWebp, 0.9) :: extra).
    cbv beta iota zeta in Hk.
    destruct (Js.leb (inject_Z (Z.of_N (size w1))) maxB) eqn:El;
      inversion Hk; subst; inversion Hrun; subst;
      (split; [now rewrite <- app_assoc|]);
      (split; [discriminate|]); (split; [exact Hq|]).
    * right. split; [reflexivity|]. split.
      -- apply over_false. now apply leb_le.
      -- exists earlier, q1. auto.
    * left. split; [reflexivity|]. split; [reflexivity|]. right.
      assert (Ho : over w1 maxB = true).
      { apply over_true. now apply leb_gt in El. }
      rewrite Hsplit. split.
      -- apply over_budget_app; [exact He1|]. constructor; [|constructor].
         exists w1. simpl. auto.
      -- exists q1. split; [apply snoc_In|].
         destruct Hx as [Hx|Hx]; [congruence|exact Hx].
  + apply qualityLoop_trace in Hloop.
    destruct Hloop as (extra & -> & Ht & (-> & Ho & earlier & q2 & -> & Hc1 & He1)).
    inversion Hrun; subst.
    exists ((ImageWebp, 0.9) :: earlier ++ [(ImageWebp, q2)]).
    split; [now rewrite <- app_assoc|]. split; [discriminate|].
    split.
    { constructor; [simpl; repeat split; lra|].
      eapply Forall_impl; [|exact Ht]. simpl. intros a (H1 & H2 & H3).
      repeat split; auto. apply H3. lra. }
    left. split; [reflexivity|]. split; [reflexivity|]. left.
    exists q2. split; [|exact Hc1].
    right. apply snoc_In.
  + apply qualityLoop_trace in Hloop.
    destruct Hloop as (extra & -> & Ht & _).
    inversion Hrun; subst.
    exists ((ImageWebp, 0.9) :: extra).
    split; [now rewrite <- app_assoc|]. split; [discriminate|].
    split; [|exact I].
    constructor; [simpl; repeat split; lra|].
    eapply Forall_impl; [|exact Ht]. simpl. intros a (H1 & H2 & H3).
    repeat split; auto. apply H3. lra.
- apply encode_inv in He. destruct He as [-> [(b0 & Eb & _)|[_ Hc]]];
    [discriminate|].
  inversion Hrun; subst.
  exists [(ImageWebp, 0.9)]. split; [reflexivity|]. split; [discriminate|].
  split; [repeat constructor; simpl; lra|].
  left. split; [reflexivity|]. split; [reflexivity|]. left.
  exists 0.9. simpl. auto.
- apply encode_inv in He. destruct He as [_ [(b0 & Eb & _)|[Eb _]]];
    discriminate.
Qed.


Lemma webp_quality_ok mq qs ws :
  Forall (fun a => fst a = ImageWebp /\ 0.25 <= snd a /\ snd a <= 0.9) ws ->
  Forall (quality_ok mq qs) ws.
Proof.
intro H. eapply Forall_impl; [|exact H].
intros [t q] (Ht & H1 & H2). unfold quality_ok. simpl in *. now rewrite Ht.
Qed.

Lemma jpeg_quality_ok mq qs st extra :
  0 <= st -> mq <= qs ->
  Forall (fun a => fst a = ImageJpeg /\ mq <= snd a /\ (0 <= st -> snd a <= qs))
         extra ->
  Forall (quality_ok mq qs) ((ImageJpeg, qs) :: extra).
Proof.
intros Hst Hq H. constructor.
- unfold quality_ok. simpl. lra.
- eapply Forall_impl; [|exact H].
  intros [t q] (Ht & H1 & H2). unfold quality_ok. simpl in *. rewrite Ht. auto.
Qed.

(** **** X15.  With a step that is not negative and
    [minQuality <= qualityStart], every JPEG encode is asked at a quality
    between [minQuality] and [qualityStart], and every WebP encode at a
    quality between 0.25 and 0.9. *)
Theorem attempt_qualities cv opts fuel res log :
  let qs := default 0.9 (opt_qualityStart opts) in
  let st := default 0.08 (opt_qualityStep opts) in
  let mq := default 0.25 (opt_minQuality opts) in
  0 <= st -> mq <= qs ->
  cropResizeToBlob cv opts fuel [] = (res, log) ->
  forall t q, In (t, q) log ->
    match t with
    | ImageJpeg => mq <= q /\ q <= qs
    | ImageWebp => 0.25 <= q /\ q <= 0.9
    end.
Proof.
intros qs st mq Hst Hq Hrun.
assert (Hall : Forall (quality_ok mq qs) log).
{ unfold cropResizeToBlob in Hrun. fold qs st mq in Hrun.
  set (maxBytes := default (300 * 1024) (opt_maxBytes opts)) in *.
  destruct (getContext cv); simpl negb in Hrun; cbv iota in Hrun;
    [|inversion Hrun; constructor].
  destruct (createImageBitmap cv); simpl negb in Hrun; cbv iota in Hrun;
    [|inversion Hrun; constructor].
  apply enc_bind_inv in Hrun.
  destruct Hrun as [(b0 & l1 & He & Hk)|[(e & He & ->)|[He _]]].
  3:{ apply encode_inv in He. destruct He as [_ [(b & Eb & _)|[Eb _]]];
      discriminate. }
  2:{ apply encode_inv in He. destruct He as [-> _].
      apply (@jpeg_quality_ok mq qs st []); auto. }
  apply encode_inv in He. destruct He as [-> _]. simpl app in Hk.
  apply enc_bind_inv in Hk.
  destruct Hk as [([q1 b1] & l2 & Hloop & Hk)|[(e & Hloop & ->)|[Hloop ->]]].
  - apply qualityLoop_trace in Hloop.
    destruct Hloop as (extra & -> & Ht & _).
    pose proof (jpeg_quality_ok Hst Hq Ht) as Hjs.
    cbv beta iota zeta in Hk. apply enc_bind_inv in Hk.
    destruct Hk as [([b2 f2] & l3 & Hw & Hk)|[(e & Hw & ->)|[Hw ->]]].
    + assert (Hl3 : Forall (quality_ok mq qs) l3).
      { destruct (over b1 maxBytes && default true (opt_webpFallback opts)).
        - apply webpFallbackBlock_trace in Hw.
          destruct Hw as (ws & -> & _ & Hq' & _).
          apply Forall_app. split; [exact Hjs|].
          now apply webp_quality_ok.
        - inversion Hw; subst. exact Hjs. }
      cbv beta iota zeta in Hk. unfold throw, enc_ret in Hk.
      destruct (over b2 maxBytes); inversion Hk; subst; exact Hl3.
    + destruct (over b1 maxBytes && default true (opt_webpFallback opts)).
      * apply webpFallbackBlock_trace in Hw.
        destruct Hw as (ws & _ & _ & _ & []).
      * discriminate.
    + destruct (over b1 maxBytes && default true (opt_webpFallback opts));
        [|discriminate].
      apply webpFallbackBlock_trace in Hw.
      destruct Hw as (ws & -> & _ & Hq' & _).
      apply Forall_app. split; [exact Hjs|]. now apply webp_quality_ok.
  - apply qualityLoop_trace in Hloop.
    destruct Hloop as (extra & -> & Ht & _).
    exact (jpeg_quality_ok Hst Hq Ht).
  - apply qualityLoop_trace in Hloop.
    destruct Hloop as (extra & -> & Ht & _).
    exact (jpeg_quality_ok Hst Hq Ht). }
intros t q Hin. rewrite Forall_forall in Hall.
exact (Hall _ Hin).
Qed.

Lemma heavy_canvas_webp :
  In (ImageWebp, 0.9) (snd (cropResizeToBlob heavy_canvas no_opts 9 [])).
Proof.
vm_compute. repeat (first [left; reflexivity | right]).
Qed.

Lemma attempt_qualities_witness :
  In (ImageWebp, 0.9) (snd (cropResizeToBlob heavy_canvas no_opts 9 []))
  /\ 0.25 <= 0.9 /\ 0.9 <= 0.9.
Proof.
split; [exact heavy_canvas_webp|].
apply (@attempt_qualities heavy_canvas no_opts 9
         (fst (cropResizeToBlob heavy_canvas no_opts 9 []))
         (snd (cropResizeToBlob heavy_canvas no_opts 9 []))
         ltac:(discriminate) ltac:(discriminate)
         (surjective_pairing _) ImageWebp 0.9).
exact heavy_canvas_webp.
Defined.

(** How a call that does not run out of fuel ends, attempt by attempt. *)
Lemma cropResizeToBlob_trace cv opts fuel res log :
  cropResizeToBlob cv opts fuel [] = (res, log) ->
  let ts := default 128 (opt_targetSize opts) in
  let maxBytes := default (300 * 1024) (opt_maxBytes opts) in
  let mq := default 0.25 (opt_minQuality opts) in
  let wf := default true (opt_webpFallback opts) in
  res = Diverged
  \/ (log = [] /\ (res = Raised NoContext \/ res = Raised BitmapFailed))
  \/ exists ejs qj ws,
       log = ejs ++ (ImageJpeg, qj) :: ws
       /\ Forall (fun a => fst a = ImageJpeg) ejs
       /\ Forall (over_budget cv maxBytes) ejs
       /\ Forall (fun a => fst a = ImageWebp) ws
       /\ (ws <> [] ->
           wf = true /\ over_budget cv maxBytes (ImageJpeg, qj) /\ qj <= mq)
       /\ match res with
          | Finished r =>
              over (blob r) maxBytes = false
              /\ width r = ts /\ height r = ts
              /\ ((ws = [] /\ format r = ImageJpeg
                   /\ canvasToBlob cv ImageJpeg qj = Some (blob r))
                  \/ (format r = ImageWebp
                      /\ exists ews qw,
                           ws = ews ++ [(ImageWebp, qw)]
                           /\ canvasToBlob cv ImageWebp qw = Some (blob r)
                           /\ Forall (over_budget cv maxBytes) ews))
          | Raised ToBlobFailed =>
              ws = [] /\ canvasToBlob cv ImageJpeg qj = None
          | Raised (SizeExceeded kb) =>
              over_budget cv maxBytes (ImageJpeg, qj) /\ qj <= mq
              /\ (wf = false -> ws = [])
              /\ (wf = true ->
                  rejected cv ws ImageWebp
                  \/ (Forall (over_budget cv maxBytes) ws
                      /\ exists q, In (ImageWebp, q) ws /\ q <= 0.25))
          | Raised _ => False
          | Diverged => True
          end.
Proof.
intros Hrun ts maxBytes mq wf. unfold cropResizeToBlob in Hrun.
fold ts maxBytes mq wf in Hrun.
set (qs := default 0.9 (opt_qualityStart opts)) in *.
set (st := default 0.08 (opt_qualityStep opts)) in *.
destruct (getContext cv); simpl negb in Hrun; cbv iota in Hrun.
2:{ inversion Hrun; subst. right. left. auto. }
destruct (createImageBitmap cv); simpl negb in Hrun; cbv iota in Hrun.
2:{ inversion Hrun; subst. right. left. auto. }
apply enc_bind_inv in Hrun.
destruct Hrun as [(b0 & l1 & He & Hk)|[(e & He & ->)|[He _]]].
3:{ apply encode_inv in He. destruct He as [_ [(b & Eb & _)|[Eb _]]];
    discriminate. }
2:{ apply encode_inv in He. destruct He as [-> [(b & Eb & _)|[Eb Hc]]];
      [discriminate|]. inversion Eb; subst e.
    right. right. exists [], qs, []. simpl.
    repeat split; auto; try constructor; congruence. }
apply encode_inv in He. destruct He as [-> [(b & Eb & Hc0)|[Eb _]]];
  [|discriminate].
inversion Eb; subst b; clear Eb. simpl app in Hk.
apply enc_bind_inv in Hk.
destruct Hk as [([q1 b1] & l2 & Hloop & Hk)|[(e & Hloop & ->)|[Hloop ->]]];
  [| |now left].
- (* the JPEG loop returned *)
  apply qualityLoop_trace in Hloop.
  destruct Hloop as (extra & -> & Ht & Hres).
  assert (Hjs : exists ejs,
             [(ImageJpeg, qs)] ++ extra = ejs ++ [(ImageJpeg, q1)]
             /\ Forall (fun a => fst a = ImageJpeg) ejs
             /\ canvasToBlob cv ImageJpeg q1 = Some b1
             /\ Forall (over_budget cv maxBytes) ejs
             /\ (over b1 maxBytes = false \/ q1 <= mq)).
  { destruct Hres as [(-> & -> & -> & Hx)|(Ho & earlier & -> & Hc1 & He1 & Hx)].
    - exists []. simpl. repeat split; auto.
    - exists ((ImageJpeg, qs) :: earlier). simpl. repeat split; auto.
      + constructor; [reflexivity|].
        apply Forall_app in Ht. destruct Ht as [Ht _].
        eapply Forall_impl; [|exact Ht]. simpl. tauto.
      + constructor; [|exact He1]. exists b0. simpl. auto. }
  clear Hres Ht.
  destruct Hjs as (ejs & Hsplit & Hjt & Hc1 & He1 & Hx).
  cbv beta iota zeta in Hk. apply enc_bind_inv in Hk.
  destruct Hk as [([b2 f2] & l3 & Hw & Hk)|[(e & Hw & ->)|[Hw ->]]];
    [| |now left].
  + cbv beta iota zeta in Hk. unfold throw, enc_ret in Hk.
    right. right.
    assert (Hlog : log = l3) by (destruct (over b2 maxBytes); now inversion Hk).
    subst log.
    destruct (over b1 maxBytes && wf) eqn:Econd.
    * apply andb_true_iff in Econd. destruct Econd as [Eo1 Ewf].
      assert (Hq1 : q1 <= mq) by (destruct Hx; [congruence|assumption]).
      assert (Hob : over_budget cv maxBytes (ImageJpeg, q1))
        by (exists b1; simpl; auto).
      apply webpFallbackBlock_trace in Hw.
      destruct Hw as (ws & -> & Hne & Hwt & Hres).
      assert (Hwt' : Forall (fun a => fst a = ImageWebp) ws).
      { eapply Forall_impl; [|exact Hwt]. simpl. tauto. }
      exists ejs, q1, ws. unfold Attempt in *. rewrite Hsplit, <- app_assoc. simpl.
      split; [reflexivity|].
      split; [exact Hjt|]. split; [exact He1|]. split; [exact Hwt'|].
      split; [auto|].
      destruct (over b2 maxBytes) eqn:Eo2; inversion Hk; subst res; clear Hk.
      -- split; [exact Hob|]. split; [exact Hq1|]. split; [congruence|].
         intros _.
         destruct Hres as [(-> & -> & Hres)|(_ & Hno & _)]; [exact Hres|congruence].
      -- cbn [blob format width height]. split; [exact Eo2|].
         split; [reflexivity|]. split; [reflexivity|].
         destruct Hres as [(-> & _ & _)|(-> & _ & Hres)]; [congruence|].
         right. split; [reflexivity|]. exact Hres.
    * inversion Hw; subst b2 f2 l3; clear Hw.
      exists ejs, q1, []. unfold Attempt in *.
      split; [exact Hsplit|].
      split; [exact Hjt|]. split; [exact He1|]. split; [constructor|].
      split; [congruence|].
      destruct (over b1 maxBytes) eqn:Eo1; inversion Hk; subst res; clear Hk.
      -- simpl in Econd.
         split; [exists b1; simpl; auto|].
         split; [destruct Hx; [congruence|assumption]|].
         split; [auto|]. intro Hwf. congruence.
      -- cbn [blob format width height]. split; [exact Eo1|].
         split; [reflexivity|]. split; [reflexivity|].
         left. auto.
  + destruct (over b1 maxBytes && wf).
    * apply webpFallbackBlock_trace in Hw.
      destruct Hw as (ws & _ & _ & _ & []).
    * discriminate.
- (* the JPEG loop threw *)
  apply qualityLoop_trace in Hloop.
  destruct Hloop as (extra & -> & Ht & (-> & Ho & earlier & q2 & -> & Hc1 & He1)).
  right. right.
  exists ((ImageJpeg, qs) :: earlier), q2, [].
  split; [reflexivity|].
  split.
  { constructor; [reflexivity|].
    apply Forall_app in Ht. destruct Ht as [Ht _].
    eapply Forall_impl; [|exact Ht]. simpl. tauto. }
  split.
  { constructor; [|exact He1]. exists b0. simpl. auto. }
  split; [constructor|]. split; [congruence|]. auto.
Qed.





Lemma rejected_cons cv a l t : rejected cv l t -> rejected cv (a :: l) t.
Proof. intros (q & Hin & Hq). exists q. split; [now right|exact Hq]. Qed.

(** **** X17.  The size error is thrown only when everything was tried:
    every JPEG attempt was answered by a blob over the budget, one of them
    at a quality at or below [minQuality]; and, with the WebP fallback on,
    either a WebP encode was rejected or every WebP attempt was over the
    budget as well, one of them at quality 0.25 or below. *)
Theorem size_error_exhaustive cv opts fuel res log kb :
  cropResizeToBlob cv opts fuel [] = (res, log) ->
  res = Raised (SizeExceeded kb) ->
  let maxBytes := default (300 * 1024) (opt_maxBytes opts) in
  let mq := default 0.25 (opt_minQuality opts) in
  let wf := default true (opt_webpFallback opts) in
  (forall q, In (ImageJpeg, q) log -> over_budget cv maxBytes (ImageJpeg, q))
  /\ (exists q, In (ImageJpeg, q) log /\ q <= mq)
  /\ (wf = false -> forall q, ~ In (ImageWebp, q) log)
  /\ (wf = true ->
      rejected cv log ImageWebp
      \/ ((forall q, In (ImageWebp, q) log ->
             over_budget cv maxBytes (ImageWebp, q))
          /\ exists q, In (ImageWebp, q) log /\ q <= 0.25)).
Proof.
intros Hrun -> maxBytes mq wf.
destruct (cropResizeToBlob_trace _ _ _ Hrun)
  as [Hd|[[_ [Hd|Hd]]|(ejs & qj & ws & -> & Hjt & Hjo & Hwt & Hws & Hres)]];
  try discriminate.
fold maxBytes mq wf in Hjo, Hws, Hres.
destruct Hres as (Hoj & Hqj & Hoff & Hon).
rewrite Forall_forall in Hjt, Hjo, Hwt.
assert (Hsplit : forall t q, In (t, q) (ejs ++ (ImageJpeg, qj) :: ws) ->
          (t = ImageJpeg /\ (In (t, q) ejs \/ q = qj))
          \/ (t = ImageWebp /\ In (t, q) ws)).
{ intros t q Hin. apply in_app_or in Hin. destruct Hin as [Hin|[Hin|Hin]].
  - left. split; [exact (Hjt _ Hin)|now left].
  - inversion Hin; subst. left. auto.
  - right. split; [exact (Hwt _ Hin)|exact Hin]. }
split; [|split; [|split]].
- intros q Hin. apply Hsplit in Hin.
  destruct Hin as [[_ [Hin| ->]]|[Ht _]]; [now apply Hjo|exact Hoj|discriminate].
- exists qj. split; [|exact Hqj]. apply in_or_app. right. now left.
- intros Hwf q Hin. apply Hsplit in Hin.
  destruct Hin as [[Ht _]|[_ Hin]]; [discriminate|].
  rewrite (Hoff Hwf) in Hin. destruct Hin.
- intro Hwf. destruct (Hon Hwf) as [Hr|[Hall (q & Hq & Hle)]].
  + left. apply rejected_app_r. now apply rejected_cons.
  + right. split.
    * intros q' Hin. apply Hsplit in Hin.
      destruct Hin as [[Ht _]|[_ Hin]]; [discriminate|].
      rewrite Forall_forall in Hall. now apply Hall.
    * exists q. split; [|exact Hle]. apply in_or_app. right. now right.
Qed.

Lemma heavy_canvas_run :
  fst (cropResizeToBlob heavy_canvas no_opts 9 [])
  = Raised (SizeExceeded (307200 # 1024)).
Proof. vm_compute. reflexivity. Qed.

Lemma size_error_exhaustive_witness :
  let log := snd (cropResizeToBlob heavy_canvas no_opts 9 []) in
  (forall q, In (ImageJpeg, q) log ->
     over_budget heavy_canvas (300 * 1024) (ImageJpeg, q))
  /\ (exists q, In (ImageJpeg, q) log /\ q <= 0.25)
  /\ (true = false -> forall q, ~ In (ImageWebp, q) log)
  /\ (true = true ->
      rejected heavy_canvas log ImageWebp
      \/ ((forall q, In (ImageWebp, q) log ->
             over_budget heavy_canvas (300 * 1024) (ImageWebp, q))
          /\ exists q, In (ImageWebp, q) log /\ q <= 0.25)).
Proof.
apply (@size_error_exhaustive heavy_canvas no_opts 9
         (fst (cropResizeToBlob heavy_canvas no_opts 9 []))
         (snd (cropResizeToBlob heavy_canvas no_opts 9 []))
         (307200 # 1024)).
- apply surjective_pairing.
- exact heavy_canvas_run.
Defined.

(** **** X18.  WebP is a fallback only.  In a call that ends, no WebP
    encode is attempted when [webpFallback] is off; and when one is
    attempted, every JPEG attempt of the call was answered by a blob over
    the budget, the last of them at a quality at or below [minQuality]. *)
Theorem webp_is_fallback cv opts fuel res log :
  cropResizeToBlob cv opts fuel [] = (res, log) ->
  res <> Diverged ->
  let maxBytes := default (300 * 1024) (opt_maxBytes opts) in
  let mq := default 0.25 (opt_minQuality opts) in
  let wf := default true (opt_webpFallback opts) in
  (wf = false -> attempts ImageWebp log = 0%nat)
  /\ (forall q, In (ImageWebp, q) log ->
        wf = true
        /\ (forall q', In (ImageJpeg, q') log ->
              over_budget cv maxBytes (ImageJpeg, q'))
        /\ exists q', In (ImageJpeg, q') log /\ q' <= mq).
Proof.
intros Hrun Hnd maxBytes mq wf.
destruct (cropResizeToBlob_trace _ _ _ Hrun)
  as [Hd|[[-> _]|(ejs & qj & ws & -> & Hjt & Hjo & Hwt & Hws & _)]].
- contradiction.
- split; [reflexivity|]. intros q [].
- fold maxBytes mq wf in Hjo, Hws.
  assert (Hjs : Forall (fun a : Attempt => fst a = ImageJpeg)
                       (ejs ++ [(ImageJpeg, qj)])).
  { apply Forall_app. split; [exact Hjt|]. repeat constructor. }
  split.
  + intro Hwf.
    assert (Hnil : ws = []).
    { destruct ws as [|a ws]; [reflexivity|].
      assert (Hne : a :: ws <> []) by discriminate.
      destruct (Hws Hne) as [Hwf' _]. congruence. }
    subst ws.
    destruct (@attempts_split (ejs ++ [(ImageJpeg, qj)]) [] Hjs
                (Forall_nil _)) as [_ Hw].
    rewrite <- app_assoc in Hw. exact Hw.
  + intros q Hin.
    rewrite Forall_forall in Hjt, Hjo, Hwt.
    assert (Hne : ws <> []).
    { apply in_app_or in Hin. destruct Hin as [Hin|[Hin|Hin]].
      - specialize (Hjt _ Hin). discriminate.
      - inversion Hin.
      - intro Hnil. subst ws. destruct Hin. }
    destruct (Hws Hne) as (Hwf & Hoj & Hqj).
    split; [exact Hwf|]. split.
    * intros q' Hin'. apply in_app_or in Hin'.
      destruct Hin' as [Hin'|[Hin'|Hin']].
      -- now apply Hjo.
      -- inversion Hin'; subst. exact Hoj.
      -- specialize (Hwt _ Hin'). discriminate.
    * exists qj. split; [|exact Hqj]. apply in_or_app. right. now left.
Qed.

Lemma webp_is_fallback_witness :
  let log := snd (cropResizeToBlob heavy_canvas no_opts 9 []) in
  (true = false -> attempts ImageWebp log = 0%nat)
  /\ (forall q, In (ImageWebp, q) log ->
        true = true
        /\ (forall q', In (ImageJpeg, q') log ->
              over_budget heavy_canvas (300 * 1024) (ImageJpeg, q'))
        /\ exists q', In (ImageJpeg, q') log /\ q' <= 0.25).
Proof.
apply (@webp_is_fallback heavy_canvas no_opts 9
         (fst (cropResizeToBlob heavy_canvas no_opts 9 []))
         (snd (cropResizeToBlob heavy_canvas no_opts 9 []))).
- apply surjective_pairing.
- rewrite heavy_canvas_run. discriminate.
Defined.

End CropFacts.

(** ** More of captureAndProcess: the video, the faces, what a cycle leaves *)

Module CycleFacts.

Import String.
Import List.
Import ListNotations.
Import Detection Orchestrator Ranking Shell JsFacts OrchestratorFacts.

(** *** Choosing the video *)

Lemma largest_fold rest : forall v0,
  let r := fold_left
             (fun prev current =>
                if (offsetHeight current * offsetWidth current
                    <? offsetHeight prev * offsetWidth prev)%Z
                then prev else current)
             rest v0 in
  In r (v0 :: rest)
  /\ forall u, In u (v0 :: rest) ->
       (offsetHeight u * offsetWidth u <= offsetHeight r * offsetWidth r)%Z.
Proof.
induction rest as [|c rest IH]; intro v0; cbv zeta.
- simpl. split; [now left|]. intros u [<-|[]]. lia.
- cbn [fold_left].
  destruct (offsetHeight c * offsetWidth c <? offsetHeight v0 * offsetWidth v0)%Z
    eqn:E.
  + apply Z.ltb_lt in E. destruct (IH v0) as [Hin Hmax]. split.
    * destruct Hin as [<-|Hin]; [now left|right; now right].
    * intros u [<-|[<-|Hu]].
      -- apply Hmax. now left.
      -- specialize (Hmax v0 (or_introl eq_refl)). lia.
      -- apply Hmax. now right.
  + apply Z.ltb_ge in E. destruct (IH c) as [Hin Hmax]. split.
    * right. exact Hin.
    * intros u [<-|Hu].
      -- specialize (Hmax c (or_introl eq_refl)). lia.
      -- apply Hmax. exact Hu.
Qed.

Lemma largest_is_largest (vs : list Video) :
  (largest vs = None <-> vs = [])
  /\ forall v, largest vs = Some v ->
       In v vs
       /\ forall u, In u vs ->
            (offsetHeight u * offsetWidth u
             <= offsetHeight v * offsetWidth v)%Z.
Proof.
split.
- destruct vs; simpl; split; intro H; congruence.
- intros v Hv. destruct vs as [|v0 rest]; [discriminate|].
  simpl in Hv. inversion Hv; subst. apply largest_fold.
Qed.

(** What the first stretch of a call does, by the video chosen. *)
Lemma call_start_video env st s :
  isUploadingRef s = false ->
  snd (call_start env st s)
  = match largest (videos env) with
    | None => None
    | Some v => if (readyState v <? 2)%Z then None
                else Some (AwaitBitmap v)
    end.
Proof.
intro Hg. destruct s as [g sta err emo lu msgs ist]. simpl in Hg. subst g.
destruct st; split_cycle; reflexivity.
Qed.

Lemma exit_no_video env ctx s :
  isUploadingRef s = false ->
  (exit_of env ctx s = NoVideo
   <-> match largest (videos env) with
       | None => True
       | Some v => (readyState v <? 2)%Z = true
       end).
Proof.
intro Hg. unfold exit_of. rewrite Hg.
destruct (largest (videos env)) as [v|]; [|tauto].
destruct (readyState v <? 2)%Z; [tauto|].
split; [|discriminate].
destruct (createImageBitmap env v) as [source|]; [|discriminate].
destruct (detectFaces env source) as [bboxes|]; [|discriminate].
destruct (length bboxes =? 0)%nat; [discriminate|].
destruct (length _ =? 0)%nat; [discriminate|].
destruct (analyzeFaces env _ ctx); discriminate.
Qed.

(** **** X19.  A cycle entered with the guard clear comes to its capture,
    the [await createImageBitmap(videoElement)], only with a [video] element
    of the page that is ready ([readyState >= 2]) and whose area
    ([offsetHeight * offsetWidth]) none of the page's [video] elements
    exceeds.  It takes the no-video exit, capturing nothing, exactly when
    its first stretch ends without that [await]: always when the page has
    no [video] element, and otherwise only when an element of the largest
    area is not ready ([readyState < 2]); a smaller element that is ready
    is not captured in its place. *)
Theorem captured_video env ctx st s :
  isUploadingRef s = false ->
  let area := fun u => (offsetHeight u * offsetWidth u)%Z in
  (forall p, snd (call_start env st s) = Some p ->
     exists v, p = AwaitBitmap v /\ In v (videos env)
               /\ (2 <= readyState v)%Z
               /\ forall u, In u (videos env) -> (area u <= area v)%Z)
  /\ (exit_of env ctx s = NoVideo <-> snd (call_start env st s) = None)
  /\ (videos env = [] -> exit_of env ctx s = NoVideo)
  /\ (exit_of env ctx s = NoVideo ->
      videos env = []
      \/ exists v, In v (videos env) /\ (readyState v < 2)%Z
                   /\ forall u, In u (videos env) -> (area u <= area v)%Z).
Proof.
intros Hg area.
pose proof (@call_start_video env st s Hg) as Hstart.
pose proof (@exit_no_video env ctx s Hg) as Hexit.
destruct (largest_is_largest (videos env)) as [Hnone Hsome].
destruct (largest (videos env)) as [v|] eqn:El.
- destruct (Hsome v eq_refl) as [Hin Hmax].
  destruct (readyState v <? 2)%Z eqn:Er.
  + apply Z.ltb_lt in Er. rewrite Hstart. split; [discriminate|].
    split; [tauto|]. split.
    * intro Hv. rewrite Hv in Hin. destruct Hin.
    * intros _. right. exists v. auto.
  + apply Z.ltb_ge in Er. rewrite Hstart. split.
    * intros p Hp. inversion Hp; subst. exists v. auto.
    * split; [split; [intro H; apply Hexit in H|]; discriminate|].
      split.
      -- intro Hv. rewrite Hv in Hin. destruct Hin.
      -- intro H. apply Hexit in H. discriminate.
- rewrite Hstart. split; [discriminate|]. split; [tauto|].
  split; [tauto|]. intros _. left. now apply Hnone.
Qed.

(** A large video that is not ready beside a small one that is: the cycle
    captures neither. *)
Example no_fall_back :
  let env := world [mkVideo 480 640 1; mkVideo 120 160 4]
                   (Resolved [a_box]) (Resolved 1000%N) good_upload in
  exit_of env some_context initial_state = NoVideo
  /\ snd (call_start env true initial_state) = None.
Proof. vm_compute. auto. Qed.

Lemma captured_video_witness :
  (forall p, snd (call_start world_uploads true initial_state) = Some p ->
     exists v, p = AwaitBitmap v /\ In v (videos world_uploads)
               /\ (2 <= readyState v)%Z
               /\ forall u, In u (videos world_uploads) ->
                    (offsetHeight u * offsetWidth u
                     <= offsetHeight v * offsetWidth v)%Z)
  /\ (exit_of world_uploads some_context initial_state = NoVideo
      <-> snd (call_start world_uploads true initial_state) = None)
  /\ (videos world_uploads = [] ->
      exit_of world_uploads some_context initial_state = NoVideo)
  /\ (exit_of world_uploads some_context initial_state = NoVideo ->
      videos world_uploads = []
      \/ exists v, In v (videos world_uploads) /\ (readyState v < 2)%Z
                   /\ forall u, In u (videos world_uploads) ->
                        (offsetHeight u * offsetWidth u
                         <= offsetHeight v * offsetWidth v)%Z).
Proof.
apply (@captured_video world_uploads some_context true initial_state).
reflexivity.
Defined.

(** *** Ranking the detections *)

Lemma sort_insert_score a l :
  StronglySorted score_ge l ->
  StronglySorted score_ge (Js.sort_insert by_score_desc a l).
Proof.
induction 1 as [|c l Hl IH Hc]; simpl.
- repeat constructor.
- destruct (Js.gtb (by_score_desc a c) 0) eqn:E.
  + apply gtb_gt in E. constructor; [assumption|].
    apply Forall_forall. intros b Hb.
    apply sort_insert_In in Hb. destruct Hb as [->|Hb].
    * unfold by_score_desc in E. unfold score_ge. lra.
    * rewrite Forall_forall in Hc. now apply Hc.
  + apply gtb_le in E. unfold by_score_desc in E.
    constructor; [now constructor|].
    constructor; [unfold score_ge; lra|].
    eapply Forall_impl; [|exact Hc].
    unfold score_ge in *. intros b Hb. lra.
Qed.

Lemma Array_sort_score l :
  StronglySorted score_ge (Js.Array_sort by_score_desc l).
Proof.
induction l as [|a l IH]; simpl; [constructor|].
now apply sort_insert_score.
Qed.

Lemma StronglySorted_app_inv {A : Type} (R : A -> A -> Prop) l1 l2 :
  StronglySorted R (l1 ++ l2) ->
  StronglySorted R l1
  /\ forall a b, In a l1 -> In b l2 -> R a b.
Proof.
induction l1 as [|c l1 IH]; simpl; intro H.
- split; [constructor|]. intros a b [].
- apply StronglySorted_inv in H. destruct H as [Hs Hall].
  destruct (IH Hs) as [H1 H2]. rewrite Forall_forall in Hall. split.
  + constructor; [exact H1|]. apply Forall_forall. intros b Hb.
    apply Hall. apply in_or_app. now left.
  + intros a b [<-|Ha] Hb.
    * apply Hall. apply in_or_app. now right.
    * now apply H2.
Qed.

Lemma sortedDetections_length bboxes :
  length (sortedDetections bboxes) = Nat.min 8 (length bboxes).
Proof.
unfold sortedDetections.
now rewrite length_firstn, Array_sort_length, length_map.
Qed.

(** **** X20.  [sortedDetections] holds the eight best detections, or all
    of them when there are fewer: each entry is a detected box with the
    score [confidence * (w * h)], the entries are in descending order of
    score, and a detected box that is left out scores no more than any
    entry kept. *)
Theorem sortedDetections_top (bboxes : list BoundingBox) :
  let dets := sortedDetections bboxes in
  length dets = Nat.min 8 (length bboxes)
  /\ StronglySorted (fun a b => score b <= score a) dets
  /\ (forall d, In d dets ->
        In (box d) bboxes
        /\ score d = confidence (box d) * (w (box d) * h (box d)))
  /\ (forall b, In b bboxes ->
        (exists d, In d dets /\ box d = b)
        \/ forall d, In d dets -> confidence b * (w b * h b) <= score d).
Proof.
cbv zeta. unfold sortedDetections.
set (scored := map (fun b => mkScored b (confidence b * (w b * h b))) bboxes).
set (sorted := Js.Array_sort by_score_desc scored).
assert (Hs : StronglySorted score_ge sorted) by apply Array_sort_score.
assert (Hsplit : sorted = firstn 8 sorted ++ skipn 8 sorted)
  by (symmetry; apply firstn_skipn).
rewrite Hsplit in Hs. apply StronglySorted_app_inv in Hs.
destruct Hs as [Hs1 Hs2].
assert (Hin : forall d, In d sorted <->
                exists b, In b bboxes
                  /\ d = mkScored b (confidence b * (w b * h b))).
{ intro d. unfold sorted. rewrite Array_sort_In. unfold scored.
  rewrite in_map_iff. split; intros (b & H1 & H2); exists b; auto. }
split; [|split; [|split]].
- rewrite length_firstn. unfold sorted, scored.
  now rewrite Array_sort_length, length_map.
- exact Hs1.
- intros d Hd.
  assert (Hd' : In d sorted) by (rewrite Hsplit; apply in_or_app; now left).
  apply Hin in Hd'. destruct Hd' as (b & Hb & ->). simpl. auto.
- intros b Hb.
  assert (Hd : In (mkScored b (confidence b * (w b * h b))) sorted)
    by (apply Hin; eauto).
  rewrite Hsplit in Hd. apply in_app_or in Hd. destruct Hd as [Hd|Hd].
  + left. eexists. split; [exact Hd|reflexivity].
  + right. intros d Hd'. exact (Hs2 _ _ Hd' Hd).
Qed.

(** *** Encoding the faces *)

Lemma processedFaces_from env source : forall (dets : list Scored) (k : nat) f,
  In f (flat_map (fun entry => match processFace env source entry with
                               | Some f => [f]
                               | None => []
                               end)
                 (combine (seq k (length dets)) dets)) ->
  exists d,
    nth_error dets (index (metadata f) - k) = Some d
    /\ (k <= index (metadata f))%nat
    /\ cropResizeToBlob env source d = Resolved (face_blob f)
    /\ bbox (metadata f) = [x (box d); y (box d); w (box d); h (box d)]
    /\ meta_confidence (metadata f) = confidence (box d).
Proof.
induction dets as [|d dets IH]; intros k f Hf; simpl in Hf; [destruct Hf|].
apply in_app_or in Hf. destruct Hf as [Hf|Hf].
- destruct (cropResizeToBlob env source d) as [blob|e] eqn:E; [|destruct Hf].
  destruct Hf as [<-|[]]. exists d. cbn [metadata index face_blob bbox meta_confidence].
  rewrite Nat.sub_diag. simpl. auto.
- apply IH in Hf. destruct Hf as (d' & Hn & Hk & Hrest).
  exists d'. split; [|split; [lia|exact Hrest]].
  replace (index (metadata f) - k)%nat with (S (index (metadata f) - S k)) by lia.
  exact Hn.
Qed.

Lemma processedFaces_length env source : forall (dets : list Scored) (k : nat),
  (length (flat_map (fun entry => match processFace env source entry with
                                  | Some f => [f]
                                  | None => []
                                  end)
                    (combine (seq k (length dets)) dets))
   <= length dets)%nat.
Proof.
induction dets as [|d dets IH]; intro k; simpl; [lia|].
rewrite length_app. specialize (IH (S k)).
destruct (cropResizeToBlob env source d); simpl; lia.
Qed.

Lemma processedFaces_ordered env source : forall (dets : list Scored) (k : nat),
  StronglySorted lt
    (map (fun f => index (metadata f))
       (flat_map (fun entry => match processFace env source entry with
                               | Some f => [f]
                               | None => []
                               end)
                 (combine (seq k (length dets)) dets))).
Proof.
induction dets as [|d dets IH]; intro k; simpl; [constructor|].
rewrite map_app.
assert (Htail : Forall (fun i => (k < i)%nat)
          (map (fun f => index (metadata f))
             (flat_map (fun entry => match processFace env source entry with
                                     | Some f => [f]
                                     | None => []
                                     end)
                       (combine (seq (S k) (length dets)) dets)))).
{ rewrite Forall_map, Forall_forall. intros f Hf.
  apply processedFaces_from in Hf. destruct Hf as (_ & _ & Hk & _). lia. }
destruct (cropResizeToBlob env source d); simpl.
- constructor; [apply IH|exact Htail].
- apply IH.
Qed.

(** **** X21.  The faces sent on are exactly the ranked detections whose
    encode succeeded, in rank order: each face carries the blob
    [cropResizeToBlob] resolved with for the detection at its [index], with
    that detection's box and confidence as metadata; a detection whose
    encode is rejected is skipped and costs the others nothing. *)
Theorem processedFaces_sound (env : CycleEnv) (source : Source)
        (dets : list Scored) :
  let faces := processedFaces env source dets in
  (length faces <= length dets)%nat
  /\ StronglySorted lt (map (fun f => index (metadata f)) faces)
  /\ (forall f, In f faces ->
        exists d,
          nth_error dets (index (metadata f)) = Some d
          /\ cropResizeToBlob env source d = Resolved (face_blob f)
          /\ bbox (metadata f) = [x (box d); y (box d); w (box d); h (box d)]
          /\ meta_confidence (metadata f) = confidence (box d))
  /\ (forall i d blob,
        nth_error dets i = Some d ->
        cropResizeToBlob env source d = Resolved blob ->
        exists f, In f faces /\ index (metadata f) = i /\ face_blob f = blob).
Proof.
cbv zeta. unfold processedFaces.
split; [apply processedFaces_length|].
split; [apply processedFaces_ordered|]. split.
- intros f Hf. apply processedFaces_from in Hf.
  destruct Hf as (d & Hn & _ & Hrest). rewrite Nat.sub_0_r in Hn. eauto.
- intros i d blob Hn Hc.
  exists (mkFace blob (mkMetadata i [x (box d); y (box d); w (box d); h (box d)]
                                  (confidence (box d)))).
  split; [|split; reflexivity].
  apply in_flat_map. exists (i, d). split.
  + assert (Hi : (i < length dets)%nat) by (apply nth_error_Some; congruence).
    rewrite (@DecodeFacts.combine_seq _ _ 0%nat d (seq 0 (length dets)) dets)
      by (now rewrite length_seq).
    rewrite length_seq. apply in_map_iff. exists i. split.
    * rewrite seq_nth by lia. simpl.
      f_equal. apply nth_error_nth with (d := d) in Hn. exact Hn.
    * apply in_seq. lia.
  + unfold processFace. rewrite Hc. left. reflexivity.
Qed.

(** *** Batches in flight *)

Lemma segment_start_batch env s p s' :
  segment_start env s = (Normal (Some p), s') -> batch_ok p.
Proof.
unfold segment_start, bind, setError, set_isUploadingRef, return_, ret.
destruct (largest (videos env)) as [v|]; [|discriminate].
destruct (readyState v <? 2)%Z; [discriminate|].
intro H. inversion H; subst. exact I.
Qed.

Lemma segment_batch env ctx st p s p' s' :
  segment env ctx st p s = (Normal (Some p'), s') ->
  batch_ok p -> batch_ok p'.
Proof.
destruct p as [v|source|source dets|faces]; simpl;
  unfold bind, await, setStatus, set_isUploadingRef, return_, ret.
- destruct (createImageBitmap env v); [|discriminate].
  intro H. inversion H; subst. auto.
- destruct (detectFaces env source) as [bboxes|]; [|discriminate].
  destruct (length bboxes =? 0)%nat eqn:E; [discriminate|].
  apply Nat.eqb_neq in E.
  intro H. inversion H; subst. intros _. simpl.
  rewrite sortedDetections_length. lia.
- destruct (length (processedFaces env source dets) =? 0)%nat eqn:E;
    [discriminate|].
  apply Nat.eqb_neq in E.
  intro H. inversion H; subst. intro Hd. simpl.
  pose proof (processedFaces_length env source dets 0) as Hl.
  fold (processedFaces env source dets) in Hl. lia.
- destruct (analyzeFaces env faces ctx) as [r|]; [|discriminate].
  unfold setEmotions, setLastUpload, setMessages, setIsStarting.
  destruct st; discriminate.
Qed.

(** **** X22.  However calls of [captureAndProcess] are started and
    resumed, a call suspended at the encode step holds between one and
    eight ranked detections, and a call suspended at the upload has sent
    [analyzeFaces] between one and eight faces. *)
Theorem uploads_bounded (w : World) :
  reachable w ->
  Forall (fun f => batch_ok (flight_pending f)) (flights w).
Proof.
induction 1 as [|w w' _ IH Hstep]; [constructor|].
destruct Hstep as [env ctx st s fl|env s before f after]; simpl in *.
- destruct (call_start env st s) as [s' [p|]] eqn:E; simpl; [|exact IH].
  constructor; [|exact IH]. simpl.
  unfold call_start in E. destruct (isUploadingRef s); [discriminate|].
  apply advance_suspended in E. now apply segment_start_batch in E.
- apply Forall_app in IH. destruct IH as [Hb Hfa].
  pose proof (Forall_inv Hfa) as Hf. pose proof (Forall_inv_tail Hfa) as Ha.
  assert (Hrest : Forall (fun f => batch_ok (flight_pending f))
                         (before ++ after))
    by (apply Forall_app; split; assumption).
  destruct (call_resume env (flight_context f) (flight_isStarting f)
                        (flight_pending f) s) as [s' [p|]] eqn:E; simpl;
    [|exact Hrest].
  constructor; [|exact Hrest]. simpl.
  unfold call_resume in E. apply advance_suspended in E.
  exact (segment_batch _ _ _ _ _ E Hf).
Qed.

Lemma uploading_reachable :
  reachable (land (fst (resume_from (resume_from start_1))) some_context true
                  (resume_from (resume_from (resume_from start_1))) []).
Proof.
eapply reach_step.
- eapply reach_step.
  + eapply reach_step.
    * eapply reach_step; [apply reach_init|].
      apply (@step_call world_uploads some_context true initial_state []).
    * apply (@step_resume world_uploads (fst start_1) []
               (mkFlight (AwaitBitmap a_video) some_context true) []).
  + apply (@step_resume world_uploads (fst (resume_from start_1)) []
             (mkFlight (AwaitDetect 0%nat) some_context true) []).
- match goal with
  | |- step _ _ =>
      let f := eval vm_compute in
               (flights (land (fst (resume_from start_1)) some_context true
                              (resume_from (resume_from start_1)) [])) in
      match f with
      | [?f0] =>
          apply (@step_resume world_uploads
                   (fst (resume_from (resume_from start_1))) [] f0 [])
      end
  end.
Qed.

Lemma uploads_bounded_witness :
  Forall (fun f => batch_ok (flight_pending f))
         (flights (land (fst (resume_from (resume_from start_1)))
                        some_context true
                        (resume_from (resume_from (resume_from start_1)))
                        [])).
Proof.
apply (@uploads_bounded
         (land (fst (resume_from (resume_from start_1))) some_context true
               (resume_from (resume_from (resume_from start_1))) [])).
exact uploading_reachable.
Defined.

(** *** What a cycle leaves *)

(** **** X23.  A cycle touches the chat log and the upload time only on
    the upload exit.  There it appends one message, with the id and the
    time the page gave and the feedback text of the analysis (or "No
    feedback returned." when there is none), sets [lastUpload] to that
    time, and shows the analysis' emotions; on every other exit the chat
    log and [lastUpload] are as they were. *)
Theorem chat_log_grows env ctx st s :
  let s' := snd (captureAndProcess env ctx st s) in
  (exit_of env ctx s <> Uploaded ->
   messages s' = messages s /\ lastUpload s' = lastUpload s)
  /\ (exit_of env ctx s = Uploaded ->
      exists m,
        messages s' = messages s ++ [m]
        /\ id m = randomUUID env
        /\ timestamp m = toLocaleTimeString env
        /\ lastUpload s' = Some (toLocaleTimeString env)
        /\ exists faces r,
             analyzeFaces env faces ctx = Resolved r
             /\ emotions s' = Some (top3_aggregate r)
             /\ text m = match gemini_feedback r with
                         | Some t => t
                         | None => "No feedback returned."%string
                         end).
Proof.
cbv zeta. unfold exit_of.
destruct s as [g sta err emo lu msgs ist]. destruct g, st;
  split_cycle; split; intro H; try congruence; try (split; reflexivity);
  (eexists; cbn; repeat split; eexists _, _;
   split; [eassumption|split; reflexivity]).
Qed.

Lemma cycle_messages env ctx st s :
  exists extra,
    messages (snd (captureAndProcess env ctx st s)) = messages s ++ extra
    /\ (length extra <= 1)%nat.
Proof.
destruct s as [g sta err emo lu msgs ist]. destruct g, st; split_cycle;
  cbn [messages];
  first [ exists []; rewrite app_nil_r; split; [reflexivity|simpl; lia]
        | eexists [_]; split; [reflexivity|simpl; lia] ].
Qed.

(** **** X24.  Over any run of consecutive cycles the chat log only
    grows: the log before the run is a prefix of the log after every cycle
    of it, and the run adds at most one message for each cycle. *)
Theorem chat_log_append_only (ticks : list Tick) (s : AppState) :
  Forall (fun s' => exists extra,
            messages s' = messages s ++ extra
            /\ (length extra <= length ticks)%nat)
         (trace ticks s).
Proof.
revert s. induction ticks as [|t ticks IH]; intro s; simpl.
- constructor; [|constructor]. exists []. now rewrite app_nil_r.
- constructor.
  + exists []. rewrite app_nil_r. split; [reflexivity|simpl; lia].
  + specialize (IH (cycle s t)).
    destruct (cycle_messages (tick_env t) (tick_context t)
                             (tick_isStarting t) s) as (e1 & He1 & Hl1).
    eapply Forall_impl; [|exact IH]. cbv beta.
    intros s' (e2 & He2 & Hl2). exists (e1 ++ e2).
    unfold cycle in He2. rewrite He2, He1, <- app_assoc.
    split; [reflexivity|]. rewrite length_app. lia.
Qed.

Lemma message_or_nonempty m fb :
  fb <> EmptyString -> message_or m fb <> EmptyString.
Proof.
intro Hfb. unfold message_or.
destruct m as [m|]; [|exact Hfb].
destruct (String.eqb m EmptyString) eqn:E; [exact Hfb|].
now apply String.eqb_neq in E.
Qed.

(** **** X25.  What a cycle entered with the guard clear shows of a
    failure.  It takes the error exit exactly when its [catch] block is
    entered, and on every other exit the error is cleared.  When the
    rejected value is anything but [undefined] or [null], the status is
    [Error], the emotions are cleared, the error text is not empty, and the
    chat log and upload time are untouched.  When it is [undefined] or
    [null], reading [e.message] throws: the call rejects with that
    TypeError before any write of the [catch] block, so the error stays
    cleared, the status is the one the [try] block had reached (as before
    the cycle, [Detecting] or [Uploading]), and the emotions, the chat log,
    the upload time and [isStarting] are as they were. *)
Theorem failure_display env ctx st s :
  isUploadingRef s = false ->
  let s' := snd (captureAndProcess env ctx st s) in
  (exit_of env ctx s = Errored <-> caught env ctx s <> None)
  /\ (caught env ctx s = None -> error s' = None)
  /\ (forall m, caught env ctx s = Some (mkError m) ->
       fst (captureAndProcess env ctx st s) = Normal tt
       /\ status s' = Error /\ emotions s' = None
       /\ messages s' = messages s /\ lastUpload s' = lastUpload s
       /\ exists text, error s' = Some text /\ text <> EmptyString)
  /\ (caught env ctx s = Some Nullish ->
       fst (captureAndProcess env ctx st s) = Throw type_error
       /\ error s' = None
       /\ (status s' = status s \/ status s' = Detecting
           \/ status s' = Uploading)
       /\ emotions s' = emotions s
       /\ messages s' = messages s /\ lastUpload s' = lastUpload s
       /\ isStarting s' = isStarting s).
Proof.
intros Hg. cbv zeta. unfold exit_of, caught.
destruct s as [g sta err emo lu msgs ist]. simpl in Hg. subst g.
destruct st; split_cycle;
  (split; [split; intro H;
           first [discriminate H | discriminate | reflexivity
                 | now destruct H]|]);
  (split; [intro H; first [discriminate H | reflexivity]|]);
  (split; [intros m' H;
           first [discriminate H
                 | repeat split; eexists; split;
                   [reflexivity|apply message_or_nonempty; discriminate]]|]);
  intro H; first [discriminate H | repeat split; auto].
Qed.

Lemma failure_display_witness :
  let s' := snd (captureAndProcess world_upload_fails some_context true
                                   initial_state) in
  (exit_of world_upload_fails some_context initial_state = Errored
   <-> caught world_upload_fails some_context initial_state <> None)
  /\ (caught world_upload_fails some_context initial_state = None ->
      error s' = None)
  /\ (forall m,
        caught world_upload_fails some_context initial_state
        = Some (mkError m) ->
        fst (captureAndProcess world_upload_fails some_context true
                               initial_state) = Normal tt
        /\ status s' = Error /\ emotions s' = None
        /\ messages s' = messages initial_state
        /\ lastUpload s' = lastUpload initial_state
        /\ exists text, error s' = Some text /\ text <> EmptyString)
  /\ (caught world_upload_fails some_context initial_state = Some Nullish ->
       fst (captureAndProcess world_upload_fails some_context true
                              initial_state) = Throw type_error
       /\ error s' = None
       /\ (status s' = status initial_state \/ status s' = Detecting
           \/ status s' = Uploading)
       /\ emotions s' = emotions initial_state
       /\ messages s' = messages initial_state
       /\ lastUpload s' = lastUpload initial_state
       /\ isStarting s' = isStarting initial_state).
Proof.
apply (@failure_display world_upload_fails some_context true initial_state).
reflexivity.
Defined.

(** The [isStarting] flag a cycle leaves on an exit other than the error
    exit. *)
Lemma cycle_isStarting env ctx st s :
  let s' := snd (captureAndProcess env ctx st s) in
  exit_of env ctx s <> Errored ->
  isStarting s'
  = match exit_of env ctx s with
    | Uploaded => if st then false else isStarting s
    | _ => isStarting s
    end.
Proof.
cbv zeta. unfold exit_of.
destruct s as [g sta err emo lu msgs ist]. destruct g, st;
  split_cycle; intro Hn; try reflexivity; now destruct Hn.
Qed.

End CycleFacts.

(** ** The switch *)

Module ShellFacts.

Import Orchestrator Shell OrchestratorFacts CycleFacts.

Lemma handleToggle_status enabled p :
  status (state (handleToggle enabled p)) = Initializing ->
  status (state p) = Initializing /\ (isEnabled (handleToggle enabled p) = true -> isEnabled p = true).
Proof.
unfold handleToggle.
destruct enabled; simpl.
- destruct (is_Initializing (status (state p))) eqn:E; simpl.
  + intro H. split; [exact H|auto].
  + intro H. rewrite H in E. discriminate.
- intro H. discriminate.
Qed.

Lemma panel_status ev p :
  status (state (panel ev p)) = Initializing ->
  isEnabled (panel ev p) = true ->
  status (state p) = Initializing /\ isEnabled p = true.
Proof.
destruct ev as [checked| |key]; simpl;
  unfold handleToggleChange, handleSwitchKey;
  destruct (isStarting (state p)); auto.
- intros H1 H2. destruct (handleToggle_status _ _ H1); auto.
- intros H1 H2. destruct (handleToggle_status _ _ H1); auto.
- destruct (String.eqb key _ || String.eqb key _)%bool; auto.
  intros H1 H2. destruct (handleToggle_status _ _ H1); auto.
Qed.

Lemma init_status r s : status (snd (init r s)) <> Initializing.
Proof.
unfold init, try_catch_finally, bind, await, setStatus, setError, ret.
destruct r; simpl; discriminate.
Qed.

Lemma call_start_status env st s :
  status (fst (call_start env st s)) = Initializing ->
  status s = Initializing.
Proof.
destruct s as [g sta err emo lu msgs ist]. destruct g, st;
  split_cycle; simpl; auto.
Qed.

Lemma call_resume_status env ctx st p s :
  status (fst (call_resume env ctx st p s)) = Initializing ->
  status s = Initializing.
Proof.
destruct s as [g sta err emo lu msgs ist].
destruct p as [v|source|source dets|faces], st;
  split_cycle; simpl; auto; try discriminate.
Qed.

Lemma land_app s ctx st r others : app (land s ctx st r others) = fst r.
Proof. destruct r as [s' [p|]]; reflexivity. Qed.

Lemma step_status w w' :
  step w w' -> status (app w') = Initializing -> status (app w) = Initializing.
Proof.
intros [env ctx st s fl|env s before f after]; rewrite land_app; simpl.
- apply call_start_status.
- apply call_resume_status.
Qed.

(** **** X26.  Capture is never enabled while the model is still
    initialising: whatever the user does to the switch, however [init] ends,
    and however calls of [captureAndProcess] are started and resumed, as
    long as the status is [Initializing] the page has [isEnabled] false.
    ([handleToggle] refuses to enable in that status, and nothing sets the
    status back to [Initializing].) *)
Theorem never_enabled_while_initializing (l : Live) :
  live l ->
  status (state (page l)) = Initializing -> isEnabled (page l) = false.
Proof.
induction 1 as [|l l' _ IH Hstep]; [reflexivity|].
destruct Hstep as [ev p fl|r s e fl|s e fl|s e fl w' Hs]; simpl in *.
- intro Hi. destruct (isEnabled (panel ev p)) eqn:E; [|reflexivity].
  destruct (panel_status _ _ Hi E) as [H1 H2].
  specialize (IH H1). congruence.
- intro Hi. now apply init_status in Hi.
- discriminate.
- intro Hi. apply IH. exact (step_status Hs Hi).
Qed.

Lemma never_enabled_while_initializing_witness :
  isEnabled (page (mkLive (panel (Change true) initial_page) [])) = false.
Proof.
apply (@never_enabled_while_initializing
         (mkLive (panel (Change true) initial_page) [])).
- eapply live_next; [apply live_mount|].
  apply (live_panel (Change true) initial_page []).
- reflexivity.
Defined.

Lemma panel_inert ev p : isStarting (state p) = true -> panel ev p = p.
Proof.
intro H. destruct ev as [checked| |key]; simpl;
  unfold handleToggleChange, handleSwitchKey; now rewrite H.
Qed.

Lemma quiet_cycle t p :
  isStarting (state p) = true -> quiet p (Cycle t) ->
  isStarting (cycle (state p) t) = true.
Proof.
intros H [H1 H2]. unfold cycle.
pose proof (cycle_isStarting (tick_env t) (tick_context t)
                             (tick_isStarting t) (state p)) as Hc.
cbv zeta in Hc. rewrite (Hc H2).
destruct (exit_of (tick_env t) (tick_context t) (state p));
  try exact H; congruence.
Qed.

(** **** X27.  Once capture has been switched on, the switch stays inert
    until a cycle uploads or fails: while [isStarting] holds the panel's
    handlers return at once, and a cycle that ends on the busy, no-video,
    no-faces or no-encoded-faces exit leaves [isStarting] set; so over any
    such run of panel events and cycles [isEnabled] does not change and
    [isStarting] stays set. *)
Theorem switch_inert_while_starting (evs : list Event) (p : Page) :
  isStarting (state p) = true ->
  all_quiet p evs ->
  let p' := fold_left handle evs p in
  isEnabled p' = isEnabled p /\ isStarting (state p') = true.
Proof.
revert p. induction evs as [|ev evs IH]; intros p Hs Hq; cbv zeta.
- simpl. auto.
- destruct Hq as [Hq Hrest]. cbn [fold_left].
  assert (Hnext : isEnabled (handle p ev) = isEnabled p
                  /\ isStarting (state (handle p ev)) = true).
  { destruct ev as [e|t]; simpl.
    - rewrite panel_inert by exact Hs. auto.
    - split; [reflexivity|]. now apply quiet_cycle. }
  destruct Hnext as [He Hs'].
  destruct (IH (handle p ev) Hs' Hrest) as [H1 H2].
  split; [congruence|exact H2].
Qed.

Lemma switch_inert_while_starting_witness :
  let p' := fold_left handle restless switched_on in
  isEnabled p' = isEnabled switched_on /\ isStarting (state p') = true.
Proof.
apply (@switch_inert_while_starting restless switched_on).
- reflexivity.
- vm_compute. repeat split; discriminate.
Defined.

End ShellFacts.

(** ** The hook *)

Module DraggableFacts.

Import PrimFloat.
Import Draggable.
Local Open Scope float_scope.

Lemma moves_follow (moves : list Point) : forall d last,
  isDraggingRef d = true ->
  let d' := dispatch_all (map MouseMove (moves ++ [last])) d in
  position d' = mkPoint (px last - px (offsetRef d)) (py last - py (offsetRef d))
  /\ offsetRef d' = offsetRef d /\ isDraggingRef d' = true.
Proof.
induction moves as [|m moves IH]; intros d last Hd; cbv zeta.
- simpl. unfold onMouseMove. rewrite Hd. simpl. auto.
- simpl map. unfold dispatch_all. cbn [fold_left].
  change (fold_left dispatch (map MouseMove (moves ++ [last])) ?x)
    with (dispatch_all (map MouseMove (moves ++ [last])) x).
  assert (Hd' : isDraggingRef (dispatch d (MouseMove m)) = true).
  { simpl. unfold onMouseMove. now rewrite Hd. }
  assert (Ho : offsetRef (dispatch d (MouseMove m)) = offsetRef d).
  { simpl. unfold onMouseMove. now rewrite Hd. }
  destruct (IH (dispatch d (MouseMove m)) last Hd') as (H1 & H2 & H3).
  rewrite Ho in H1, H2. auto.
Qed.

Lemma idle_dispatch d ev :
  isDraggingRef d = false -> no_press ev = true ->
  position (dispatch d ev) = position d
  /\ isDraggingRef (dispatch d ev) = false.
Proof.
intros Hd Hev. destruct ev as [client [r|]|client|]; simpl in *;
  try discriminate; auto.
unfold onMouseMove. rewrite Hd. auto.
Qed.

Lemma still_idle (evs : list MouseEvent) : forall d,
  isDraggingRef d = false ->
  forallb no_press evs = true ->
  position (dispatch_all evs d) = position d
  /\ isDraggingRef (dispatch_all evs d) = false.
Proof.
induction evs as [|ev evs IH]; intros d Hd Hevs; simpl in *.
- auto.
- apply andb_true_iff in Hevs. destruct Hevs as [Hev Hevs].
  destruct (idle_dispatch d ev Hd Hev) as [Hp Hd'].
  destruct (IH (dispatch d ev) Hd' Hevs) as [H1 H2].
  unfold dispatch_all in *. split; congruence.
Qed.

(** **** X28.  A drag places the panel by the last pointer position.  After
    a press on the element, any pointer moves and a release, the position is
    the last pointer position less the offset taken at the press, which is
    the press less the element's corner: [last - (press - corner)], each
    [-] the subtraction of doubles, in the order the code applies them.  The
    moves in between leave no trace, the drag is over and text selection is
    back on.  And events that follow, as long as none is a press on the
    element, leave the position where the release left it. *)
Theorem drag_follows_pointer (d : Drag) (press rect last : Point)
        (moves : list Point) (later : list MouseEvent) :
  forallb no_press later = true ->
  let gesture := MouseDown press (Some rect)
                 :: map MouseMove (moves ++ [last]) ++ [MouseUp] in
  let d' := dispatch_all gesture d in
  position d' = mkPoint (px last - (px press - px rect))
                        (py last - (py press - py rect))
  /\ isDraggingRef d' = false /\ selectionOff d' = false
  /\ position (dispatch_all (gesture ++ later) d) = position d'.
Proof.
intros Hlater gesture d'.
assert (Hd' : d' = onMouseUp
                     (dispatch_all (map MouseMove (moves ++ [last]))
                                   (onMouseDown press (Some rect) d))).
{ subst d' gesture. unfold dispatch_all. cbn [fold_left].
  rewrite fold_left_app. reflexivity. }
pose proof (@moves_follow moves (onMouseDown press (Some rect) d) last eq_refl)
  as (H1 & H2 & H3).
cbv zeta in H1.
assert (Hdrag : isDraggingRef d' = false) by (rewrite Hd'; reflexivity).
split.
{ rewrite Hd'. unfold onMouseUp. cbn [position]. rewrite H1. reflexivity. }
split; [exact Hdrag|]. split; [rewrite Hd'; reflexivity|].
unfold dispatch_all at 1. rewrite fold_left_app.
change (fold_left dispatch gesture d) with d'.
exact (proj1 (still_idle later d' Hdrag Hlater)).
Qed.

Lemma drag_follows_pointer_witness :
  let gesture := MouseDown (mkPoint 100 50) (Some (mkPoint 20.1 20))
                 :: map MouseMove ([mkPoint 110 60] ++ [mkPoint 130 45])
                    ++ [MouseUp] in
  let d' := dispatch_all gesture mounted in
  position d' = mkPoint (130 - (100 - 20.1)) (45 - (50 - 20))
  /\ isDraggingRef d' = false /\ selectionOff d' = false
  /\ position (dispatch_all (gesture ++ [MouseMove (mkPoint 0 0); MouseUp])
                            mounted)
     = position d'.
Proof.
apply (@drag_follows_pointer mounted (mkPoint 100 50) (mkPoint 20.1 20)
         (mkPoint 130 45) [mkPoint 110 60]
         [MouseMove (mkPoint 0 0); MouseUp]).
reflexivity.
Defined.

(** In doubles that position need not be the corner plus the pointer's
    displacement: from a corner at 20.1, a press at 100 and a last move at
    130 leave the panel at 50.099999999999994, not at 50.1. *)
Example drag_rounds :
  130 - (100 - 20.1) = 50.099999999999994
  /\ 20.1 + (130 - 100) = 50.1
  /\ PrimFloat.eqb 50.099999999999994 50.1 = false.
Proof. repeat split; vm_compute; reflexivity. Qed.

End DraggableFacts.

(** ** The emotion bars *)

Module DisplayFacts.


Import String.
Import List.
Import ListNotations.
Import Display JsFacts.

Lemma normalize_range e :
  0 <= bar_score (normalize e) /\ bar_score (normalize e) <= 1.
Proof.
unfold normalize. cbn [bar_score]. unfold Js.Math_max, Js.Math_min. split.
- apply Q.le_max_l.
- apply Q.max_lub; [lra|apply Q.le_min_l].
Qed.

Lemma sort_insert_by_bar a l :
  StronglySorted (fun a b => bar_score b <= bar_score a) l ->
  StronglySorted (fun a b => bar_score b <= bar_score a)
                 (Js.sort_insert by_bar_score_desc a l).
Proof.
induction 1 as [|c l Hl IH Hc]; simpl.
- repeat constructor.
- destruct (Js.gtb (by_bar_score_desc a c) 0) eqn:E.
  + apply gtb_gt in E. constructor; [assumption|].
    apply Forall_forall. intros b Hb.
    apply sort_insert_In in Hb. destruct Hb as [->|Hb].
    * unfold by_bar_score_desc in E. lra.
    * rewrite Forall_forall in Hc. now apply Hc.
  + apply gtb_le in E. unfold by_bar_score_desc in E.
    constructor; [now constructor|].
    constructor; [lra|].
    eapply Forall_impl; [|exact Hc]. cbv beta. intros b Hb. lra.
Qed.

Lemma Array_sort_by_bar l :
  StronglySorted (fun a b => bar_score b <= bar_score a)
                 (Js.Array_sort by_bar_score_desc l).
Proof.
induction l as [|a l IH]; simpl; [constructor|].
now apply sort_insert_by_bar.
Qed.

Lemma firstn_In {A : Type} n (l : list A) a : In a (firstn n l) -> In a l.
Proof.
intro H. rewrite <- (firstn_skipn n l). apply in_or_app. now left.
Qed.

Lemma StronglySorted_firstn {A : Type} (R : A -> A -> Prop) n : forall l,
  StronglySorted R l -> StronglySorted R (firstn n l).
Proof.
induction n as [|n IH]; intros l Hs; [constructor|].
destruct l as [|a l]; [constructor|]. simpl.
apply StronglySorted_inv in Hs. destruct Hs as [Hs Ha].
constructor; [now apply IH|].
rewrite Forall_forall in *. intros b Hb. apply Ha.
now apply firstn_In in Hb.
Qed.

Lemma pct_range b :
  0 <= bar_score b -> bar_score b <= 1 -> (0 <= pct b <= 100)%Z.
Proof.
intros H0 H1. unfold pct. split.
- change 0%Z with (Qfloor 0). apply Qfloor_resp_le. lra.
- assert (H : (Qfloor (bar_score b * 100 + (1 # 2)) <= Qfloor (100 + (1 # 2)))%Z)
    by (apply Qfloor_resp_le; lra).
  exact H.
Qed.

(** **** X29.  The bars of the emotion display.  [normalized] shows at
    most [maxShown] entries, all of them when there are fewer, in
    descending order of score; every score shown lies between 0 and 1, so
    every percentage between 0 and 100; a score that arrives between 0 and
    1 is shown as it is, and one that arrives above 1 and up to 100 is
    taken for a percentage and divided by 100. *)
Theorem normalized_scores (emotions : list Incoming) (maxShown : nat) :
  let shown := normalized emotions maxShown in
  length shown = Nat.min maxShown (length emotions)
  /\ StronglySorted (fun a b => bar_score b <= bar_score a) shown
  /\ (forall s, In s shown ->
        0 <= bar_score s /\ bar_score s <= 1 /\ (0 <= pct s <= 100)%Z
        /\ exists e, In e emotions /\ s = normalize e)
  /\ (forall e raw, in_score e = Some raw ->
        (0 <= raw -> raw <= 1 -> bar_score (normalize e) == raw)
        /\ (1 < raw -> raw <= 100 -> bar_score (normalize e) == raw / 100)).
Proof.
cbv zeta.
assert (Hlast : forall e raw, in_score e = Some raw ->
        (0 <= raw -> raw <= 1 -> bar_score (normalize e) == raw)
        /\ (1 < raw -> raw <= 100 -> bar_score (normalize e) == raw / 100)).
{ intros e raw He. unfold normalize. rewrite He. cbn [bar_score].
  unfold Js.Math_max, Js.Math_min. split; intros H0 H1.
  - assert (Hg : Js.gtb raw 1 = false) by now apply gtb_le.
    rewrite Hg. cbn [andb].
    rewrite Q.min_r by exact H1. now rewrite Q.max_r.
  - assert (Hg : Js.gtb raw 1 = true) by now apply gtb_gt.
    assert (Hl : Js.leb raw 100 = true) by now apply leb_le.
    rewrite Hg, Hl. cbn [andb].
    assert (Hd0 : 0 <= raw / 100) by (apply Qle_shift_div_l; lra).
    assert (Hd1 : raw / 100 <= 1) by (apply Qle_shift_div_r; lra).
    rewrite Q.min_r by exact Hd1. now rewrite Q.max_r. }
unfold normalized.
destruct (length emotions =? 0)%nat eqn:E.
{ apply Nat.eqb_eq in E. rewrite E, Nat.min_0_r.
  split; [reflexivity|]. split; [constructor|]. split; [intros s []|].
  exact Hlast. }
split; [|split; [|split; [|exact Hlast]]].
- now rewrite length_firstn, Array_sort_length, length_map.
- apply StronglySorted_firstn. apply Array_sort_by_bar.
- intros s Hs. apply firstn_In in Hs. apply Array_sort_In in Hs.
  apply in_map_iff in Hs. destruct Hs as (e & <- & He).
  destruct (normalize_range e) as [H0 H1].
  split; [exact H0|]. split; [exact H1|].
  split; [now apply pct_range|]. eauto.
Qed.

(** The bars for [mixed_emotions], three shown: the percentage 80 comes
    first as 0.8, and the score below 0 is shown as 0. *)
Example normalized_mixed :
  map bar_label (normalized mixed_emotions 3)
  = ["sad"%string; "happy"%string; "unknown"%string]
  /\ map pct (normalized mixed_emotions 3) = [80; 25; 0]%Z.
Proof. vm_compute. split; reflexivity. Qed.

End DisplayFacts.

(** ** The upload *)

Module ApiFacts.

Import Orchestrator Api JsFacts.

Lemma buildForm_upto resize faces m : forall start,
  (m <= length faces)%nat ->
  Js.for_upto m (appendFace resize faces) start
  = start ++ map (fun i => FileEntry (fileOf resize (nth i faces no_face)) i)
                 (seq 0 m).
Proof.
induction m as [|m IH]; intros start Hm.
- unfold Js.for_upto. simpl. now rewrite app_nil_r.
- rewrite for_upto_S, IH by lia.
  unfold appendFace at 1.
  rewrite (nth_error_nth' faces no_face) by lia.
  rewrite seq_S, map_app, app_assoc. simpl.
  unfold fileOf.
  destruct (resize (face_blob (nth m faces _))); reflexivity.
Qed.

(** **** X30.  [analyzeFaces] throws the no-faces error exactly when it is
    given no face.  The form it sends holds the metadata field, with the
    face count and the faces' metadata, then the context, then one file for
    each face in order, named by the face's position: the resized blob,
    or the face's own blob when the resize gives nothing or fails.  And it
    returns a result only for a response that is OK and whose body parsed
    as JSON; the emotions returned are the backend's, label for label. *)
Theorem analyzeFaces_contract resize fetch printed faces context :
  (analyzeFaces resize fetch printed faces context = Failed NoFacesToAnalyze
   <-> faces = [])
  /\ (exists files,
        buildForm resize faces context
        = MetadataField (length faces) (map metadata faces)
          :: ContextField context :: files
        /\ length files = length faces
        /\ forall i f, nth_error faces i = Some f ->
             nth_error files i
             = Some (FileEntry (match resize (face_blob f) with
                                | ResizedTo b => b
                                | _ => face_blob f
                                end) i))
  /\ (forall r,
        analyzeFaces resize fetch printed faces context = Answered r ->
        exists response raw,
          fetch (buildForm resize faces context) = inr response
          /\ ok response = true
          /\ bodyJson response = Resolved raw
          /\ gemini_feedback r = raw_feedback raw
          /\ length (top3_aggregate r)
             = length (match raw_top3 raw with Some l => l | None => [] end)
          /\ map label (top3_aggregate r)
             = map be_label (match raw_top3 raw with Some l => l | None => [] end)).
Proof.
split; [|split].
- unfold analyzeFaces. destruct faces as [|f faces]; simpl.
  + split; auto.
  + split; [|discriminate].
    destruct (fetch _) as [error|response].
    * unfold fetchFailure.
      destruct (String.eqb (err_name error) _); [discriminate|].
      destruct (_ && _)%bool; discriminate.
    * unfold parseBody, parseFailure.
      destruct (negb (includes _ _)).
      -- destruct (bodyText response) as [t|e]; [discriminate|].
         destruct e as [|[m|]]; try discriminate.
         destruct (_ && _)%bool; discriminate.
      -- destruct (bodyJson response) as [raw|e].
         ++ destruct (negb (ok response)); discriminate.
         ++ destruct e as [|[m|]]; try discriminate.
            destruct (_ && _)%bool; discriminate.
- unfold buildForm. rewrite buildForm_upto by lia.
  eexists. split; [reflexivity|]. split.
  + now rewrite length_map, length_seq.
  + intros i f Hi.
    assert (Hlt : (i < length faces)%nat) by (apply nth_error_Some; congruence).
    rewrite nth_error_map, nth_error_seq.
    destruct (Nat.ltb_spec i (length faces)); [|lia]. simpl.
    rewrite (nth_error_nth _ _ _ Hi). reflexivity.
- intros r. unfold analyzeFaces.
  destruct (length faces =? 0)%nat; [discriminate|].
  destruct (fetch _) as [error|response] eqn:Ef; [discriminate|].
  unfold parseBody.
  destruct (negb (includes _ _)).
  { destruct (bodyText response); discriminate. }
  destruct (bodyJson response) as [raw|e] eqn:Ej; [|discriminate].
  destruct (ok response) eqn:Eok; simpl; [|discriminate].
  intro H. inversion H; subst. exists response, raw.
  unfold mappedTop3. cbn [top3_aggregate gemini_feedback].
  repeat split; auto; rewrite ?length_map, ?map_map; reflexivity.
Qed.

End ApiFacts.
